(** * Thought Clusters: the numeric core of [app.js]

    A shallow embedding of [euclideanDistance], [kmeans], [umap] and
    [labelClusters] (src/app.js, and the second copy of these functions in
    src/unnamed/part_001, which differs in the label strings and the stopword
    list), together with the properties the specification states about them.

    JavaScript numbers are kept behind an interface ([JSNumber]): every
    arithmetic operator and [Math] function the source applies is one method.
    Two instances are given: IEEE binary64 ([float_number], on the kernel's
    primitive floats, used to run the code on concrete inputs) and exact
    arithmetic on the reals extended with the two infinities and NaN
    ([xreal_number], used where a property rests on arithmetic facts).
    [Math.random] is an oracle: the sequence of its future results, read
    through a counter that is threaded through the code. [Math.log], which
    only [umap] calls and which is no primitive of binary64, is an argument
    of [umap]. *)

From Stdlib Require Import String Ascii DecimalString DecimalN DecimalPos.
From Stdlib Require Import List Arith NArith ZArith Lia Bool Sorted Permutation FinFun.
From Stdlib Require Import QArith.
From Stdlib Require PrimFloat Uint63 FloatOps SpecFloat.
From Stdlib Require Import Reals Lra Qreals.
Import ListNotations.

Set Implicit Arguments.
Local Open Scope nat_scope.

(** ** Completion records and the two monads *)

(** How a call ends: it returns a value, it throws (the only exception the
    modelled code can raise is the [TypeError] of reading a property of
    [undefined]), or a [while] loop of the source has not finished within the
    fuel given to the model. *)
Inductive outcome (A : Type) : Type :=
| Returns (a : A)
| Throws
| OutOfFuel.

Arguments Returns {A} a.
Arguments Throws {A}.
Arguments OutOfFuel {A}.


Definition obind {A B : Type} (m : outcome A) (k : A -> outcome B) : outcome B :=
  match m with
  | Returns a => k a
  | Throws => Throws
  | OutOfFuel => OutOfFuel
  end.

(** [arr[i]] where the code goes on to read a property of the result:
    [undefined] there is a [TypeError]. *)
Definition defined {A : Type} (o : option A) : outcome A :=
  match o with
  | Some a => Returns a
  | None => Throws
  end.

Fixpoint omap {A B : Type} (f : A -> outcome B) (l : list A) : outcome (list B) :=
  match l with
  | [] => Returns []
  | a :: l' => obind (f a) (fun b => obind (omap f l') (fun bs => Returns (b :: bs)))
  end.

Fixpoint ofold {A B : Type} (f : B -> A -> outcome B) (l : list A) (b : B) : outcome B :=
  match l with
  | [] => Returns b
  | a :: l' => obind (f b a) (fun b' => ofold f l' b')
  end.

(** Code that calls [Math.random]: the state is the number of draws made so far. *)
Definition M (A : Type) : Type := nat -> outcome (A * nat).

Definition ret {A : Type} (a : A) : M A := fun s => Returns (a, s).

Definition bind {A B : Type} (m : M A) (k : A -> M B) : M B :=
  fun s => match m s with
           | Returns (a, s') => k a s'
           | Throws => Throws
           | OutOfFuel => OutOfFuel
           end.

Definition lift {A : Type} (o : outcome A) : M A :=
  fun s => obind o (fun a => Returns (a, s)).

Fixpoint mmap {A B : Type} (f : A -> M B) (l : list A) : M (list B) :=
  match l with
  | [] => ret []
  | a :: l' => bind (f a) (fun b => bind (mmap f l') (fun bs => ret (b :: bs)))
  end.

Fixpoint mfold {A B : Type} (f : B -> A -> M B) (l : list A) (b : B) : M B :=
  match l with
  | [] => ret b
  | a :: l' => bind (f b a) (fun b' => mfold f l' b')
  end.

Declare Scope js_scope.
Delimit Scope js_scope with js.
Notation "x <- m ;; k" := (bind m (fun x => k))
  (at level 61, m at next level, right associativity) : js_scope.
Notation "x <-- m ;; k" := (obind m (fun x => k))
  (at level 61, m at next level, right associativity) : js_scope.

(** ** Arrays *)

(** [arr.map((x, i) => ...)]: the elements with their indices. *)
Definition indexed {A : Type} (l : list A) : list (nat * A) :=
  combine (seq 0 (length l)) l.

(** [arr.filter((_, i) => p i)]. *)
Definition filter_index {A : Type} (p : nat -> bool) (l : list A) : list A :=
  map snd (filter (fun ix => p (fst ix)) (indexed l)).

(** [Set.prototype.has] on a set of indices. *)
Definition has (usedIndices : list nat) (i : nat) : bool :=
  existsb (Nat.eqb i) usedIndices.

(** [newLabels.every((l, i) => l === labels[i])]. *)
Definition every_same (newLabels labels : list nat) : bool :=
  forallb (fun il => match nth_error labels (fst il) with
                     | Some l' => Nat.eqb (snd il) l'
                     | None => false
                     end) (indexed newLabels).

(** [Array.prototype.sort(compare)], given the test [compare(x, y) > 0]. The
    sort is stable, and for a consistent comparator its result is fixed by the
    language: an element moves in front of an earlier one only where
    [compare(earlier, later) > 0]. (For a comparator that is not consistent the
    language leaves the order to the implementation; this is the order of a
    stable insertion sort.) *)
Section Sort.

Variable A : Type.
Variable positive_compare : A -> A -> bool.

Fixpoint insert (x : A) (sorted : list A) : list A :=
  match sorted with
  | [] => [x]
  | y :: rest => if positive_compare x y then y :: insert x rest
                 else x :: sorted
  end.

Definition sort (l : list A) : list A := fold_right insert [] l.

End Sort.

(** A slot the Assign pass can produce: the initial [minIdx], or an index of
    its loop. *)
Definition slot_of (k l : nat) : Prop := l = 0 \/ l < k.

(** ** The number interface *)

Class JSNumber (num : Type) : Type := {
  (** a numeric literal, or an integer the code uses as a number *)
  lit : Q -> num;
  (** the value arithmetic gives to an [undefined] operand *)
  NaN : num;
  Infinity : num;
  add : num -> num -> num;
  sub : num -> num -> num;
  mul : num -> num -> num;
  div : num -> num -> num;
  (** [Math.pow(x, 2)] *)
  Math_pow2 : num -> num;
  Math_sqrt : num -> num;
  (** [Math.min] of two arguments *)
  Math_min2 : num -> num -> num;
  (** [x < y] and [x <= y] *)
  lt : num -> num -> bool;
  le : num -> num -> bool;
  (** [Math.floor(x)] used as an array index: [None] when the floor is not an
      index (it is negative, infinite or NaN), so that the read gives
      [undefined] *)
  Math_floor_index : num -> option nat
}.

Section Core.

Context {num : Type} {JSN : JSNumber num}.

Definition of_nat (n : nat) : num := lit (inject_Z (Z.of_nat n)).

(** [a[i]] as an operand of arithmetic. *)
Definition num_at (a : list num) (i : nat) : num :=
  match nth_error a i with
  | Some x => x
  | None => NaN
  end.

(** [arr[d] = v]: a write past the end extends the array (the holes, which the
    code could only read back as operands, hold NaN). *)
Definition array_set (arr : list num) (d : nat) (v : num) : list num :=
  if d <? length arr
  then firstn d arr ++ v :: skipn (S d) arr
  else arr ++ repeat NaN (d - length arr) ++ [v].

(** [Math.min(...xs)]. *)
Definition Math_min (xs : list num) : num :=
  fold_left Math_min2 xs Infinity.

(** [arr.reduce((a, b) => a + b, 0)]. *)
Definition reduce_add (xs : list num) : num :=
  fold_left add xs (lit 0).

(** ** [euclideanDistance] (app.js 619-623) *)

Definition euclideanDistance (a b : list num) : num :=
  Math_sqrt
    (fold_left (fun sum i => add sum (Math_pow2 (sub (num_at a i) (num_at b i))))
               (seq 0 (length a)) (lit 0)).

(** The call [euclideanDistance(emb, centroids[c])]: with [centroids[c]]
    undefined, the first [b[i]] throws (and nothing is read when [emb] is
    empty). *)
Definition euclideanDistance_to (emb : list num) (centroids : list (list num))
    (c : nat) : outcome num :=
  match nth_error centroids c with
  | Some b => Returns (euclideanDistance emb b)
  | None => match emb with
            | [] => Returns (Math_sqrt (lit 0))
            | _ :: _ => Throws
            end
  end.

(** ** [kmeans] (app.js 569-617) *)

(** One draw of [Math.random]. *)
Variable random_values : nat -> num.

Definition Math_random : M num :=
  fun s => Returns (random_values s, S s).

(** Lines 581-584: the weight of every sample. *)
Definition seeding_distances (embeddings centroids : list (list num))
    (usedIndices : list nat) : list num :=
  map (fun ie => if has usedIndices (fst ie) then lit 0
                 else Math_min (map (fun c => euclideanDistance (snd ie) c) centroids))
      (indexed embeddings).

(** Lines 587-590: the scan [r -= distances[i]; if (r <= 0) ... break], from
    index [i] on; [None] when the loop ends without a [break]. *)
Fixpoint pick (distances : list num) (i : nat) (r : num) : option nat :=
  match distances with
  | [] => None
  | d :: rest =>
      let r' := sub r d in
      if le r' (lit 0) then Some i else pick rest (S i) r'
  end.

(** Lines 580-591: [while (centroids.length < k)]. *)
Fixpoint seeding (fuel : nat) (embeddings : list (list num)) (k : nat)
    (centroids : list (list num)) (usedIndices : list nat)
    : M (list (list num)) :=
  if length centroids <? k then
    match fuel with
    | O => fun _ => OutOfFuel
    | S fuel' =>
        (u <- Math_random ;;
         let distances := seeding_distances embeddings centroids usedIndices in
         let totalDist := reduce_add distances in
         let r := mul u totalDist in
         match pick distances 0 r with
         | Some i =>
             e <- lift (defined (nth_error embeddings i)) ;;
             seeding fuel' embeddings k (centroids ++ [e]) (i :: usedIndices)
         | None => seeding fuel' embeddings k centroids usedIndices
         end)%js
    end
  else ret centroids.

(** Lines 595-602: the cluster slot of one sample. *)
Definition nearest (emb : list num) (centroids : list (list num)) (k : nat)
    : outcome nat :=
  (best <-- ofold (fun (st : num * nat) c =>
                     dist <-- euclideanDistance_to emb centroids c ;;
                     Returns (if lt dist (fst st) then (dist, c) else st))
                  (seq 0 k) (Infinity, 0) ;;
   Returns (snd best))%js.

Definition assign (embeddings centroids : list (list num)) (k : nat)
    : outcome (list nat) :=
  omap (fun emb => nearest emb centroids k) embeddings.

(** Lines 610-612: the new coordinates of one centroid. *)
Definition mean_into (centroid : list num) (clusterPoints : list (list num))
    (dim : nat) : list num :=
  fold_left (fun cen d =>
               array_set cen d
                 (div (fold_left (fun sum p => add sum (num_at p d)) clusterPoints (lit 0))
                      (of_nat (length clusterPoints))))
            (seq 0 dim) centroid.

(** Lines 607-613: the update of every centroid. *)
Definition update_slot (embeddings : list (list num)) (labels : list nat)
    (dim : nat) (centroids : list (list num)) (c : nat)
    : outcome (list (list num)) :=
  let clusterPoints :=
    filter_index (fun i => match nth_error labels i with
                           | Some l => Nat.eqb l c
                           | None => false
                           end) embeddings in
  match clusterPoints with
  | [] => Returns centroids
  | _ :: _ =>
      match nth_error centroids c with
      | Some cen =>
          Returns (firstn c centroids ++ mean_into cen clusterPoints dim
                     :: skipn (S c) centroids)
      | None => match dim with O => Returns centroids | S _ => Throws end
      end
  end.

Definition update (embeddings : list (list num)) (labels : list nat)
    (k dim : nat) (centroids : list (list num)) : outcome (list (list num)) :=
  ofold (update_slot embeddings labels dim) (seq 0 k) centroids.

(** How the [for] loop of lines 594-614 was left. *)
Inductive loop_exit : Type :=
| Converged   (* the [break] of line 604 *)
| Exhausted   (* [iter] reached [maxIterations] *).

Record kmeans_run : Type := {
  run_labels : list nat;
  run_centroids : list (list num);
  run_passes : nat;          (* Assign passes performed *)
  run_exit : loop_exit
}.

(** Lines 594-614, with [remaining = maxIterations - iter]. *)
Fixpoint iterate (remaining : nat) (embeddings : list (list num)) (k dim : nat)
    (labels : list nat) (centroids : list (list num)) (passes : nat)
    : outcome kmeans_run :=
  match remaining with
  | O => Returns {| run_labels := labels; run_centroids := centroids;
                    run_passes := passes; run_exit := Exhausted |}
  | S remaining' =>
      (newLabels <-- assign embeddings centroids k ;;
       if every_same newLabels labels
       then Returns {| run_labels := labels; run_centroids := centroids;
                       run_passes := S passes; run_exit := Converged |}
       else
         centroids' <-- update embeddings newLabels k dim centroids ;;
         iterate remaining' embeddings k dim newLabels centroids' (S passes))%js
  end.

(** One Assign pass and one Update pass: lines 595-613 without the test of
    line 604. *)
Definition pass (embeddings : list (list num)) (k dim : nat)
    (st : list nat * list (list num)) : outcome (list nat * list (list num)) :=
  (newLabels <-- assign embeddings (snd st) k ;;
   centroids' <-- update embeddings newLabels k dim (snd st) ;;
   Returns (newLabels, centroids'))%js.

(** The labels and centroids after [t] such passes. *)
Fixpoint after_passes (t : nat) (embeddings : list (list num)) (k dim : nat)
    (st : list nat * list (list num)) : outcome (list nat * list (list num)) :=
  match t with
  | O => Returns st
  | S t' => (st' <-- pass embeddings k dim st ;;
             after_passes t' embeddings k dim st')%js
  end.

(** No assignment changes: an Assign pass against the centroids gives the
    labels back. *)
Definition settled (embeddings : list (list num)) (k : nat)
    (st : list nat * list (list num)) : Prop :=
  assign embeddings (snd st) k = Returns (fst st).


(** The whole function, keeping the final centroids and the way the loop
    ended next to the labels it returns. *)
Definition kmeans_full (fuel : nat) (embeddings : list (list num)) (k : nat)
    (maxIterations : nat) : M kmeans_run :=
  (let n := length embeddings in
   e0 <- lift (defined (nth_error embeddings 0)) ;;
   let dim := length e0 in
   u <- Math_random ;;
   match Math_floor_index (mul u (of_nat n)) with
   | Some idx =>
       first <- lift (defined (nth_error embeddings idx)) ;;
       centroids <- seeding fuel embeddings k [first] [idx] ;;
       lift (iterate maxIterations embeddings k dim (repeat 0 n) centroids 0)
   | None => fun _ => Throws
   end)%js.

Definition kmeans (fuel : nat) (embeddings : list (list num)) (k : nat)
    (maxIterations : nat) : M (list nat) :=
  (run <- kmeans_full fuel embeddings k maxIterations ;;
   ret (run_labels run))%js.

(** ** [umap] (app.js 502-567) *)

Variable Math_log : num -> num.

(** An entry [{ j, d }] of a neighbor list. *)
Record neighbor : Type := { j : nat; d : num }.

(** Lines 511-518: row [i] of the distance matrix. *)
Definition distance_row (embeddings : list (list num)) (dim i : nat)
    (ei : list num) : list num :=
  map (fun jej =>
         if Nat.eqb i (fst jej) then lit 0
         else Math_sqrt
                (fold_left (fun sum d =>
                              add sum (Math_pow2 (sub (num_at ei d) (num_at (snd jej) d))))
                           (seq 0 dim) (lit 0)))
      (indexed embeddings).

Definition distance_matrix (embeddings : list (list num)) (dim : nat)
    : list (list num) :=
  map (fun iei => distance_row embeddings dim (fst iei) (snd iei))
      (indexed embeddings).

(** Lines 523-524: the neighbor list of sample [i]. *)
Definition neighbors_of (nNeighbors n i : nat) (row : list num) : list neighbor :=
  firstn (Nat.min nNeighbors (n - 1))
    (sort (fun a b => lt (lit 0) (sub (d a) (d b)))
       (filter (fun x => negb (Nat.eqb (j x) i))
          (map (fun jd => {| j := fst jd; d := snd jd |}) (indexed row)))).

Definition knn_of (embeddings : list (list num)) (dim nNeighbors : nat)
    : list (list neighbor) :=
  map (fun irow => neighbors_of nNeighbors (length embeddings) (fst irow) (snd irow))
      (indexed (distance_matrix embeddings dim)).

(** [f[c] += v]. *)
Definition add_at (f : list num) (c : nat) (v : num) : list num :=
  array_set f c (add (num_at f c) v).

(** Lines 534-539: the pull of the neighbor at [pj] on the sample at [pi],
    added to [force]. *)
Definition attract (pi pj force : list num) : list num :=
  let dx := sub (num_at pj 0) (num_at pi 0) in
  let dy := sub (num_at pj 1) (num_at pi 1) in
  let dist := add (Math_sqrt (add (mul dx dx) (mul dy dy))) (lit (1 # 1000)) in
  let attraction := mul (lit (1 # 10)) (Math_log (add dist (lit 1))) in
  add_at (add_at force 0 (div (mul attraction dx) dist))
         1 (div (mul attraction dy) dist).

(** Lines 548-555: the push of the sample at [pj] on the sample at [pi],
    added to [force]. *)
Definition repel (pi pj force : list num) : list num :=
  let dx := sub (num_at pj 0) (num_at pi 0) in
  let dy := sub (num_at pj 1) (num_at pi 1) in
  let dist := add (Math_sqrt (add (mul dx dx) (mul dy dy))) (lit (1 # 1000)) in
  if lt dist (lit 2) then
    let repulsion := div (lit (- 1 # 2)) (mul dist dist) in
    add_at (add_at force 0 (div (mul repulsion dx) dist))
           1 (div (mul repulsion dy) dist)
  else force.

(** Lines 561-562: the move of one sample. (part_001 multiplies the force
    by [learningRate = 1.0] first, which changes no number.) *)
Definition displace (pi force : list num) (decay : num) : list num :=
  add_at (add_at pi 0 (mul (num_at force 0) decay)) 1 (mul (num_at force 1) decay).

(** Lines 533-540: the pull of the neighbors of one sample on it. *)
Definition attraction_force (positions : list (list num)) (pi : list num)
    (neighbors : list neighbor) (force : list num) : outcome (list num) :=
  ofold (fun force nb =>
           (pj <-- defined (nth_error positions (j nb)) ;;
            Returns (attract pi pj force))%js)
        neighbors force.

(** Lines 545-556: the push of [sampleSize] randomly drawn samples on sample
    [i]. *)
Definition repulsion_force (positions : list (list num)) (n i : nat)
    (pi : list num) (sampleSize : nat) (force : list num) : M (list num) :=
  mfold (fun force _ =>
           (u <- Math_random ;;
            match Math_floor_index (mul u (of_nat n)) with
            | Some j =>
                if Nat.eqb i j then ret force
                else
                  pj <- lift (defined (nth_error positions j)) ;;
                  ret (repel pi pj force)
            | None => fun _ => Throws
            end)%js)
        (seq 0 sampleSize) force.

(** Lines 529-564: one pass of the force simulation. *)
Definition umap_pass (knn : list (list neighbor)) (nComponents n iterations : nat)
    (positions : list (list num)) (iter : nat) : M (list (list num)) :=
  (attracted <- lift (omap (fun i =>
                 (pi <-- defined (nth_error positions i) ;;
                  neighbors <-- defined (nth_error knn i) ;;
                  attraction_force positions pi neighbors
                    (repeat (lit 0) nComponents))%js) (seq 0 n)) ;;
   let sampleSize := Nat.min 30 n in
   forces <- mmap (fun i =>
                 pi <- lift (defined (nth_error positions i)) ;;
                 force <- lift (defined (nth_error attracted i)) ;;
                 repulsion_force positions n i pi sampleSize force) (seq 0 n) ;;
   let decay := sub (lit 1) (div (of_nat iter) (of_nat iterations)) in
   lift (omap (fun i =>
                 (pi <-- defined (nth_error positions i) ;;
                  force <-- defined (nth_error forces i) ;;
                  Returns (displace pi force decay))%js) (seq 0 n)))%js.

Definition iterations : nat := 200.

Definition umap (embeddings : list (list num)) (nComponents nNeighbors : nat)
    : M (list (list num)) :=
  (let n := length embeddings in
   e0 <- lift (defined (nth_error embeddings 0)) ;;
   let dim := length e0 in
   positions <- mmap (fun _ =>
                  mmap (fun _ => u <- Math_random ;;
                                 ret (mul (sub u (lit (1 # 2))) (lit 10)))
                       (repeat 0 nComponents)) embeddings ;;
   let knn := knn_of embeddings dim nNeighbors in
   mfold (umap_pass knn nComponents n iterations) (seq 0 iterations) positions)%js.

End Core.

(** ** [labelClusters] (app.js 625-658) *)

Local Open Scope string_scope.
Local Open Scope nat_scope.

(** *** Plain objects used as maps

    A property key is a string; the keys that are array indices (the decimal
    numerals without leading zero, below 2^32 - 1) are kept apart because an
    object lists them first, in ascending order, before all other keys in the
    order of their creation. An object is the list of its own properties in
    that order. *)
Inductive key : Type :=
| Index (n : N)
| Name (s : string).

Definition key_eqb (a b : key) : bool :=
  match a, b with
  | Index n, Index m => N.eqb n m
  | Name s, Name t => String.eqb s t
  | _, _ => false
  end.

Definition max_index : N := 4294967295.

Definition decimal (n : N) : string := NilZero.string_of_uint (N.to_uint n).

(** The key a string denotes. *)
Definition key_of_string (s : string) : key :=
  match NilEmpty.uint_of_string s with
  | Some u =>
      if negb (String.eqb s "") && String.eqb (decimal (N.of_uint u)) s
         && N.ltb (N.of_uint u) max_index
      then Index (N.of_uint u) else Name s
  | None => Name s
  end.

Definition string_of_key (k : key) : string :=
  match k with
  | Index n => decimal n
  | Name s => s
  end.

(** The key [labels[i]] denotes: a number, or [undefined]. *)
Definition key_of_label (l : option nat) : key :=
  match l with
  | Some c => key_of_string (decimal (N.of_nat c))
  | None => Name "undefined"
  end.

Section Objects.

Variable V : Type.

Definition object : Type := list (key * V).

(** [o[k]] on the object's own properties. *)
Fixpoint own (o : object) (k : key) : option V :=
  match o with
  | [] => None
  | (k', v) :: o' => if key_eqb k k' then Some v else own o' k
  end.

(** [o[k] = v]. *)
Fixpoint obj_set (k : key) (v : V) (o : object) : object :=
  match o with
  | [] => [(k, v)]
  | (k', v') :: o' =>
      if key_eqb k k' then (k, v) :: o'
      else match k, k' with
           | Index n, Index m => if N.ltb n m then (k, v) :: o
                                 else (k', v') :: obj_set k v o'
           | Index _, Name _ => (k, v) :: o
           | Name _, _ => (k', v') :: obj_set k v o'
           end
  end.

(** [Object.keys(o)], which is also the order of [for (const k in o)]. *)
Definition keys (o : object) : list key := map fst o.

End Objects.

(** *** Text of code units below 256 *)

Definition code (c : ascii) : nat := nat_of_ascii c.

Definition between (lo hi n : nat) : bool := (lo <=? n) && (n <=? hi).

(** [toLowerCase] on one character: A-Z, and the capital letters of Latin-1. *)
Definition lower_char (c : ascii) : ascii :=
  if between 65 90 (code c)
     || (between 192 222 (code c) && negb (code c =? 215))
  then ascii_of_nat (code c + 32) else c.

(** The class [\s] below 256. *)
Definition is_space (c : ascii) : bool :=
  between 9 13 (code c) || (code c =? 32) || (code c =? 160).

(** The class [a-z0-9]. *)
Definition is_alnum (c : ascii) : bool :=
  between 97 122 (code c) || between 48 57 (code c).

Fixpoint map_string (f : ascii -> ascii) (s : string) : string :=
  match s with
  | EmptyString => EmptyString
  | String c s' => String (f c) (map_string f s')
  end.

Definition toLowerCase (s : string) : string := map_string lower_char s.

(** [.replace(/[^a-z0-9\s]/g, ' ')]. *)
Definition replace_other (s : string) : string :=
  map_string (fun c => if is_alnum c || is_space c then c else " "%char) s.

(** [.split(/\s+/)]: the pieces between the maximal runs of white space,
    an empty piece at an end where the string starts or ends with one.
    [piece] is the piece being read; [in_run] says that the last character
    read was white space. *)
Fixpoint split_from (piece : string) (in_run : bool) (s : string) : list string :=
  match s with
  | EmptyString => [piece]
  | String c s' =>
      if is_space c then
        if in_run then split_from piece true s'
        else piece :: split_from EmptyString true s'
      else split_from (piece ++ String c EmptyString) false s'
  end.

Definition split_spaces (s : string) : list string :=
  split_from EmptyString false s.

(** [w.charAt(0).toUpperCase() + w.slice(1)], for the words the code applies
    it to, which are made of [a-z0-9]. *)
Definition capitalize (w : string) : string :=
  match w with
  | EmptyString => EmptyString
  | String c w' =>
      String (if between 97 122 (code c) then ascii_of_nat (code c - 32) else c) w'
  end.

(** *** The two revisions of the function *)

Record revision : Type := {
  stopwords : list string;
  (** appended to a label made of a single word *)
  single_suffix : string;
  (** the word of the positional label *)
  fallback_word : string
}.

(** src/app.js. *)
Definition app_js : revision := {|
  stopwords := [
    "the"; "a"; "an"; "is"; "are"; "was"; "were"; "be"; "been"; "being";
    "have"; "has"; "had"; "do"; "does"; "did"; "will"; "would"; "could";
    "should"; "may"; "might"; "must"; "shall"; "can"; "need"; "to"; "of";
    "in"; "for"; "on"; "with"; "at"; "by"; "from"; "as"; "into"; "through";
    "during"; "before"; "after"; "above"; "below"; "between"; "under";
    "again"; "further"; "then"; "once"; "here"; "there"; "when"; "where";
    "why"; "how"; "all"; "each"; "few"; "more"; "most"; "other"; "some";
    "such"; "no"; "nor"; "not"; "only"; "own"; "same"; "so"; "than"; "too";
    "very"; "just"; "and"; "but"; "if"; "or"; "because"; "until"; "while";
    "this"; "that"; "these"; "those"; "what"; "which"; "who"; "whom";
    "whose"; "it"; "its"; "i"; "me"; "my"; "myself"; "we"; "our"; "ours";
    "you"; "your"; "yours"; "he"; "him"; "his"; "she"; "her"; "hers"; "they";
    "them"; "their"; "am"; "about"; "get"; "like"; "make"; "know"; "think";
    "want"; "see"; "look"; "use"; "find"; "give"; "tell"; "try"; "help";
    "please"; "thank"; "thanks"; "hi"; "hello"; "hey"; "yes"; "yeah"; "ok";
    "okay"; "sure"; "right"; "using"; "need"; "want"; "something";
    "anything"; "everything"
  ];
  single_suffix := "";
  fallback_word := "Topic"
|}.

(** src/unnamed/part_001. *)
Definition part_001 : revision := {|
  stopwords := [
    "the"; "a"; "an"; "is"; "are"; "was"; "were"; "be"; "been"; "being";
    "have"; "has"; "had"; "do"; "does"; "did"; "will"; "would"; "could";
    "should"; "may"; "might"; "must"; "shall"; "can"; "need"; "dare";
    "ought"; "used"; "to"; "of"; "in"; "for"; "on"; "with"; "at"; "by";
    "from"; "as"; "into"; "through"; "during"; "before"; "after"; "above";
    "below"; "between"; "under"; "again"; "further"; "then"; "once"; "here";
    "there"; "when"; "where"; "why"; "how"; "all"; "each"; "few"; "more";
    "most"; "other"; "some"; "such"; "no"; "nor"; "not"; "only"; "own";
    "same"; "so"; "than"; "too"; "very"; "just"; "and"; "but"; "if"; "or";
    "because"; "until"; "while"; "this"; "that"; "these"; "those"; "what";
    "which"; "who"; "whom"; "whose"; "it"; "its"; "i"; "me"; "my"; "myself";
    "we"; "our"; "ours"; "ourselves"; "you"; "your"; "yours"; "yourself";
    "yourselves"; "he"; "him"; "his"; "himself"; "she"; "her"; "hers";
    "herself"; "they"; "them"; "their"; "theirs"; "themselves"; "am";
    "about"; "get"; "like"; "make"; "know"; "think"; "want"; "see"; "look";
    "use"; "find"; "give"; "tell"; "try"; "leave"; "call"; "keep"; "let";
    "begin"; "seem"; "help"; "show"; "hear"; "play"; "run"; "move"; "live";
    "believe"; "hold"; "bring"; "happen"; "write"; "provide"; "sit"; "stand";
    "lose"; "pay"; "meet"; "include"; "continue"; "set"; "learn"; "change";
    "lead"; "understand"; "watch"; "follow"; "stop"; "create"; "speak";
    "read"; "spend"; "grow"; "open"; "walk"; "win"; "offer"; "remember";
    "love"; "consider"; "appear"; "buy"; "wait"; "serve"; "die"; "send";
    "expect"; "build"; "stay"; "fall"; "cut"; "reach"; "kill"; "remain";
    "suggest"; "raise"; "pass"; "sell"; "require"; "report"; "decide";
    "pull"; "please"; "thank"; "thanks"; "hi"; "hello"; "hey"; "yes"; "yeah";
    "ok"; "okay"; "sure"; "right"
  ];
  single_suffix := " Topics";
  fallback_word := "Cluster"
|}.

(** *** The function *)

(** The value of a property of [words]: a count, or the string that
    [(words[word] || 0) + 1] is once [words[word]] was read from
    [Object.prototype] (the constructor function, then that string, to which
    [+ 1] appends a character). *)
Inductive tally : Type :=
| Count (n : nat)
| Text.

Section Labels.

Variable rev : revision.

(** Lines 627-631. *)
Definition group (messages : list string) (labels : list nat)
    : object (list string) :=
  fold_left (fun clusterTexts it =>
               let cluster := key_of_label (nth_error labels (fst it)) in
               let texts := match own clusterTexts cluster with
                            | Some texts => texts
                            | None => []
                            end in
               obj_set cluster (texts ++ [snd it])%list clusterTexts)
            (indexed messages) [].

(** Lines 641-642. *)
Definition textWords (text : string) : list string :=
  filter (fun w => (2 <? String.length w)
                   && negb (existsb (String.eqb w) (stopwords rev)))
         (split_spaces (replace_other (toLowerCase text))).

(** Line 643: [words[word] = (words[word] || 0) + 1]. The only word that
    names a property of [Object.prototype] is [constructor]. *)
Definition count_word (words : object tally) (word : string) : object tally :=
  let k := key_of_string word in
  obj_set k
    match own words k with
    | Some (Count n) => Count (S n)
    | Some Text => Text
    | None => if String.eqb word "constructor" then Text else Count 1
    end
    words.

Definition count_words (texts : list string) : object tally :=
  fold_left (fun words text => fold_left count_word (textWords text) words)
            texts [].

(** [b[1] - a[1] > 0]; the difference is NaN where a value is a string. *)
Definition more_frequent (a b : key * tally) : bool :=
  match snd a, snd b with
  | Count x, Count y => x <? y
  | _, _ => false
  end.

(** Line 646. *)
Definition top_words (words : object tally) : list string :=
  map (fun e => string_of_key (fst e)) (firstn 3 (sort more_frequent words)).

(** Line 653: the positional label. The keys of [clusterTexts] are made by
    [key_of_label]: numerals, and [undefined], of which [parseInt] is NaN. *)
Definition fallback (cluster : key) : string :=
  fallback_word rev ++ " " ++
  match cluster with
  | Index n => decimal (n + 1)
  | Name s => match NilEmpty.uint_of_string s with
              | Some u => if String.eqb s "" then "NaN" else decimal (N.of_uint u + 1)
              | None => "NaN"
              end
  end.

(** Lines 648-654. *)
Definition label_of (cluster : key) (sorted : list string) : string :=
  match sorted with
  | w1 :: w2 :: _ => capitalize w1 ++ " & " ++ capitalize w2
  | [w] => capitalize w ++ single_suffix rev
  | [] => fallback cluster
  end.

Definition labelClusters (messages : list string) (labels : list nat)
    : object string :=
  fold_left (fun clusterLabels ct =>
               obj_set (fst ct) (label_of (fst ct) (top_words (count_words (snd ct))))
                       clusterLabels)
            (group messages labels) [].

End Labels.

Local Close Scope string_scope.

(** *** The label rule, stated on the words of a group

    A word is named by the property key it is counted under
    ([key_of_string] loses nothing). *)

Module LabelRule.

Local Open Scope string_scope.
Local Open Scope nat_scope.

(** How often a word occurs among the words of the group. *)
Definition frequency (words : list key) (w : key) : nat :=
  length (filter (key_eqb w) words).

(** The distinct elements of a list, each at its first occurrence. *)
Definition first_encountered {A : Type} (eqb : A -> A -> bool) (l : list A) : list A :=
  fold_left (fun seen a => if existsb (eqb a) seen then seen else (seen ++ [a])%list)
            l [].

(** The words that are array indices, and the others. *)
Definition indices (words : list key) : list N :=
  flat_map (fun w => match w with Index n => [n] | Name _ => [] end) words.

Definition names (words : list key) : list string :=
  flat_map (fun w => match w with Index _ => [] | Name s => [s] end) words.

(** The comparator of the ascending order of numbers: [a] goes behind [b]
    where [b < a]. *)
Definition ascending (a b : N) : bool := N.ltb b a.

(** The order in which an object lists the words it has counted: the array
    indices in ascending order, then the other words as first encountered. *)
Definition property_order (words : list key) : list key :=
  (map Index (sort ascending (first_encountered N.eqb (indices words)))
   ++ map Name (first_encountered String.eqb (names words)))%list.

(** The words of [order] by descending frequency, words of equal frequency
    in the order they have in [order]. *)
Definition by_frequency (words order : list key) : list key :=
  sort (fun a b => frequency words a <? frequency words b) order.

Section Rule.

Variable rev : revision.

(** The label made of the ranked words: the two first, the only one, or the
    positional label of the slot. *)
Definition label (cluster : key) (ranked : list key) : string :=
  match ranked with
  | w1 :: w2 :: _ =>
      capitalize (string_of_key w1) ++ " & " ++ capitalize (string_of_key w2)
  | [w] => capitalize (string_of_key w) ++ single_suffix rev
  | [] => fallback rev cluster
  end.

(** The rule as the specification words it: ties by first-encountered
    order. *)
Definition claimed_label (cluster : key) (words : list key) : string :=
  label cluster (by_frequency words (first_encountered key_eqb words)).

(** The rule with ties in the order of the object's properties. *)
Definition label_of_words (cluster : key) (words : list key) : string :=
  label cluster (by_frequency words (property_order words)).

(** The words of the texts of a group that survive the filter of lines
    641-642. *)
Definition surviving (texts : list string) : list string :=
  concat (map (textWords rev) texts).

End Rule.

End LabelRule.

(** Every character of a string passes a test. *)
Fixpoint all_chars (test : ascii -> bool) (s : string) : bool :=
  match s with
  | EmptyString => true
  | String c s' => test c && all_chars test s'
  end.

(** The texts of the samples that carry the slot [c], in the order of the
    samples. *)
Definition member_texts (messages : list string) (labels : list nat) (c : nat)
    : list string :=
  filter_index (fun i => match nth_error labels i with
                         | Some l => Nat.eqb l c
                         | None => false
                         end) messages.

(** The keys of an object after [o[k] = v]. *)
Fixpoint keys_after_set (k : key) (ks : list key) : list key :=
  match ks with
  | [] => [k]
  | k' :: ks' =>
      if key_eqb k k' then ks
      else match k, k' with
           | Index n, Index m => if N.ltb n m then k :: ks
                                 else k' :: keys_after_set k ks'
           | Index _, Name _ => k :: ks
           | Name _, _ => k' :: keys_after_set k ks'
           end
  end.

(** The same on the two parts of a list of keys: the array indices
    (ascending) and the other keys (in the order of their creation). *)
Fixpoint place_index (n : N) (indices : list N) : list N :=
  match indices with
  | [] => [n]
  | m :: rest =>
      if N.eqb n m then indices
      else if N.ltb n m then n :: indices
      else m :: place_index n rest
  end.

Definition add_name (s : string) (names : list string) : list string :=
  if existsb (String.eqb s) names then names else names ++ [s].

(** The keys of an object: array indices in strictly ascending order, then
    the other keys, none twice. *)
Definition ordered_keys (ks : list key) : Prop :=
  exists (indices : list N) (names : list string),
    ks = map Index indices ++ map Name names
    /\ StronglySorted N.lt indices
    /\ NoDup names.

(** [words[k] = (words[k] || 0) + 1] for a key that [Object.prototype] does
    not have. *)
Definition bump (words : object tally) (k : key) : object tally :=
  obj_set k
    match own words k with
    | Some (Count n) => Count (S n)
    | Some Text => Text
    | None => Count 1
    end
    words.

(** ** IEEE binary64 numbers *)

Module Float64.

Definition of_Z (z : Z) : PrimFloat.float :=
  match z with
  | Z0 => PrimFloat.zero
  | Zpos _ => PrimFloat.of_uint63 (Uint63.of_Z z)
  | Zneg p => PrimFloat.opp (PrimFloat.of_uint63 (Uint63.of_Z (Zpos p)))
  end.

(** A literal [a/b] with [a] and [b] below 2^53 is the correctly rounded
    quotient of two exact values, which is the double the literal denotes. *)
Definition float_lit (q : Q) : PrimFloat.float :=
  PrimFloat.div (of_Z (Qnum q)) (of_Z (Zpos (Qden q))).

(** [Math.min(a, b)]: NaN if either is NaN, and -0 below +0. *)
Definition float_min2 (a b : PrimFloat.float) : PrimFloat.float :=
  if PrimFloat.is_nan a || PrimFloat.is_nan b then PrimFloat.nan
  else if PrimFloat.ltb a b then a
  else if PrimFloat.ltb b a then b
  else if PrimFloat.get_sign a then a else b.

Definition float_floor_index (x : PrimFloat.float) : option nat :=
  match FloatOps.Prim2SF x with
  | SpecFloat.S754_zero _ => Some 0
  | SpecFloat.S754_finite false m e =>
      Some (Z.to_nat (if (0 <=? e)%Z then Z.shiftl (Zpos m) e
                      else Z.shiftr (Zpos m) (- e)))
  | _ => None
  end.

(** [Math.pow(x, 2)] is taken to be the product [x * x]. *)
#[export] Instance float_number : JSNumber PrimFloat.float := {|
  lit := float_lit;
  NaN := PrimFloat.nan;
  Infinity := PrimFloat.infinity;
  add := PrimFloat.add;
  sub := PrimFloat.sub;
  mul := PrimFloat.mul;
  div := PrimFloat.div;
  Math_pow2 := fun x => PrimFloat.mul x x;
  Math_sqrt := PrimFloat.sqrt;
  Math_min2 := float_min2;
  lt := PrimFloat.ltb;
  le := PrimFloat.leb;
  Math_floor_index := float_floor_index
|}.

End Float64.

#[global] Existing Instance Float64.float_number.

(** ** Exact arithmetic: the reals with the infinities and NaN *)

Module Exact.

Local Open Scope R_scope.

Inductive xreal : Type :=
| Fin (x : R)
| PInf
| NInf
| XNaN.

Definition Rltb (x y : R) : bool := if Rlt_dec x y then true else false.
Definition Rleb (x y : R) : bool := if Rle_dec x y then true else false.
Definition Reqb (x y : R) : bool := if Req_dec_T x y then true else false.

Definition xopp (a : xreal) : xreal :=
  match a with
  | Fin x => Fin (- x)
  | PInf => NInf
  | NInf => PInf
  | XNaN => XNaN
  end.

Definition xadd (a b : xreal) : xreal :=
  match a, b with
  | XNaN, _ | _, XNaN => XNaN
  | Fin x, Fin y => Fin (x + y)
  | PInf, NInf | NInf, PInf => XNaN
  | PInf, _ | _, PInf => PInf
  | NInf, _ | _, NInf => NInf
  end.

Definition xsub (a b : xreal) : xreal := xadd a (xopp b).

(** The infinity with the sign of [x] times [positive]; NaN for [x = 0]. *)
Definition signed_inf (positive : bool) (x : R) : xreal :=
  if Reqb x 0 then XNaN
  else if Bool.eqb positive (Rltb 0 x) then PInf else NInf.

Definition xmul (a b : xreal) : xreal :=
  match a, b with
  | XNaN, _ | _, XNaN => XNaN
  | Fin x, Fin y => Fin (x * y)
  | PInf, Fin x | Fin x, PInf => signed_inf true x
  | NInf, Fin x | Fin x, NInf => signed_inf false x
  | PInf, PInf | NInf, NInf => PInf
  | PInf, NInf | NInf, PInf => NInf
  end.

(** Division; a zero divisor counts as +0 (the sign of zero is not kept). *)
Definition xdiv (a b : xreal) : xreal :=
  match a, b with
  | XNaN, _ | _, XNaN => XNaN
  | Fin x, Fin y => if Reqb y 0 then signed_inf true x else Fin (x / y)
  | Fin _, _ => Fin 0
  | PInf, Fin y => if Rltb y 0 then NInf else PInf
  | NInf, Fin y => if Rltb y 0 then PInf else NInf
  | _, _ => XNaN
  end.

Definition xsqrt (a : xreal) : xreal :=
  match a with
  | Fin x => if Rltb x 0 then XNaN else Fin (sqrt x)
  | PInf => PInf
  | _ => XNaN
  end.

Definition xlog (a : xreal) : xreal :=
  match a with
  | Fin x => if Rltb x 0 then XNaN else if Reqb x 0 then NInf else Fin (ln x)
  | PInf => PInf
  | _ => XNaN
  end.

Definition xlt (a b : xreal) : bool :=
  match a, b with
  | XNaN, _ | _, XNaN => false
  | Fin x, Fin y => Rltb x y
  | NInf, NInf | PInf, _ | _, NInf => false
  | _, _ => true
  end.

Definition xle (a b : xreal) : bool :=
  match a, b with
  | XNaN, _ | _, XNaN => false
  | Fin x, Fin y => Rleb x y
  | NInf, _ | _, PInf => true
  | _, _ => false
  end.

Definition xmin2 (a b : xreal) : xreal :=
  match a, b with
  | XNaN, _ | _, XNaN => XNaN
  | _, _ => if xlt b a then b else a
  end.

Definition xfloor_index (a : xreal) : option nat :=
  match a with
  | Fin x => if Rleb 0 x then Some (Z.to_nat (Int_part x)) else None
  | _ => None
  end.

#[export] Instance xreal_number : JSNumber xreal := {|
  lit := fun q => Fin (Q2R q);
  NaN := XNaN;
  Infinity := PInf;
  add := xadd;
  sub := xsub;
  mul := xmul;
  div := xdiv;
  Math_pow2 := fun x => xmul x x;
  Math_sqrt := xsqrt;
  Math_min2 := xmin2;
  lt := xlt;
  le := xle;
  Math_floor_index := xfloor_index
|}.

(** A number that is neither NaN nor infinite. *)
Definition finite (a : xreal) : Prop :=
  match a with
  | Fin _ => True
  | _ => False
  end.

(** A position of the layout: two finite coordinates. *)
Definition position (p : list xreal) : Prop :=
  exists x y, p = [Fin x; Fin y].

(** A number that is finite and not negative. *)
Definition nonneg (a : xreal) : Prop :=
  match a with
  | Fin x => 0 <= x
  | _ => False
  end.

(** An embedding of dimension [dim]: [dim] finite numbers. *)
Definition vector (dim : nat) (e : list xreal) : Prop :=
  length e = dim /\ Forall finite e.

(** The value of a finite number (0 for the others). *)
Definition value (a : xreal) : R :=
  match a with
  | Fin x => x
  | _ => 0
  end.


(** A draw of [Math.random] lies in [0, 1). *)
Definition unit_interval (a : xreal) : Prop :=
  match a with
  | Fin x => 0 <= x < 1
  | _ => False
  end.

End Exact.

#[global] Existing Instance Exact.xreal_number.

(** ** Sample inputs *)

Module Samples.

Import PrimFloat.

(** Four one-dimensional samples in two groups, with the draws 0.25 and 0.5 of
    [Math.random] (binary64). *)
Definition embeddings : list (list PrimFloat.float) :=
  [[0%float]; [1%float]; [10%float]; [11%float]].

Definition random_values (s : nat) : PrimFloat.float :=
  nth s [0.25%float; 0.5%float] 0%float.

(** What [kmeans(embeddings, 2)] ends with on these draws. *)
Definition run : kmeans_run := {|
  run_labels := [0; 0; 1; 1];
  run_centroids := [[0.5%float]; [10.5%float]];
  run_passes := 2;
  run_exit := Converged
|}.

(** Three centroids of which the second has lost its samples. *)
Definition starved_embeddings : list (list PrimFloat.float) :=
  [[0%float]; [0%float]; [5%float]].

Definition starved_labels : list nat := [0; 0; 2].




(** The texts of the specification's example, in one cluster. *)
Definition texts : list string :=
  ["fix my python error"; "python bug fix"; "debug this code"]%string.

(** A text whose two words are equally frequent, the second one a numeral. *)
Definition numeral_text : list string := ["zebra 100"]%string.

(** A text in which the word [constructor] is the most frequent. *)
Definition constructor_text : list string :=
  ["alpha constructor constructor"]%string.






Definition zero_draws (s : nat) : Exact.xreal := Exact.Fin 0.

End Samples.

(** * Around the numeric core

    The callers and the neighbours of the four functions in [app.js]: the
    stages of [processConversations], the parsers of the exports, the
    behavioral analysis of the prompts and the points of the plot. Code that
    works on the page, on the network or on the language model is left
    out. *)

(** ** [truncateText] (app.js 1110-1113) *)

Definition truncateText (text : string) (maxLength : nat) : string :=
  if String.length text <=? maxLength then text
  else (substring 0 maxLength text ++ "...")%string.

(** ** The stages of [processConversations] (app.js 669-732)

    The numbers of [CONFIG] (lines 20-26). In part_001 [maxClusters] is 15;
    the other numbers are the same. *)

Definition minClusters : nat := 4.
Definition maxClusters : nat := 12.
Definition messagesPerCluster : nat := 15.
Definition minMessageLength : nat := 15.
Definition maxMessages : nat := 500.

Module Pipeline.

Local Open Scope string_scope.
Local Open Scope nat_scope.

(** Line 691. [n] is the length of an array, and [Math.floor] of its quotient
    by 15 is the integer quotient. *)
Definition numClusters (n : nat) : nat :=
  Nat.max minClusters (Nat.min maxClusters (n / messagesPerCluster)).

(** Line 696: [clusterCounts[l] = (clusterCounts[l] || 0) + 1]. *)
Definition count_label (clusterCounts : object nat) (l : nat) : object nat :=
  let k := key_of_label (Some l) in
  obj_set k
    match own clusterCounts k with
    | Some n => S n
    | None => 1
    end
    clusterCounts.

(** The keys under which line 696 counts the labels, in the order of the
    samples. *)
Definition label_keys (labels : list nat) : list key :=
  map (fun l => key_of_label (Some l)) labels.

(** [parseInt] of a key of [clusterLabels]. These keys are made by
    [key_of_label]: numerals, and [undefined], of which [parseInt] is NaN
    ([None]). *)
Definition parseInt (k : key) : option N :=
  match k with
  | Index n => Some n
  | Name s => if String.eqb s "" then None
              else option_map N.of_uint (NilEmpty.uint_of_string s)
  end.

(** An entry of [state.clusters]. *)
Record cluster : Type := {
  id : option N;
  label : string;
  count : nat
}.

(** Lines 695-700. *)
Definition clusters_of (clusterLabels : object string) (labels : list nat)
    : list cluster :=
  let clusterCounts := fold_left count_label labels [] in
  sort (fun a b => count a <? count b)
       (map (fun e => {| id := parseInt (fst e);
                         label := snd e;
                         count := match own clusterCounts (fst e) with
                                  | Some n => n
                                  | None => 0
                                  end |})
            clusterLabels).

(** [CONFIG.colors] (lines 33-37), and the colour of a cluster slot:
    [CONFIG.colors[cluster % CONFIG.colors.length]] (lines 861, 924, 945, 973
    and 1049). *)
Definition colors : list string :=
  ["#f472b6"; "#818cf8"; "#34d399"; "#fbbf24"; "#f87171";
   "#38bdf8"; "#a78bfa"; "#4ade80"; "#fb923c"; "#e879f9";
   "#22d3ee"; "#facc15"; "#c084fc"; "#fb7185"; "#2dd4bf"].

Definition color_of (cluster : nat) : option string :=
  nth_error colors (cluster mod length colors).


Section Stages.

Context {num : Type} {JSN : JSNumber num}.

Variable random_values : nat -> num.
Variable Math_log : num -> num.
Variable rev : revision.


End Stages.

End Pipeline.

(** ** The distance of two vectors as a real number *)

Module Distance.

Import Exact.

Local Open Scope R_scope.


End Distance.

(** ** Conversation exports (app.js 398-473) *)

(** [s.trim()]. *)
Fixpoint trimStart (s : string) : string :=
  match s with
  | EmptyString => EmptyString
  | String c s' => if is_space c then trimStart s' else s
  end.

Fixpoint trimEnd (s : string) : string :=
  match s with
  | EmptyString => EmptyString
  | String c s' =>
      match trimEnd s' with
      | EmptyString => if is_space c then EmptyString else String c EmptyString
      | t => String c t
      end
  end.

Definition trim (s : string) : string := trimEnd (trimStart s).

(** Lines 467-470: [messages.filter((_, i) => i % step === 0).slice(0, 500)]
    with [step = Math.floor(messages.length / 500)], where there are more
    than 500 messages. Lengths and indices are natural numbers. *)
Definition sample (A : Type) (messages : list A) : list A :=
  if maxMessages <? length messages then
    let step := length messages / maxMessages in
    firstn maxMessages (filter_index (fun i => i mod step =? 0) messages)
  else messages.

Module Conversations.

Local Open Scope string_scope.
Local Open Scope nat_scope.

#[local] Unset Elimination Schemes.

(** The value [JSON.parse] gives for the uploaded file. An object is the list
    of its own properties in the order of their enumeration (no key twice);
    a string is made of code units below 256. *)

Inductive json (num : Type) : Type :=
| JNull
| JBool (b : bool)
| JNum (x : num)
| JString (s : string)
| JArray (items : list (json num))
| JObject (properties : list (key * json num)).

#[local] Set Elimination Schemes.

Arguments JNull {num}.
Arguments JBool {num} b.
Arguments JNum {num} x.
Arguments JString {num} s.
Arguments JArray {num} items.
Arguments JObject {num} properties.

(** A message of [state.messages]. *)
Record message (num : Type) : Type := {
  text : string;
  source : string;
  conversation : json num;
  timestamp : json num
}.

Section Parsers.

Context {num : Type} {JSN : JSNumber num}.

(** [new Date(v).getTime()] for a value of the file, which depends on the
    date formats the browser reads: [Throws] where the conversion of [v]
    throws. *)
Variable Date_getTime : json num -> outcome num.

(** The number the operator [-] makes of a string, an array or an object:
    [Throws] where the conversion throws. *)
Variable ToNumber : json num -> outcome num.

(** A value of the program: a value of the file, or [undefined] ([None]). *)
Definition truthy (v : option (json num)) : bool :=
  match v with
  | None => false
  | Some JNull => false
  | Some (JBool b) => b
  | Some (JNum x) => lt x (lit 0) || lt (lit 0) x
  | Some (JString s) => negb (String.eqb s "")
  | Some (JArray _) => true
  | Some (JObject _) => true
  end.

(** [v || d]. *)
Definition or_else (v : option (json num)) (d : json num) : json num :=
  match v with
  | Some x => if truthy v then x else d
  | None => d
  end.

(** [v.name], for the names the code reads: none of them is [length], an
    index, or a property of a prototype. Of [null] it is a [TypeError]. *)
Definition get (v : json num) (name : string) : outcome (option (json num)) :=
  match v with
  | JNull => Throws
  | JObject properties => Returns (own properties (key_of_string name))
  | _ => Returns None
  end.

(** [v?.name]. *)
Definition get_optional (v : option (json num)) (name : string)
    : option (json num) :=
  match v with
  | Some (JObject properties) => own properties (key_of_string name)
  | _ => None
  end.

(** [v === s] for a string [s]. *)
Definition is_string (v : option (json num)) (s : string) : bool :=
  match v with
  | Some (JString t) => String.eqb t s
  | _ => false
  end.

(** The strings of one code unit each that make up [s]. *)
Definition code_units (s : string) : list (json num) :=
  map (fun c => JString (String c EmptyString)) (list_ascii_of_string s).

(** [for (const x of v)]: the elements of an array, the code units of a
    string; other values of the file are not iterable ([TypeError]). *)
Definition elements (v : json num) : outcome (list (json num)) :=
  match v with
  | JArray items => Returns items
  | JString s => Returns (code_units s)
  | _ => Throws
  end.

(** [for (const nodeId in mapping)] with [mapping[nodeId]]: the values of
    the enumerable properties, in the order of the keys. *)
Definition nodes (mapping : json num) : list (json num) :=
  match mapping with
  | JObject properties => map snd properties
  | JArray items => items
  | JString s => code_units s
  | _ => []
  end.

(** [parts.filter(p => typeof p === 'string')]. *)
Definition strings (parts : list (json num)) : list string :=
  flat_map (fun p => match p with JString s => [s] | _ => [] end) parts.

(** *** [parseChatGPTExport] (lines 398-427) *)

(** Lines 408-423, for one node of a conversation. A [contentParts] that is
    no array has no method [filter]. *)
Definition scan_node (title createTime : json num) (messages : list (message num))
    (node : json num) : outcome (list (message num)) :=
  (message <-- get node "message" ;;
   match message with
   | Some m =>
       if truthy message then
         author <-- get m "author" ;;
         if is_string (get_optional author "role") "user" then
           content <-- get m "content" ;;
           match or_else (get_optional content "parts") (JArray []) with
           | JArray contentParts =>
               let text := trim (String.concat " " (strings contentParts)) in
               if minMessageLength <=? String.length text then
                 create_time <-- get m "create_time" ;;
                 Returns ((messages ++
                          [{| text := text;
                              source := "ChatGPT";
                              conversation := title;
                              timestamp := or_else create_time createTime |}])%list)
               else Returns messages
           | _ => Throws
           end
         else Returns messages
       else Returns messages
   | None => Returns messages
   end)%js.

(** Lines 402-425, for one conversation. *)
Definition scan_conversation (messages : list (message num))
    (conversation : json num) : outcome (list (message num)) :=
  (title <-- get conversation "title" ;;
   createTime <-- get conversation "create_time" ;;
   mapping <-- get conversation "mapping" ;;
   ofold (scan_node (or_else title (JString "Untitled"))
                    (or_else createTime (JNum (lit 0))))
         (nodes (or_else mapping (JObject [])))
         messages)%js.

Definition parseChatGPTExport (data : json num) : outcome (list (message num)) :=
  let conversations := match data with
                       | JArray items => items
                       | _ => []
                       end in
  ofold scan_conversation conversations [].

(** *** [parseClaudeExport] (lines 429-452) *)

(** Lines 438-448, for one message of a conversation. A text that is no
    string has no method [trim]; line 444 catches what the conversion of the
    date throws. *)
Definition read_message (title : json num) (messages : list (message num))
    (msg : json num) : outcome (list (message num)) :=
  (sender <-- get msg "sender" ;;
   if is_string sender "human" then
     msg_text <-- get msg "text" ;;
     match or_else msg_text (JString "") with
     | JString s =>
         let text := trim s in
         if minMessageLength <=? String.length text then
           created_at <-- get msg "created_at" ;;
           let timestamp :=
             match created_at with
             | Some v =>
                 if truthy created_at then
                   match Date_getTime v with
                   | Returns t => JNum (div t (lit 1000))
                   | _ => JNum (lit 0)
                   end
                 else JNum (lit 0)
             | None => JNum (lit 0)
             end in
           Returns ((messages ++
                    [{| text := text;
                        source := "Claude";
                        conversation := title;
                        timestamp := timestamp |}])%list)
         else Returns messages
     | _ => Throws
     end
   else Returns messages)%js.

(** Lines 433-450, for one conversation. *)
Definition read_conversation (messages : list (message num))
    (conversation : json num) : outcome (list (message num)) :=
  (name <-- get conversation "name" ;;
   title <-- get conversation "title" ;;
   chat_messages <-- get conversation "chat_messages" ;;
   chatMessages <-- elements (or_else chat_messages (JArray [])) ;;
   ofold (read_message (or_else name (or_else title (JString "Untitled"))))
         chatMessages messages)%js.

Definition parseClaudeExport (data : json num) : outcome (list (message num)) :=
  (conversations <--
     match data with
     | JArray items => Returns items
     | _ => found <-- get data "conversations" ;;
            elements (or_else found (JArray []))
     end ;;
   ofold read_conversation conversations [])%js.

(** *** [parseExport] (lines 454-473) *)

(** [Array.isArray(data) && data.length > 0 && data[0].name]. *)
Definition first_has (data : json num) (name : string) : outcome bool :=
  match data with
  | JArray (first :: _) => (found <-- get first name ;; Returns (truthy found))%js
  | _ => Returns false
  end.

(** The operand [m.timestamp || 0] of line 465 as a number. *)
Definition stamp (m : message num) : outcome num :=
  match or_else (Some (timestamp m)) (JNum (lit 0)) with
  | JNum x => Returns x
  | JBool true => Returns (lit 1)
  | JBool false => Returns (lit 0)
  | JNull => Returns (lit 0)
  | v => ToNumber v
  end.

(** Line 465. The comparator is not called on fewer than two messages, and
    on two or more every message is compared at least once: the sort throws
    where the conversion of a timestamp does. *)
Definition sort_by_timestamp (messages : list (message num))
    : outcome (list (message num)) :=
  match messages with
  | [] => Returns messages
  | [_] => Returns messages
  | _ =>
      (stamps <-- omap stamp messages ;;
       Returns (map snd
                  (sort (fun a b => lt (lit 0) (sub (fst a) (fst b)))
                        (combine stamps messages))))%js
  end.

Definition parseExport (data : json num) : outcome (list (message num)) :=
  (chatgpt <-- first_has data "mapping" ;;
   messages <--
     (if chatgpt then parseChatGPTExport data
      else
        claude <-- first_has data "chat_messages" ;;
        if claude then parseClaudeExport data
        else
          from_chatgpt <-- parseChatGPTExport data ;;
          from_claude <-- parseClaudeExport data ;;
          Returns (from_chatgpt ++ from_claude)%list) ;;
   sorted <-- sort_by_timestamp messages ;;
   Returns (sample sorted))%js.

(** What the two parsers make sure of in a message: the text has no white
    space at its ends and at least 15 code units, and the source is one of
    the two names. *)
Definition parsed (m : message num) : Prop :=
  minMessageLength <= String.length (text m)
  /\ trim (text m) = text m
  /\ (source m = "ChatGPT" \/ source m = "Claude").

End Parsers.

(** The timestamp of a message as a real number, where it is a finite
    number (0 otherwise). *)
Definition seconds (m : message Exact.xreal) : R :=
  match timestamp m with
  | JNum (Exact.Fin x) => x
  | _ => 0%R
  end.

Definition timed (m : message Exact.xreal) : Prop :=
  exists x, timestamp m = JNum (Exact.Fin x).

End Conversations.

(** ** Behavioral analysis (app.js 39-56, 81-120)

    The regular expressions of the source are made of characters, groups
    with alternatives, [?] and [+] on one character, and the class [\d]; all
    of them carry the flag [i] and none the flag [g]. *)

Module Patterns.

Local Open Scope string_scope.
Local Open Scope nat_scope.

Inductive regex : Type :=
| Nothing
| Empty
| Chr (c : ascii)
| Digit
| Seq (r1 r2 : regex)
| Alt (r1 r2 : regex)
| Star (r : regex).

(** *** Reading the source of a pattern *)

(** [a?], [a+] and [a*] after an atom [a]. *)
Definition postfix (a : regex) (s : list ascii) : regex * list ascii :=
  match s with
  | "?"%char :: rest => (Alt a Empty, rest)
  | "+"%char :: rest => (Seq a (Star a), rest)
  | "*"%char :: rest => (Star a, rest)
  | _ => (a, s)
  end.

(** The characters that stand for themselves only behind a backslash. *)
Definition special (c : ascii) : bool :=
  existsb (Ascii.eqb c) (list_ascii_of_string ".[]{}^$*+?|()\/").

Fixpoint alternatives (fuel : nat) (s : list ascii) : option (regex * list ascii) :=
  match fuel with
  | O => None
  | S fuel' =>
      match sequence fuel' s Empty with
      | Some (r, "|"%char :: rest) =>
          match alternatives fuel' rest with
          | Some (r', rest') => Some (Alt r r', rest')
          | None => None
          end
      | other => other
      end
  end
with sequence (fuel : nat) (s : list ascii) (done : regex)
    : option (regex * list ascii) :=
  match fuel with
  | O => None
  | S fuel' =>
      match s with
      | [] => Some (done, s)
      | "|"%char :: _ => Some (done, s)
      | ")"%char :: _ => Some (done, s)
      | _ =>
          match atom fuel' s with
          | Some (a, rest) =>
              let (a', rest') := postfix a rest in
              sequence fuel' rest' (Seq done a')
          | None => None
          end
      end
  end
with atom (fuel : nat) (s : list ascii) : option (regex * list ascii) :=
  match fuel with
  | O => None
  | S fuel' =>
      match s with
      | "("%char :: rest =>
          match alternatives fuel' rest with
          | Some (r, ")"%char :: rest') => Some (r, rest')
          | _ => None
          end
      | "\"%char :: "d"%char :: rest => Some (Digit, rest)
      | "\"%char :: c :: rest => if special c then Some (Chr c, rest) else None
      | c :: rest => if special c then None else Some (Chr c, rest)
      | [] => None
      end
  end.

(** The pattern with the source [source] ([Nothing] for what is not read). *)
Definition regex_of (source : string) : regex :=
  match alternatives (3 * String.length source + 3) (list_ascii_of_string source) with
  | Some (r, []) => r
  | _ => Nothing
  end.

(** *** Matching *)

(** The character a pattern with the flag [i] compares: the capital of a
    letter, but the character itself where its capital is more than one
    character (223) or lies in ASCII while the character does not. The
    capitals of 181 and of 255 lie above Latin-1. *)
Definition canonicalize (c : ascii) : nat :=
  let n := code c in
  if between 97 122 n || (between 224 254 n && negb (n =? 247)) then n - 32
  else if n =? 181 then 924
  else if n =? 255 then 376
  else n.

Definition is_digit (c : ascii) : bool := between 48 57 (code c).

Fixpoint nullable (r : regex) : bool :=
  match r with
  | Nothing => false
  | Empty => true
  | Chr _ => false
  | Digit => false
  | Seq r1 r2 => nullable r1 && nullable r2
  | Alt r1 r2 => nullable r1 || nullable r2
  | Star _ => true
  end.

(** What is left of [r] to match behind the character [c]. *)
Fixpoint derivative (c : ascii) (r : regex) : regex :=
  match r with
  | Nothing => Nothing
  | Empty => Nothing
  | Chr p => if canonicalize p =? canonicalize c then Empty else Nothing
  | Digit => if is_digit c then Empty else Nothing
  | Seq r1 r2 =>
      if nullable r1
      then Alt (Seq (derivative c r1) r2) (derivative c r2)
      else Seq (derivative c r1) r2
  | Alt r1 r2 => Alt (derivative c r1) (derivative c r2)
  | Star r1 => Seq (derivative c r1) (Star r1)
  end.

(** [r] matches a string that starts where [s] starts. *)
Fixpoint matches_start (r : regex) (s : string) : bool :=
  nullable r
  || match s with
     | EmptyString => false
     | String c s' => matches_start (derivative c r) s'
     end.

(** [r.test(s)]: [r] matches somewhere in [s]. *)
Fixpoint test (r : regex) (s : string) : bool :=
  matches_start r s
  || match s with
     | EmptyString => false
     | String _ s' => test r s'
     end.

(** *** [CONFIG.questionPatterns] and [CONFIG.complexityIndicators] *)

Definition questionPatterns : list (string * string) :=
  [("How-to", "(how (do|can|should|would|to|did|does|could|might)|show me|help me|walk me through|steps to|guide|tutorial|way to|setup|install|configure|build|make|get started)");
   ("Explanation", "(what (is|are|does|was|were|do|happens|would)|explain|describe|tell me|define|meaning|understand|clarify|elaborate|overview|summary|break down|eli5|mean by)");
   ("Why", "(why (is|are|do|does|did|would|should|can|won't|doesn't|isn't|am|was|were|not)|reason|cause|purpose|motivation|because)");
   ("Debugging", "(error|bug|fix|issue|problem|doesn't work|not working|broken|fails|crash|wrong|unexpected|strange|weird|failing|throwing|exception|undefined|null|NaN|invalid|incorrect)");
   ("Creative", "(write|create|generate|come up with|brainstorm|ideas|story|poem|draft|compose|design|make me|give me|produce|invent|imagine|creative|content)");
   ("Opinion", "(should i|what do you think|is it (good|bad|worth)|recommend|best|advice|suggest|opinion|thoughts|pros and cons|better|prefer|choice|pick|choose)");
   ("Comparison", "(vs\.?|versus|difference|compare|than|which (one|is|should|would)|or should|advantages|disadvantages|alternative|instead|over)");
   ("Code Request", "(code|function|script|program|implement|algorithm|snippet|example|syntax|class|method|api|endpoint|query|regex|sql|html|css|javascript|python|java|react|typescript)")].

Definition technical : string :=
  "(api|algorithm|database|framework|architecture|deploy|config|async|recursive|optimization|server|cloud|docker|kubernetes|aws|gcp|azure|microservice|authentication|authorization|encryption|cache|queue|websocket|graphql|rest|oauth|jwt|sql|nosql)".

Definition conceptual : string :=
  "(concept|theory|principle|paradigm|methodology|approach|strategy|philosophy|pattern|design|abstraction|inheritance|polymorphism|encapsulation|dependency|injection|middleware)".

Definition specific : string :=
  "(\d+|specific|exactly|precisely|particular|this exact|in my case|for my|my project|my code|my app)".

(** The patterns of [detectIntent] (lines 112-117), in the order of the
    tests. *)
Definition intentPatterns : list (string * string) :=
  [("Problem-Solving", "fix|error|bug|debug|issue|problem|crash|broken|wrong|fails|exception");
   ("Creating", "write|create|generate|make|build|compose|draft|design|implement|develop");
   ("Improving", "review|check|improve|better|optimize|refactor|enhance|upgrade|clean");
   ("Deciding", "should|recommend|best|opinion|advice|choose|pick|decide|which|versus|vs");
   ("Exploring", "brainstorm|ideas|suggest|possibilities|alternatives|options|ways|approaches");
   ("Learning", "learn|understand|explain|what|how|why|meaning|concept|theory|define|describe")].

(** The first of the named patterns that matches, [General] without one. *)
Definition first_match (patterns : list (string * string)) (text : string)
    : string :=
  match find (fun e => test (regex_of (snd e)) text) patterns with
  | Some e => fst e
  | None => "General"
  end.

(** The number of the named patterns that are tested without a match
    before the first one that matches. *)
Fixpoint rank (patterns : list (string * string)) (text : string) : nat :=
  match patterns with
  | [] => 0
  | e :: patterns' =>
      if test (regex_of (snd e)) text then 0 else S (rank patterns' text)
  end.

(** *** [analyzeQuestionType] (lines 81-86) *)

Definition analyzeQuestionType (text : string) : string :=
  first_match questionPatterns text.

(** *** [analyzeComplexity] (lines 88-106) *)

(** [(text.match(/\?/g) || []).length]. *)
Fixpoint questionMarks (text : string) : nat :=
  match text with
  | EmptyString => 0
  | String c text' => (if Ascii.eqb c "?" then 1 else 0) + questionMarks text'
  end.

Definition score (text : string) : nat :=
  let words := split_spaces text in
  (if 50 <? length words then 2 else if 20 <? length words then 1 else 0)
  + (if test (regex_of technical) text then 2 else 0)
  + (if test (regex_of conceptual) text then 1 else 0)
  + (if test (regex_of specific) text then 1 else 0)
  + (if 1 <? questionMarks text then 1 else 0).

Definition analyzeComplexity (text : string) : nat := Nat.min (score text) 5.

(** *** [detectIntent] (lines 108-120) *)

Definition detectIntent (text : string) : string :=
  let lower := toLowerCase text in
  first_match intentPatterns lower.

End Patterns.

(** ** The dominant type of a cluster ([generateInsights], app.js 168-182) *)

Module Insights.

Local Open Scope string_scope.
Local Open Scope nat_scope.

(** [counts[name] = (counts[name] || 0) + 1] for the names of a list, in
    their order (lines 176-177, and 144-145 for all the messages). The names
    are results of [analyzeQuestionType] or [detectIntent], none of which
    names a property of [Object.prototype]. *)
Definition count_names (names : list string) : object tally :=
  fold_left bump (map key_of_string names) [].

(** [Object.entries(counts).sort((a, b) => b[1] - a[1])[0]?.[0] || 'General']
    (lines 181-182). *)
Definition dominant (counts : object tally) : string :=
  match sort more_frequent counts with
  | e :: _ =>
      if String.eqb (string_of_key (fst e)) "" then "General"
      else string_of_key (fst e)
  | [] => "General"
  end.

(** Lines 173-182, on the texts of the messages of a cluster. *)
Definition dominantQType (texts : list string) : string :=
  dominant (count_names (map Patterns.analyzeQuestionType texts)).

Definition dominantIntent (texts : list string) : string :=
  dominant (count_names (map Patterns.detectIntent texts)).

(** [d] is the most frequent of the names, and of the most frequent ones the
    one that occurs first. *)
Definition first_most_frequent (names : list string) (d : string) : Prop :=
  exists earlier later,
    LabelRule.first_encountered String.eqb names = (earlier ++ d :: later)%list
    /\ Forall (fun t => count_occ string_dec names t < count_occ string_dec names d)
              earlier
    /\ Forall (fun t => count_occ string_dec names t <= count_occ string_dec names d)
              later.

End Insights.

(** ** [state.points] ([processConversations], app.js 702-715) *)

Module Points.

Section Points.

Context {num : Type}.

(** A point of the scatter plot. [undefined] is [None]. *)
Record point : Type := {
  id : nat;
  x : option num;
  y : option num;
  cluster : option nat;
  clusterLabel : option string;
  text : string;
  source : string;
  conversation : Conversations.json num;
  timestamp : Conversations.json num;
  questionType : string;
  intent : string;
  complexity : nat
}.

(** Lines 702-715. [state.coords2d[i][0]] is read first, and throws where
    [umap] gave no position for the message. *)
Definition points_of (messages : list (Conversations.message num))
    (coords2d : list (list num)) (labels : list nat)
    (clusterLabels : object string) : outcome (list point) :=
  omap (fun im =>
          let i := fst im in
          let msg := snd im in
          (position <-- defined (nth_error coords2d i) ;;
           Returns {| id := i;
                      x := nth_error position 0;
                      y := nth_error position 1;
                      cluster := nth_error labels i;
                      clusterLabel :=
                        own clusterLabels (key_of_label (nth_error labels i));
                      text := Conversations.text msg;
                      source := Conversations.source msg;
                      conversation := Conversations.conversation msg;
                      timestamp := Conversations.timestamp msg;
                      questionType :=
                        Patterns.analyzeQuestionType (Conversations.text msg);
                      intent := Patterns.detectIntent (Conversations.text msg);
                      complexity :=
                        Patterns.analyzeComplexity (Conversations.text msg) |})%js)
       (indexed messages).

End Points.

End Points.

(** ** More sample inputs *)

Module Examples.

Import PrimFloat.

Local Open Scope string_scope.

(** Five prompts, and labels that leave the slot 3 of 4 without a prompt. *)
Definition prompts : list string :=
  ["fix my python error"; "write a poem about rain"; "python bug fix";
   "debug this python code"; "compare rain and snow"].

Definition prompt_labels : list nat := [1; 0; 1; 1; 2].


(** Lists of 1200 and of 700 messages, each message named by its position
    in the order of the timestamps. *)
Definition long_timeline : list nat := seq 0 1200.

Definition timeline : list nat := seq 0 700.

(** A ChatGPT export of one conversation with five nodes: two prompts of the
    user that are long enough (the second one without a time of its own), a
    reply, a prompt that is too short and a node without message; and the
    messages [parseExport] makes of it (binary64). The conversions of dates
    and of strings to numbers are not needed for it. *)
Definition user_node (parts : list (Conversations.json PrimFloat.float))
    (create_time : Conversations.json PrimFloat.float)
    : Conversations.json PrimFloat.float :=
  Conversations.JObject
    [(Name "message",
      Conversations.JObject
        [(Name "author",
          Conversations.JObject [(Name "role", Conversations.JString "user")]);
         (Name "content",
          Conversations.JObject [(Name "parts", Conversations.JArray parts)]);
         (Name "create_time", create_time)])].

Definition chat_export : Conversations.json PrimFloat.float :=
  Conversations.JArray
    [Conversations.JObject
       [(Name "title", Conversations.JString "Parsers");
        (Name "create_time", Conversations.JNum 5%float);
        (Name "mapping",
         Conversations.JObject
           [(Name "a",
             user_node [Conversations.JString "  how do I write a parser  ";
                        Conversations.JNum 3%float;
                        Conversations.JString "in rust?"]
                       (Conversations.JNum 9%float));
            (Name "b",
             Conversations.JObject
               [(Name "message",
                 Conversations.JObject
                   [(Name "author",
                     Conversations.JObject
                       [(Name "role", Conversations.JString "assistant")]);
                    (Name "content",
                     Conversations.JObject
                       [(Name "parts",
                         Conversations.JArray
                           [Conversations.JString "you can write it by hand"])])])]);
            (Name "c",
             user_node [Conversations.JString "too short"]
                       (Conversations.JNum 11%float));
            (Name "d",
             Conversations.JObject [(Name "message", Conversations.JNull)]);
            (Name "e",
             user_node [Conversations.JString "explain monads to me please"]
                       Conversations.JNull)])]].

Definition chat_messages : list (Conversations.message PrimFloat.float) :=
  [{| Conversations.text := "explain monads to me please";
      Conversations.source := "ChatGPT";
      Conversations.conversation := Conversations.JString "Parsers";
      Conversations.timestamp := Conversations.JNum 5%float |};
   {| Conversations.text := "how do I write a parser   in rust?";
      Conversations.source := "ChatGPT";
      Conversations.conversation := Conversations.JString "Parsers";
      Conversations.timestamp := Conversations.JNum 9%float |}].

(** A position and a label for each of the two messages. *)
Definition chat_positions : list (list PrimFloat.float) :=
  [[1%float; 2%float]; [(-3)%float; 4%float]].

Definition chat_labels : list nat := [1; 0].

Definition no_conversion (v : Conversations.json PrimFloat.float)
    : outcome PrimFloat.float :=
  Throws.

(** Three messages out of the order of their times (exact arithmetic), the
    second one without a time, and a conversion that is not needed. *)
Definition message_at (text : string) (seconds : R)
    : Conversations.message Exact.xreal :=
  {| Conversations.text := text;
     Conversations.source := "Claude";
     Conversations.conversation := Conversations.JString "Untitled";
     Conversations.timestamp := Conversations.JNum (Exact.Fin seconds) |}.

Definition unordered : list (Conversations.message Exact.xreal) :=
  [message_at "the last prompt of the three" 30;
   message_at "a prompt without a time" 0;
   message_at "the first prompt with a time" 10].

Definition exact_conversion (v : Conversations.json Exact.xreal)
    : outcome Exact.xreal :=
  Throws.

End Examples.

(** * Properties *)

(** ** Loops in the two monads *)

Lemma omap_length (A B : Type) (f : A -> outcome B) (l : list A) (bs : list B) :
  omap f l = Returns bs -> length bs = length l.
Proof.
  revert bs; induction l as [|a l IH]; simpl; intros bs H.
  - now inversion H.
  - destruct (f a) as [b| |]; simpl in H; try discriminate.
    destruct (omap f l) as [bs'| |]; simpl in H; try discriminate.
    inversion H; subst; simpl; f_equal; now apply IH.
Qed.

Lemma omap_inv (A B : Type) (P : B -> Prop) (f : A -> outcome B) (l : list A) :
  (forall a, In a l -> exists b, f a = Returns b /\ P b) ->
  exists bs, omap f l = Returns bs /\ Forall P bs.
Proof.
  induction l as [|a l IH]; simpl; intros H.
  - exists []; split; [reflexivity | constructor].
  - destruct (H a (or_introl eq_refl)) as (b & Hb & Pb).
    destruct IH as (bs & Hbs & Pbs); [intros; apply H; now right |].
    exists (b :: bs); rewrite Hb, Hbs; simpl; split; [reflexivity | now constructor].
Qed.

Lemma omap_nth (A B : Type) (f : A -> outcome B) (l : list A) (bs : list B) :
  omap f l = Returns bs ->
  forall i a, nth_error l i = Some a ->
  exists b, nth_error bs i = Some b /\ f a = Returns b.
Proof.
  revert bs; induction l as [|a0 l IH]; simpl; intros bs H i a Hi.
  - destruct i; discriminate.
  - destruct (f a0) as [b0| |] eqn:E0; simpl in H; try discriminate.
    destruct (omap f l) as [bs'| |]; simpl in H; try discriminate.
    inversion H; subst; clear H.
    destruct i as [|i]; simpl in *.
    + inversion Hi; subst; eauto.
    + eapply IH; eauto.
Qed.

Lemma ofold_inv (A B : Type) (P : B -> Prop) (f : B -> A -> outcome B) (l : list A) :
  (forall b a, P b -> In a l -> exists b', f b a = Returns b' /\ P b') ->
  forall b, P b -> exists b', ofold f l b = Returns b' /\ P b'.
Proof.
  induction l as [|a l IH]; simpl; intros H b Pb.
  - eauto.
  - destruct (H b a Pb (or_introl eq_refl)) as (b1 & Hb1 & Pb1).
    rewrite Hb1; simpl; apply IH; auto.
Qed.

Lemma mmap_inv (A B : Type) (P : B -> Prop) (f : A -> M B) (l : list A) :
  (forall a s, In a l -> exists b s', f a s = Returns (b, s') /\ P b) ->
  forall s, exists bs s', mmap f l s = Returns (bs, s') /\ Forall P bs
                          /\ length bs = length l.
Proof.
  induction l as [|a l IH]; simpl; intros H s.
  - exists [], s; repeat split; constructor.
  - destruct (H a s (or_introl eq_refl)) as (b & s1 & Hb & Pb).
    destruct (IH (fun a s Ha => H a s (or_intror Ha)) s1) as (bs & s2 & Hbs & Pbs & Hl).
    exists (b :: bs), s2; unfold bind; rewrite Hb, Hbs; simpl.
    repeat split; [now constructor | now rewrite Hl].
Qed.

Lemma mfold_inv (A B : Type) (P : B -> Prop) (f : B -> A -> M B) (l : list A) :
  (forall b a s, P b -> In a l -> exists b' s', f b a s = Returns (b', s') /\ P b') ->
  forall b s, P b -> exists b' s', mfold f l b s = Returns (b', s') /\ P b'.
Proof.
  induction l as [|a l IH]; simpl; intros H b s Pb.
  - exists b, s; split; [reflexivity | assumption].
  - destruct (H b a s Pb (or_introl eq_refl)) as (b1 & s1 & Hb1 & Pb1).
    unfold bind; rewrite Hb1; apply IH; auto.
Qed.

Lemma ofold_app (A B : Type) (f : B -> A -> outcome B) (l1 l2 : list A) (b : B) :
  ofold f (l1 ++ l2) b = obind (ofold f l1 b) (ofold f l2).
Proof.
  revert b; induction l1 as [|a l1 IH]; simpl; intros b; [reflexivity |].
  destruct (f b a); simpl; auto.
Qed.

Lemma bind_returns (A B : Type) (m : M A) (k : A -> M B) (s s1 : nat) (a : A)
    (r : outcome (B * nat)) :
  m s = Returns (a, s1) -> k a s1 = r -> bind m k s = r.
Proof. intros Hm Hk; unfold bind; now rewrite Hm. Qed.

Lemma lift_returns (A : Type) (o : outcome A) (a : A) (s : nat) :
  o = Returns a -> lift o s = Returns (a, s).
Proof. intros ->; reflexivity. Qed.

(** ** Arrays *)

Lemma indexed_length (A : Type) (l : list A) : length (indexed l) = length l.
Proof. unfold indexed; rewrite length_combine, length_seq; apply Nat.min_id. Qed.

Lemma indexed_from_nth (A : Type) (l : list A) (s i : nat) :
  nth_error (combine (seq s (length l)) l) i
  = option_map (fun a => (s + i, a)) (nth_error l i).
Proof.
  revert s i; induction l as [|a l IH]; simpl; intros s i.
  - now destruct i.
  - destruct i as [|i]; simpl.
    + now rewrite Nat.add_0_r.
    + rewrite IH; now rewrite Nat.add_succ_r.
Qed.

Lemma indexed_nth (A : Type) (l : list A) (i : nat) :
  nth_error (indexed l) i = option_map (fun a => (i, a)) (nth_error l i).
Proof. unfold indexed; now rewrite indexed_from_nth. Qed.

Lemma indexed_In (A : Type) (l : list A) (i : nat) (a : A) :
  In (i, a) (indexed l) <-> nth_error l i = Some a.
Proof.
  split.
  - intros H; apply In_nth_error in H; destruct H as [n H].
    rewrite indexed_nth in H.
    destruct (nth_error l n) eqn:E; simpl in H; inversion H; now subst.
  - intros H; apply (nth_error_In _ i); rewrite indexed_nth, H; reflexivity.
Qed.

Lemma map_snd_indexed (A : Type) (l : list A) : map snd (indexed l) = l.
Proof.
  apply nth_error_ext; intros i.
  rewrite nth_error_map, indexed_nth; now destruct (nth_error l i).
Qed.

Lemma map_fst_indexed (A : Type) (l : list A) : map fst (indexed l) = seq 0 (length l).
Proof.
  unfold indexed; generalize 0; induction l as [|a l IH]; simpl; intros s;
    [reflexivity | now rewrite IH].
Qed.

(** [every] compares the two arrays entry by entry. *)
Lemma every_same_eq (newLabels labels : list nat) :
  length newLabels = length labels ->
  every_same newLabels labels = true -> newLabels = labels.
Proof.
  unfold every_same; intros Hlen H; rewrite forallb_forall in H.
  apply nth_error_ext; intros i.
  destruct (nth_error newLabels i) as [l|] eqn:E.
  - specialize (H (i, l)); simpl in H.
    rewrite indexed_In in H; specialize (H E).
    destruct (nth_error labels i) as [l'|]; [|discriminate].
    apply Nat.eqb_eq in H; now subst.
  - symmetry; apply nth_error_None; rewrite <- Hlen; now apply nth_error_None.
Qed.

Lemma every_same_refl (labels : list nat) : every_same labels labels = true.
Proof.
  unfold every_same; apply forallb_forall; intros [i l] H; simpl.
  apply indexed_In in H; rewrite H; apply Nat.eqb_refl.
Qed.

Lemma In_firstn (A : Type) (n : nat) (l : list A) (x : A) :
  In x (firstn n l) -> In x l.
Proof.
  intros H; rewrite <- (firstn_skipn n l); apply in_or_app; now left.
Qed.

Lemma filter_none (A : Type) (f : A -> bool) (l : list A) :
  (forall x, In x l -> f x = false) -> filter f l = [].
Proof.
  induction l as [|a l IH]; simpl; intros H; [reflexivity |].
  rewrite (H a (or_introl eq_refl)); apply IH; intros; apply H; now right.
Qed.

Lemma filter_all (A : Type) (f : A -> bool) (l : list A) :
  (forall x, In x l -> f x = true) -> filter f l = l.
Proof.
  induction l as [|a l IH]; simpl; intros H; [reflexivity |].
  rewrite (H a (or_introl eq_refl)); f_equal; apply IH; intros; apply H; now right.
Qed.

Lemma filter_index_nil (A : Type) (p : nat -> bool) (l : list A) :
  (forall i, i < length l -> p i = false) -> filter_index p l = [].
Proof.
  intros H; unfold filter_index; rewrite filter_none; [reflexivity |].
  intros [i a] Hin; simpl; apply indexed_In in Hin.
  apply H, nth_error_Some; congruence.
Qed.

(** ** The Cluster Engine, for every model of the numbers *)

Section KMeansFacts.

Context {num : Type} {JSN : JSNumber num}.

Implicit Types (embeddings centroids : list (list num)) (labels : list nat).

Lemma nearest_returns (emb : list num) centroids (k : nat) :
  k <= length centroids ->
  exists c, nearest emb centroids k = Returns c /\ slot_of k c.
Proof.
  intros Hk; unfold nearest.
  destruct (@ofold_inv nat (num * nat) (fun st => slot_of k (snd st))
              (fun st c =>
                 obind (euclideanDistance_to emb centroids c)
                   (fun dist => Returns (if lt dist (fst st) then (dist, c) else st)))
              (seq 0 k)) with (b := (Infinity, 0)) as (st & Hst & Pst).
  - intros st c Pst Hc; apply in_seq in Hc.
    unfold euclideanDistance_to.
    destruct (nth_error centroids c) as [b|] eqn:E.
    + simpl; eexists; split; [reflexivity |].
      destruct (lt _ _); simpl; [right; lia | assumption].
    + apply nth_error_None in E; lia.
  - now left.
  - rewrite Hst; simpl; eauto.
Qed.

Lemma assign_returns embeddings centroids (k : nat) :
  k <= length centroids ->
  exists labels, assign embeddings centroids k = Returns labels
                 /\ length labels = length embeddings
                 /\ Forall (slot_of k) labels.
Proof.
  intros Hk; unfold assign.
  destruct (@omap_inv _ _ (slot_of k) (fun emb => nearest emb centroids k) embeddings)
    as (labels & H & P).
  - intros emb _; now apply nearest_returns.
  - exists labels; repeat split; auto; eapply omap_length; eauto.
Qed.

Lemma nth_error_replace (A : Type) (l : list A) (c c' : nat) (x : A) :
  c < length l ->
  nth_error (firstn c l ++ x :: skipn (S c) l) c'
  = if Nat.eqb c' c then Some x else nth_error l c'.
Proof.
  intros Hc.
  assert (Hf : length (firstn c l) = c) by (rewrite length_firstn; lia).
  destruct (Nat.eqb_spec c' c) as [->|Hne].
  - rewrite nth_error_app2 by lia; rewrite Hf, Nat.sub_diag; reflexivity.
  - destruct (Nat.lt_ge_cases c' c).
    + rewrite nth_error_app1 by lia; rewrite nth_error_firstn.
      destruct (Nat.ltb_spec c' c); [reflexivity | lia].
    + rewrite nth_error_app2 by lia; rewrite Hf.
      destruct (c' - c) as [|m] eqn:E; [lia |].
      change (nth_error (x :: skipn (S c) l) (S m)) with (nth_error (skipn (S c) l) m).
      rewrite nth_error_skipn; f_equal; lia.
Qed.

Lemma length_replace (A : Type) (l : list A) (c : nat) (x : A) :
  c < length l -> length (firstn c l ++ x :: skipn (S c) l) = length l.
Proof.
  intros Hc; rewrite length_app, length_firstn, length_cons, length_skipn; lia.
Qed.

(** The Update of one slot leaves every other slot as it was, and the slot
    itself too when no sample carries it. *)
Lemma update_slot_returns embeddings labels (dim : nat) centroids (c : nat) :
  c < length centroids ->
  exists centroids',
    update_slot embeddings labels dim centroids c = Returns centroids'
    /\ length centroids' = length centroids
    /\ (forall c', c' <> c -> nth_error centroids' c' = nth_error centroids c')
    /\ ((forall i, i < length embeddings -> nth_error labels i <> Some c) ->
        centroids' = centroids).
Proof.
  intros Hc; unfold update_slot.
  set (p := fun i => match nth_error labels i with
                     | Some l => Nat.eqb l c
                     | None => false
                     end).
  destruct (filter_index p embeddings) as [|pt pts] eqn:E.
  - exists centroids; repeat split; auto.
  - destruct (nth_error centroids c) as [cen|] eqn:Ec;
      [| apply nth_error_None in Ec; lia].
    eexists; split; [reflexivity |]; split; [now apply length_replace |]; split.
    + intros c' Hne; rewrite nth_error_replace by assumption.
      destruct (Nat.eqb_spec c' c); [contradiction | reflexivity].
    + intros Hempty; rewrite filter_index_nil in E; [discriminate |].
      intros i Hi; unfold p; specialize (Hempty i Hi).
      destruct (nth_error labels i) as [l|]; [| reflexivity].
      apply Nat.eqb_neq; congruence.
Qed.

Lemma update_returns embeddings labels (k dim : nat) centroids :
  k <= length centroids ->
  exists centroids',
    update embeddings labels k dim centroids = Returns centroids'
    /\ length centroids' = length centroids
    /\ (forall c, (forall i, i < length embeddings -> nth_error labels i <> Some c) ->
                  nth_error centroids' c = nth_error centroids c).
Proof.
  intros Hk; unfold update.
  destruct (@ofold_inv nat (list (list num))
              (fun cs => length cs = length centroids
                         /\ forall c, (forall i, i < length embeddings ->
                                                 nth_error labels i <> Some c) ->
                                      nth_error cs c = nth_error centroids c)
              (update_slot embeddings labels dim) (seq 0 k)) with (b := centroids)
    as (cs & Hcs & Hlen & Hframe).
  - intros cs c [Hlen Hframe] Hc; apply in_seq in Hc.
    destruct (@update_slot_returns embeddings labels dim cs c) as (cs' & H1 & H2 & H3 & H4);
      [lia |].
    exists cs'; split; [assumption |]; split; [congruence |].
    intros c0 Hempty; destruct (Nat.eq_dec c0 c) as [->|Hne].
    + rewrite (H4 Hempty); now apply Hframe.
    + rewrite (H3 c0 Hne); now apply Hframe.
  - split; auto.
  - exists cs; auto.
Qed.

(** The loop of lines 594-614 always returns. It leaves after the first pass
    whose Assign changes nothing, or after [remaining] passes: [t] counts the
    passes that went on to the Update. *)
Lemma iterate_spec embeddings (k dim : nat) :
  forall (remaining : nat) labels centroids (passes : nat),
    k <= length centroids ->
    length labels = length embeddings ->
    exists (t : nat) (st : list nat * list (list num)) (run : kmeans_run),
      iterate remaining embeddings k dim labels centroids passes = Returns run
      /\ after_passes t embeddings k dim (labels, centroids) = Returns st
      /\ run_labels run = fst st
      /\ run_centroids run = snd st
      /\ length (fst st) = length embeddings
      /\ length (snd st) = length centroids
      /\ (Forall (slot_of k) labels -> Forall (slot_of k) (fst st))
      /\ (forall t' st', t' < t ->
            after_passes t' embeddings k dim (labels, centroids) = Returns st' ->
            ~ settled embeddings k st')
      /\ (t < remaining /\ settled embeddings k st /\ run_exit run = Converged
            /\ run_passes run = passes + t + 1
          \/ t = remaining /\ run_exit run = Exhausted
             /\ run_passes run = passes + remaining).
Proof.
  induction remaining as [|remaining IH]; intros labels centroids passes Hk Hlen.
  - exists 0, (labels, centroids); eexists; simpl.
    repeat split; auto; try reflexivity; try lia.
  - destruct (@assign_returns embeddings centroids k Hk) as (newLabels & Ha & Hn & Hslots).
    simpl; rewrite Ha; simpl.
    destruct (every_same newLabels labels) eqn:Esame.
    + apply every_same_eq in Esame; [| congruence]; subst newLabels.
      exists 0, (labels, centroids); eexists; simpl.
      repeat split; auto; try reflexivity; try lia.
      left; simpl; repeat split; try lia; exact Ha.
    + destruct (@update_returns embeddings newLabels k dim centroids Hk)
        as (centroids' & Hu & Hlen' & _).
      rewrite Hu; simpl.
      destruct (IH newLabels centroids' (S passes)) as
        (t & st & run & Hrun & Hafter & Hl & Hc & Hl1 & Hl2 & Hsl & Hnot & Hexit);
        [lia | assumption |].
      exists (S t), st, run; simpl; unfold pass; simpl; rewrite Ha; simpl; rewrite Hu; simpl.
      repeat split; auto; try congruence.
      * intros [|t'] st' Ht' Hst'; simpl in Hst'.
        -- inversion Hst'; subst; unfold settled; simpl; intros Hset.
           rewrite Ha in Hset; inversion Hset; subst.
           rewrite every_same_refl in Esame; discriminate.
        -- unfold pass in Hst'; simpl in Hst'; rewrite Ha in Hst'; simpl in Hst'.
           rewrite Hu in Hst'; simpl in Hst'.
           apply (Hnot t' st'); [lia | assumption].
      * destruct Hexit as [(H1 & H2 & H3 & H4)|(H1 & H2 & H3)];
          [left | right]; repeat split; auto; lia.
Qed.

(** What a call of [kmeans] that returns has gone through. *)
Lemma kmeans_full_inv (random_values : nat -> num) (fuel : nat) embeddings
    (k maxIterations s s' : nat) (run : kmeans_run) :
  kmeans_full random_values fuel embeddings k maxIterations s = Returns (run, s') ->
  exists (e0 first : list num) (idx : nat) centroids,
    nth_error embeddings 0 = Some e0
    /\ Math_floor_index (mul (random_values s) (of_nat (length embeddings))) = Some idx
    /\ nth_error embeddings idx = Some first
    /\ seeding random_values fuel embeddings k [first] [idx] (S s)
       = Returns (centroids, s')
    /\ iterate maxIterations embeddings k (length e0)
         (repeat 0 (length embeddings)) centroids 0 = Returns run.
Proof.
  unfold kmeans_full, bind, lift, Math_random; intros H.
  destruct (nth_error embeddings 0) as [e0|]; simpl in H; [| discriminate].
  destruct (Math_floor_index _) as [idx|] eqn:Eidx; [| discriminate].
  destruct (nth_error embeddings idx) as [first|] eqn:Ef; simpl in H; [| discriminate].
  destruct (seeding _ _ _ _ _ _ _) as [[centroids s1]| |] eqn:Es; try discriminate.
  destruct (iterate _ _ _ _ _ _ _) as [run'| |] eqn:Ei; simpl in H; try discriminate.
  inversion H; subst.
  exists e0, first, idx, centroids; auto.
Qed.

(** The seeding loop is left only with [k] centroids or more. *)
Lemma seeding_enough (random_values : nat -> num) embeddings (k : nat) :
  forall (fuel : nat) centroids (usedIndices : list nat) (s s' : nat) centroids',
    seeding random_values fuel embeddings k centroids usedIndices s
    = Returns (centroids', s') ->
    k <= length centroids'.
Proof.
  induction fuel as [|fuel IH]; intros centroids used s s' centroids' H; simpl in H.
  - destruct (Nat.ltb_spec (length centroids) k); [discriminate |].
    inversion H; subst; assumption.
  - destruct (Nat.ltb_spec (length centroids) k).
    + unfold bind, Math_random, lift in H.
      destruct (pick _ _ _) as [i|].
      * destruct (nth_error embeddings i) as [e|]; simpl in H; [| discriminate].
        eapply IH; eauto.
      * eapply IH; eauto.
    + inversion H; subst; assumption.
Qed.

(** A call of [kmeans] that returns has run the loop of lines 594-614 from
    the all-zero labels and [k] centroids or more. *)
Lemma kmeans_full_iterate (random_values : nat -> num) (fuel : nat) embeddings
    (k maxIterations s s' : nat) (run : kmeans_run) :
  kmeans_full random_values fuel embeddings k maxIterations s = Returns (run, s') ->
  exists (dim : nat) centroids,
    k <= length centroids
    /\ iterate maxIterations embeddings k dim (repeat 0 (length embeddings))
         centroids 0 = Returns run.
Proof.
  intros H; apply kmeans_full_inv in H.
  destruct H as (e0 & first & idx & centroids & _ & _ & _ & Hs & Hi).
  exists (length e0), centroids; split; [| assumption].
  eapply seeding_enough; eauto.
Qed.

End KMeansFacts.

(** ** The Cluster Engine: claims that hold for every model of the numbers *)

(** C2. When [kmeans] leaves its loop through the [break] of line 604 (an
    Assign pass gave the labels of the pass before), the labels it returns are
    a fixed point of Assign: the Assign pass of lines 595-602, run against the
    final centroids, returns exactly those labels. *)
Theorem kmeans_converged_fixed_point (num : Type) (JSN : JSNumber num)
    (random_values : nat -> num) (fuel : nat) (embeddings : list (list num))
    (k maxIterations s s' : nat) (run : kmeans_run) :
  kmeans_full random_values fuel embeddings k maxIterations s = Returns (run, s') ->
  run_exit run = Converged ->
  kmeans random_values fuel embeddings k maxIterations s
  = Returns (run_labels run, s')
  /\ assign embeddings (run_centroids run) k = Returns (run_labels run).
Proof.
  intros Hfull Hexit; split.
  - unfold kmeans, bind; rewrite Hfull; reflexivity.
  - apply kmeans_full_iterate in Hfull.
    destruct Hfull as (dim & centroids & Hk & Hrun).
    destruct (@iterate_spec _ _ embeddings k dim maxIterations
                (repeat 0 (length embeddings)) centroids 0 Hk (repeat_length _ _))
      as (t & st & run' & Hrun' & _ & Hl & Hc & _ & _ & _ & _ & Hout).
    rewrite Hrun in Hrun'; inversion Hrun'; subst run'.
    destruct Hout as [(_ & Hset & _)|(_ & Hex & _)]; [| congruence].
    unfold settled in Hset; now rewrite Hl, Hc.
Qed.

Lemma kmeans_converged_fixed_point_witness :
  assign (JSN := Float64.float_number) Samples.embeddings
         (run_centroids Samples.run) 2
  = Returns (run_labels Samples.run).
Proof.
  apply (@kmeans_converged_fixed_point _ Float64.float_number Samples.random_values 5
           Samples.embeddings 2 50 0 2 Samples.run).
  - vm_compute; reflexivity.
  - reflexivity.
Defined.

(** C5. In an Update pass a cluster slot that no sample carries keeps its
    centroid as it was, and the loop goes on from there without throwing, to
    return within the passes it has left. *)
Theorem update_keeps_empty_slot (num : Type) (JSN : JSNumber num)
    (embeddings : list (list num)) (labels : list nat) (k dim : nat)
    (centroids : list (list num)) (c remaining passes : nat) :
  k <= length centroids ->
  length labels = length embeddings ->
  (forall i, i < length embeddings -> nth_error labels i <> Some c) ->
  exists centroids',
    update embeddings labels k dim centroids = Returns centroids'
    /\ nth_error centroids' c = nth_error centroids c
    /\ exists run,
         iterate remaining embeddings k dim labels centroids' passes = Returns run
         /\ run_passes run <= passes + remaining.
Proof.
  intros Hk Hlen Hempty.
  destruct (@update_returns _ _ embeddings labels k dim centroids Hk)
    as (centroids' & Hu & Hlen' & Hframe).
  exists centroids'; split; [assumption |]; split; [now apply Hframe |].
  destruct (@iterate_spec _ _ embeddings k dim remaining labels centroids' passes)
    as (t & st & run & Hrun & _ & _ & _ & _ & _ & _ & _ & Hout); [lia | assumption |].
  exists run; split; [assumption |].
  destruct Hout as [(Ht & _ & _ & Hp)|(_ & _ & Hp)]; lia.
Qed.

Lemma update_keeps_empty_slot_witness :
  exists centroids',
    update (JSN := Float64.float_number) Samples.starved_embeddings
           Samples.starved_labels 3 1 Samples.starved_embeddings
    = Returns centroids'
    /\ nth_error centroids' 1 = nth_error Samples.starved_embeddings 1
    /\ exists run,
         iterate 49 Samples.starved_embeddings 3 1 Samples.starved_labels
                 centroids' 1 = Returns run
         /\ run_passes run <= 1 + 49.
Proof.
  apply (@update_keeps_empty_slot _ Float64.float_number).
  - simpl; lia.
  - reflexivity.
  - intros i Hi; simpl in Hi.
    destruct i as [|[|[|i]]]; simpl; try discriminate; lia.
Defined.

(** ** Exact arithmetic *)

Module ExactFacts.

Import Exact.
Local Open Scope R_scope.

Lemma Rltb_true (x y : R) : Rltb x y = true <-> x < y.
Proof. unfold Rltb; destruct (Rlt_dec x y); split; intros; auto; discriminate || lra. Qed.

Lemma Rltb_false (x y : R) : Rltb x y = false <-> y <= x.
Proof. unfold Rltb; destruct (Rlt_dec x y); split; intros; auto; discriminate || lra. Qed.


Lemma Rleb_false (x y : R) : Rleb x y = false <-> y < x.
Proof. unfold Rleb; destruct (Rle_dec x y); split; intros; auto; discriminate || lra. Qed.

Lemma Reqb_true (x y : R) : Reqb x y = true <-> x = y.
Proof. unfold Reqb; destruct (Req_dec_T x y); split; intros; auto; discriminate || lra. Qed.

Lemma Reqb_false (x y : R) : Reqb x y = false <-> x <> y.
Proof. unfold Reqb; destruct (Req_dec_T x y); split; intros; auto; discriminate || contradiction. Qed.

Lemma Q2R_inject_Z (z : Z) : Q2R (inject_Z z) = IZR z.
Proof. unfold Q2R, inject_Z; simpl; lra. Qed.

Lemma Q2R_zero : Q2R 0 = 0.
Proof. apply (Q2R_inject_Z 0). Qed.

Lemma lit_0 : lit 0 = Fin 0.
Proof. simpl; f_equal; apply Q2R_zero. Qed.

Lemma of_nat_INR (n : nat) : of_nat n = Fin (INR n).
Proof. unfold of_nat; simpl; now rewrite Q2R_inject_Z, INR_IZR_INZ. Qed.

Lemma finite_Fin (a : xreal) : finite a -> exists x, a = Fin x.
Proof. destruct a; simpl; intros H; try contradiction; eauto. Qed.

Lemma nonneg_Fin (a : xreal) : nonneg a -> exists x, a = Fin x /\ 0 <= x.
Proof. destruct a; simpl; intros H; try contradiction; eauto. Qed.

Lemma num_at_finite (a : list xreal) (i : nat) :
  Forall finite a -> (i < length a)%nat -> exists x, num_at a i = Fin x.
Proof.
  intros Ha Hi; unfold num_at.
  destruct (nth_error a i) as [v|] eqn:E; [| apply nth_error_None in E; lia].
  apply finite_Fin; rewrite Forall_forall in Ha; eapply Ha, nth_error_In; eauto.
Qed.

(** The sum of squares of lines 620-621, over indices that both vectors have. *)
Lemma squares_nonneg (a b : list xreal) (indices : list nat) :
  Forall finite a -> Forall finite b ->
  (forall i, In i indices -> (i < length a)%nat /\ (i < length b)%nat) ->
  forall acc, nonneg acc ->
  nonneg (fold_left (fun sum i => add sum (Math_pow2 (sub (num_at a i) (num_at b i))))
                    indices acc).
Proof.
  intros Ha Hb; induction indices as [|i l IH]; simpl; intros Hin acc Hacc; [assumption |].
  apply IH; [intros; apply Hin; now right |].
  destruct (Hin i (or_introl eq_refl)) as [Hia Hib].
  destruct (num_at_finite Ha Hia) as [x ->], (num_at_finite Hb Hib) as [y ->].
  apply nonneg_Fin in Hacc; destruct Hacc as (z & -> & Hz); simpl.
  pose proof (Rle_0_sqr (x + - y)) as Hsq; unfold Rsqr in Hsq; lra.
Qed.

Lemma sqrt_nonneg (a : xreal) : nonneg a -> nonneg (xsqrt a).
Proof.
  intros H; apply nonneg_Fin in H; destruct H as (x & -> & Hx); simpl.
  destruct (Rltb x 0) eqn:E; [apply Rltb_true in E; lra | simpl; apply sqrt_pos].
Qed.

Lemma euclideanDistance_nonneg (dim : nat) (a b : list xreal) :
  vector dim a -> vector dim b -> nonneg (euclideanDistance a b).
Proof.
  intros [La Fa] [Lb Fb]; unfold euclideanDistance.
  apply sqrt_nonneg, squares_nonneg; auto.
  - intros i Hi; apply in_seq in Hi; lia.
  - rewrite lit_0; simpl; lra.
Qed.






(** An index drawn as [Math.floor(Math.random() * n)] is below [n]. *)
Lemma random_index (u : xreal) (n : nat) :
  unit_interval u -> (1 <= n)%nat ->
  exists idx, Math_floor_index (mul u (of_nat n)) = Some idx /\ (idx < n)%nat.
Proof.
  intros Hu Hn; destruct u as [x| | |]; simpl in Hu; try contradiction.
  rewrite of_nat_INR; simpl.
  assert (Hn' : 1 <= INR n) by (change 1 with (INR 1); now apply le_INR).
  assert (H0 : 0 <= x * INR n) by (apply Rmult_le_pos; lra).
  assert (H1 : x * INR n < INR n).
  { rewrite <- (Rmult_1_l (INR n)) at 2; apply Rmult_lt_compat_r; lra. }
  destruct (Rleb 0 (x * INR n)) eqn:E; [| apply Rleb_false in E; lra].
  eexists; split; [reflexivity |].
  destruct (base_Int_part (x * INR n)) as [Hlo Hhi].
  assert (Hz0 : (0 <= Int_part (x * INR n))%Z).
  { apply Z.lt_succ_r, lt_IZR; rewrite succ_IZR; lra. }
  assert (Hzn : (Int_part (x * INR n) < Z.of_nat n)%Z).
  { apply lt_IZR; rewrite <- INR_IZR_INZ; lra. }
  lia.
Qed.

Section Runs.

Variable random_values : nat -> xreal.
Hypothesis random_unit : forall s, unit_interval (random_values s).
Variable dim : nat.
Variable embeddings : list (list xreal).
Hypothesis embeddings_valid : Forall (vector dim) embeddings.
Hypothesis embeddings_nonempty : (1 <= length embeddings)%nat.



End Runs.

End ExactFacts.

(** ** The Cluster Engine over exact arithmetic *)

Module ClusterEngine.

Import Exact ExactFacts.

(** The Assign pass of lines 595-602 on one sample, when its distances to
    the [k] centroids are the finite numbers [dists 0 .. dists (k-1)]: the
    slot returned is the nearest centroid, the lowest slot among the nearest
    ones. *)
Lemma nearest_lowest_argmin (emb : list xreal) (centroids : list (list xreal))
    (k : nat) (dists : nat -> R) :
  (forall c, c < k ->
             exists b, nth_error centroids c = Some b
                       /\ euclideanDistance emb b = Fin (dists c)) ->
  1 <= k ->
  exists c,
    nearest emb centroids k = Returns c
    /\ c < k
    /\ (forall c', c' < k -> (dists c <= dists c')%R)
    /\ (forall c', c' < c -> (dists c < dists c')%R).
Proof.
  intros Hd Hk.
  assert (G : forall m, m <= k ->
             exists st,
               ofold (fun (st : xreal * nat) c =>
                        obind (euclideanDistance_to emb centroids c)
                          (fun dist =>
                             Returns (if lt dist (fst st) then (dist, c) else st)))
                     (seq 0 m) (Infinity, 0) = Returns st
               /\ (m = 0 /\ st = (PInf, 0)
                   \/ 0 < m /\ snd st < m /\ fst st = Fin (dists (snd st))
                      /\ (forall c', c' < m -> (dists (snd st) <= dists c')%R)
                      /\ (forall c', c' < snd st -> (dists (snd st) < dists c')%R))).
  { induction m as [|m IH]; intros Hm.
    - exists (PInf, 0); split; [reflexivity | now left].
    - destruct IH as (st & Hst & Inv); [lia |].
      rewrite seq_S, ofold_app, Hst, Nat.add_0_l; cbn [obind ofold].
      destruct (Hd m ltac:(lia)) as (b & Hb & Eb).
      unfold euclideanDistance_to; rewrite Hb; cbn [obind]; rewrite Eb.
      destruct Inv as [(-> & ->)|(Hpos & Hi & Hf & Hmin & Hlow)].
      + simpl; eexists; split; [reflexivity |]; right; simpl.
        repeat split; try lia;
          try (intros c' Hc'; replace c' with 0 by lia; apply Rle_refl).
      + destruct st as [dmin i]; simpl in *; subst dmin; simpl.
        destruct (Rltb (dists m) (dists i)) eqn:E.
        * apply Rltb_true in E.
          eexists; split; [reflexivity |]; right; simpl.
          repeat split; try lia.
          -- intros c' Hc'; destruct (Nat.eq_dec c' m) as [->|Hne];
               [apply Rle_refl |].
             specialize (Hmin c' ltac:(lia)); lra.
          -- intros c' Hc'; specialize (Hmin c' Hc'); lra.
        * apply Rltb_false in E.
          eexists; split; [reflexivity |]; right; simpl.
          repeat split; try lia; try assumption.
          intros c' Hc'; destruct (Nat.eq_dec c' m) as [->|Hne]; [assumption |].
          apply Hmin; lia. }
  destruct (G k (Nat.le_refl k)) as (st & Hst & Inv).
  destruct Inv as [(-> & _)|(_ & Hi & _ & Hmin & Hlow)]; [lia |].
  exists (snd st); unfold nearest; rewrite Hst; simpl; auto.
Qed.

Lemma Forall_firstn (A : Type) (P : A -> Prop) (n : nat) (l : list A) :
  Forall P l -> Forall P (firstn n l).
Proof.
  intros H; apply Forall_forall; intros x Hx; apply In_firstn in Hx.
  rewrite Forall_forall in H; now apply H.
Qed.

Lemma Forall_skipn (A : Type) (P : A -> Prop) (n : nat) (l : list A) :
  Forall P l -> Forall P (skipn n l).
Proof.
  intros H; apply Forall_forall; intros x Hx.
  assert (In x l) by (rewrite <- (firstn_skipn n l); apply in_or_app; now right).
  rewrite Forall_forall in H; now apply H.
Qed.

Lemma array_set_vector (dim d : nat) (cen : list xreal) (v : xreal) :
  vector dim cen -> d < dim -> finite v -> vector dim (array_set cen d v).
Proof.
  intros [Hl Hf] Hd Hv; unfold array_set.
  destruct (Nat.ltb_spec d (length cen)); [| lia].
  split; [rewrite length_replace; lia |].
  apply Forall_app; split; [now apply Forall_firstn |].
  constructor; [assumption | now apply Forall_skipn].
Qed.

(** The mean of line 611 over samples of dimension [dim] is finite. *)
Lemma mean_finite (dim d : nat) (clusterPoints : list (list xreal)) :
  Forall (vector dim) clusterPoints -> clusterPoints <> [] -> d < dim ->
  finite (div (fold_left (fun sum p => add sum (num_at p d)) clusterPoints (lit 0))
              (of_nat (length clusterPoints))).
Proof.
  intros Hv Hne Hd.
  assert (G : forall pts acc, Forall (vector dim) pts -> finite acc ->
                              finite (fold_left (fun sum p => add sum (num_at p d))
                                                pts acc)).
  { induction pts as [|p pts IH]; simpl; intros acc Hp Ha; [assumption |].
    inversion Hp as [|? ? [Hl Hf] Hp']; subst; apply IH; [assumption |].
    destruct (@num_at_finite p d Hf ltac:(lia)) as [x ->].
    apply finite_Fin in Ha; destruct Ha as [a ->]; exact I. }
  specialize (G clusterPoints (lit 0) Hv I).
  apply finite_Fin in G; destruct G as [x ->].
  rewrite of_nat_INR; simpl.
  destruct (Reqb (INR (length clusterPoints)) 0) eqn:E; [| exact I].
  apply Reqb_true in E; apply INR_eq with (m := 0) in E.
  destruct clusterPoints; [congruence | discriminate].
Qed.

Lemma mean_into_vector (dim : nat) (centroid : list xreal)
    (clusterPoints : list (list xreal)) :
  vector dim centroid -> Forall (vector dim) clusterPoints -> clusterPoints <> [] ->
  vector dim (mean_into centroid clusterPoints dim).
Proof.
  intros Hc Hv Hne; unfold mean_into.
  assert (G : forall ds cen, (forall d, In d ds -> d < dim) -> vector dim cen ->
             vector dim
               (fold_left (fun cen d =>
                             array_set cen d
                               (div (fold_left (fun sum p => add sum (num_at p d))
                                               clusterPoints (lit 0))
                                    (of_nat (length clusterPoints))))
                          ds cen)).
  { induction ds as [|d ds IH]; simpl; intros cen Hds Hcen; [assumption |].
    apply IH; [intros; apply Hds; now right |].
    apply array_set_vector; [assumption | apply Hds; now left |].
    apply (@mean_finite dim); auto; apply Hds; now left. }
  apply G; [| assumption].
  intros d Hd; apply in_seq in Hd; lia.
Qed.

Lemma Forall_filter_index (A : Type) (P : A -> Prop) (p : nat -> bool) (l : list A) :
  Forall P l -> Forall P (filter_index p l).
Proof.
  intros H; apply Forall_forall; intros a Ha.
  unfold filter_index in Ha; apply in_map_iff in Ha.
  destruct Ha as ([i b] & <- & Hin); apply filter_In in Hin.
  destruct Hin as [Hin _]; apply indexed_In, nth_error_In in Hin.
  rewrite Forall_forall in H; now apply H.
Qed.

(** The Update pass keeps centroids of dimension [dim] with finite
    coordinates. *)
Lemma update_vectors (dim : nat) (embeddings : list (list xreal)) (labels : list nat)
    (k : nat) (centroids centroids' : list (list xreal)) :
  Forall (vector dim) embeddings -> Forall (vector dim) centroids ->
  update embeddings labels k dim centroids = Returns centroids' ->
  Forall (vector dim) centroids'.
Proof.
  intros He; unfold update; generalize (seq 0 k); intros slots.
  revert centroids; induction slots as [|c slots IH]; simpl; intros centroids Hc H.
  - now inversion H; subst.
  - destruct (update_slot embeddings labels dim centroids c) as [cs| |] eqn:E;
      simpl in H; try discriminate.
    apply (IH cs); [| assumption].
    unfold update_slot in E.
    destruct (filter_index _ embeddings) as [|pt pts] eqn:Ef;
      [inversion E; now subst |].
    destruct (nth_error centroids c) as [cen|] eqn:Ec.
    + inversion E; subst; apply Forall_app; split; [now apply Forall_firstn |].
      constructor; [| exact (Forall_skipn (S c) Hc)].
      apply mean_into_vector.
      * rewrite Forall_forall in Hc; eapply Hc, nth_error_In; eauto.
      * rewrite <- Ef; now apply Forall_filter_index.
      * discriminate.
    + destruct dim; inversion E; now subst.
Qed.

Lemma iterate_vectors (dim : nat) (embeddings : list (list xreal)) (k : nat) :
  Forall (vector dim) embeddings ->
  forall (remaining : nat) (labels : list nat) (centroids : list (list xreal))
         (passes : nat) (run : kmeans_run),
    Forall (vector dim) centroids ->
    iterate remaining embeddings k dim labels centroids passes = Returns run ->
    Forall (vector dim) (run_centroids run).
Proof.
  intros He; induction remaining as [|remaining IH];
    intros labels centroids passes run Hc H; simpl in H.
  - now inversion H; subst.
  - destruct (assign embeddings centroids k) as [newLabels| |]; simpl in H;
      try discriminate.
    destruct (every_same newLabels labels); [now inversion H; subst |].
    destruct (update embeddings newLabels k dim centroids) as [cs| |] eqn:E;
      simpl in H; try discriminate.
    apply (IH _ _ _ _ (@update_vectors dim embeddings newLabels k centroids cs
                          He Hc E) H).
Qed.

Lemma seeding_vectors (random_values : nat -> xreal) (dim : nat)
    (embeddings : list (list xreal)) (k : nat) :
  Forall (vector dim) embeddings ->
  forall (fuel : nat) (centroids : list (list xreal)) (usedIndices : list nat)
         (s s' : nat) (centroids' : list (list xreal)),
    Forall (vector dim) centroids ->
    seeding random_values fuel embeddings k centroids usedIndices s
    = Returns (centroids', s') ->
    Forall (vector dim) centroids'.
Proof.
  intros He; induction fuel as [|fuel IH];
    intros centroids used s s' centroids' Hc H; simpl in H.
  - destruct (Nat.ltb (length centroids) k); [discriminate |].
    now inversion H; subst.
  - destruct (Nat.ltb (length centroids) k); [| now inversion H; subst].
    unfold bind, Math_random, lift in H.
    destruct (pick _ _ _) as [i|]; [| eapply IH; eauto].
    destruct (nth_error embeddings i) as [e|] eqn:Ee; simpl in H; [| discriminate].
    eapply IH; [| exact H].
    apply Forall_app; split; [assumption |].
    constructor; [| constructor].
    rewrite Forall_forall in He; eapply He, nth_error_In; eauto.
Qed.

(** A run of [kmeans] on embeddings of a common dimension that ends by
    convergence returns, for every sample, the slot of the centroid nearest
    to it among the final centroids, the lowest such slot. *)
Lemma kmeans_converged_nearest (random_values : nat -> xreal) (dim : nat)
    (embeddings : list (list xreal)) (k maxIterations fuel s s' : nat)
    (run : kmeans_run) :
  Forall (vector dim) embeddings ->
  1 <= k ->
  kmeans_full random_values fuel embeddings k maxIterations s = Returns (run, s') ->
  run_exit run = Converged ->
  forall i emb,
    nth_error embeddings i = Some emb ->
    exists c,
      nth_error (run_labels run) i = Some c
      /\ c < k
      /\ (forall c', c' < k ->
             (value (euclideanDistance emb (nth c (run_centroids run) []))
              <= value (euclideanDistance emb (nth c' (run_centroids run) [])))%R)
      /\ (forall c', c' < c ->
             (value (euclideanDistance emb (nth c (run_centroids run) []))
              < value (euclideanDistance emb (nth c' (run_centroids run) [])))%R).
Proof.
  intros He Hk Hfull Hexit i emb Hemb.
  pose proof Hfull as Hinv; apply kmeans_full_inv in Hinv.
  destruct Hinv as (e0 & first & idx & centroids & He0 & _ & Hfirst & Hseed & Hit).
  assert (Hdim : length e0 = dim).
  { rewrite Forall_forall in He; eapply He, nth_error_In; eauto. }
  assert (Hc0 : Forall (vector dim) centroids).
  { eapply seeding_vectors; [exact He | | exact Hseed].
    constructor; [| constructor].
    rewrite Forall_forall in He; eapply He, nth_error_In; eauto. }
  rewrite Hdim in Hit.
  pose proof (@iterate_vectors dim embeddings k He _ _ _ _ _ Hc0 Hit) as Hfinal.
  destruct (@iterate_spec _ _ embeddings k dim maxIterations
              (repeat 0 (length embeddings)) centroids 0)
    as (t & st & run' & Hrun' & _ & Hls & Hcs & _ & Hl & _ & _ & Hout);
    [eapply seeding_enough; eauto | apply repeat_length |].
  rewrite Hit in Hrun'; inversion Hrun'; subst run'; clear Hrun'.
  assert (Hlen : k <= length (run_centroids run))
    by (rewrite Hcs, Hl; eapply seeding_enough; eauto).
  assert (Hassign : assign embeddings (run_centroids run) k
                    = Returns (run_labels run)).
  { destruct Hout as [(_ & Hset & _)|(_ & Hex & _)]; [| congruence].
    unfold settled in Hset; now rewrite Hls, Hcs. }
  destruct (omap_nth _ _ Hassign i Hemb) as (c & Hc & Hnear).
  destruct (@nearest_lowest_argmin emb (run_centroids run) k
              (fun c => value (euclideanDistance emb (nth c (run_centroids run) []))))
    as (c0 & Hc0' & Hlt & Hmin & Hlow); [| assumption |].
  - intros c1 Hc1.
    destruct (nth_error (run_centroids run) c1) as [b|] eqn:Eb;
      [| apply nth_error_None in Eb; lia].
    exists b; split; [reflexivity |].
    rewrite (nth_error_nth _ _ _ Eb).
    assert (Hb : vector dim b)
      by (rewrite Forall_forall in Hfinal; eapply Hfinal, nth_error_In; eauto).
    assert (Hv : vector dim emb)
      by (rewrite Forall_forall in He; eapply He, nth_error_In; eauto).
    pose proof (euclideanDistance_nonneg Hv Hb) as Hnn.
    apply nonneg_Fin in Hnn; destruct Hnn as (x & -> & _); reflexivity.
  - rewrite Hnear in Hc0'; inversion Hc0'; subst c0.
    exists c; auto.
Qed.







End ClusterEngine.

(** ** Sorting *)

Section SortFacts.

Variable A : Type.
Variable positive_compare : A -> A -> bool.

Lemma insert_perm (x : A) (l : list A) :
  Permutation (insert positive_compare x l) (x :: l).
Proof.
  induction l as [|y l IH]; simpl; [reflexivity |].
  destruct (positive_compare x y); [| reflexivity].
  rewrite IH; apply perm_swap.
Qed.

Lemma sort_perm (l : list A) : Permutation (sort positive_compare l) l.
Proof.
  induction l as [|x l IH]; simpl; [reflexivity |].
  rewrite insert_perm; now constructor.
Qed.


Lemma sort_In (l : list A) (x : A) : In x (sort positive_compare l) <-> In x l.
Proof.
  split; apply Permutation_in; [apply sort_perm | apply Permutation_sym, sort_perm].
Qed.

(** The comparator is consistent with an order [ordered] on the elements
    that satisfy [P]. *)
Variable P : A -> Prop.
Variable ordered : A -> A -> Prop.
Hypothesis positive_after : forall x y,
  P x -> P y -> positive_compare x y = true -> ordered y x.
Hypothesis other_before : forall x y,
  P x -> P y -> positive_compare x y = false -> ordered x y.

Lemma insert_HdRel (y x : A) (l : list A) :
  ordered y x -> HdRel ordered y l -> HdRel ordered y (insert positive_compare x l).
Proof.
  intros Hyx Hl; destruct l as [|z l]; simpl; [now constructor |].
  destruct (positive_compare x z); constructor; [now inversion Hl | assumption].
Qed.

Lemma insert_sorted (x : A) (l : list A) :
  P x -> Forall P l -> Sorted ordered l ->
  Sorted ordered (insert positive_compare x l).
Proof.
  intros Px; induction l as [|y l IH]; simpl; intros Pl Hs.
  - repeat constructor.
  - inversion Pl as [|? ? Py Pl']; subst; inversion Hs as [|? ? Hs' Hd]; subst.
    destruct (positive_compare x y) eqn:E.
    + constructor; [now apply IH |].
      apply insert_HdRel; [now apply positive_after | assumption].
    + constructor; [assumption | constructor; now apply other_before].
Qed.

Lemma sort_sorted (l : list A) :
  Forall P l -> Sorted ordered (sort positive_compare l).
Proof.
  induction l as [|x l IH]; intros Pl; [constructor |].
  change (sort positive_compare (x :: l))
    with (insert positive_compare x (sort positive_compare l)).
  inversion Pl as [|? ? Px Pl']; subst; apply insert_sorted.
  - assumption.
  - apply Forall_forall; intros y Hy; apply (proj1 (sort_In _ _)) in Hy.
    rewrite Forall_forall in Pl'; now apply Pl'.
  - now apply IH.
Qed.


End SortFacts.

(** ** The Neighbor Index, for every model of the numbers *)

Section NeighborFacts.

Context {num : Type} {JSN : JSNumber num}.




(** An entry of a neighbor list is another sample, with its entry of the
    distance row. *)
Lemma neighbors_of_In (nNeighbors n i : nat) (row : list num) (nb : neighbor) :
  In nb (neighbors_of nNeighbors n i row) ->
  j nb <> i /\ nth_error row (j nb) = Some (d nb).
Proof.
  unfold neighbors_of; intros H.
  apply In_firstn, (proj1 (sort_In _ _ _)), filter_In in H; destruct H as [H Hne].
  apply in_map_iff in H; destruct H as ([j0 d0] & <- & H); simpl in *.
  apply indexed_In in H; split; [| assumption].
  destruct (Nat.eqb_spec j0 i); [discriminate | assumption].
Qed.

Lemma distance_row_length (embeddings : list (list num)) (dim i : nat) (ei : list num) :
  length (distance_row embeddings dim i ei) = length embeddings.
Proof. unfold distance_row; now rewrite length_map, indexed_length. Qed.


Lemma knn_of_nth (embeddings : list (list num)) (dim nNeighbors i : nat)
    (ei : list num) :
  nth_error embeddings i = Some ei ->
  nth_error (knn_of embeddings dim nNeighbors) i
  = Some (neighbors_of nNeighbors (length embeddings) i
            (distance_row embeddings dim i ei)).
Proof.
  intros H; unfold knn_of, distance_matrix.
  rewrite nth_error_map, indexed_nth, nth_error_map, indexed_nth, H; reflexivity.
Qed.

Lemma knn_of_length (embeddings : list (list num)) (dim nNeighbors : nat) :
  length (knn_of embeddings dim nNeighbors) = length embeddings.
Proof.
  unfold knn_of, distance_matrix.
  now rewrite length_map, indexed_length, length_map, indexed_length.
Qed.

End NeighborFacts.

(** ** The Neighbor Index over exact arithmetic *)

Module NeighborIndex.

Import Exact ExactFacts.




End NeighborIndex.

(** ** The Spatializer, for every model of the numbers *)

Section SpatializerFacts.

Context {num : Type} {JSN : JSNumber num}.

(** The neighbor lists hold indices of samples. *)
Lemma knn_of_in_range (embeddings : list (list num)) (dim nNeighbors i : nat)
    (neighbors : list neighbor) :
  nth_error (knn_of embeddings dim nNeighbors) i = Some neighbors ->
  Forall (fun nb => j nb < length embeddings) neighbors.
Proof.
  intros H.
  destruct (nth_error embeddings i) as [ei|] eqn:Ei.
  - rewrite (knn_of_nth embeddings dim nNeighbors i Ei) in H; inversion H; subst.
    apply Forall_forall; intros nb Hnb.
    apply neighbors_of_In in Hnb; destruct Hnb as [_ Hd].
    rewrite <- (distance_row_length embeddings dim i ei).
    apply nth_error_Some; congruence.
  - apply nth_error_None in Ei.
    assert (nth_error (knn_of embeddings dim nNeighbors) i = None)
      by (apply nth_error_None; now rewrite knn_of_length).
    congruence.
Qed.

(** An empty embedding set: line 504 reads [embeddings[0].length]. *)
Lemma umap_empty (random_values : nat -> num) (Math_log : num -> num)
    (nComponents nNeighbors s : nat) :
  umap random_values Math_log [] nComponents nNeighbors s = Throws.
Proof. reflexivity. Qed.

Lemma kmeans_empty (random_values : nat -> num) (fuel k maxIterations s : nat) :
  kmeans random_values fuel [] k maxIterations s = Throws.
Proof. reflexivity. Qed.

End SpatializerFacts.

(** ** The Spatializer over exact arithmetic *)

Module Spatializer.

Import Exact ExactFacts.
Local Open Scope R_scope.

Local Arguments xsqrt : simpl never.
Local Arguments xlog : simpl never.
Local Arguments xdiv : simpl never.
Local Arguments xlt : simpl never.

Lemma xsqrt_fin (x : R) : 0 <= x -> xsqrt (Fin x) = Fin (sqrt x).
Proof.
  intros H; unfold xsqrt.
  destruct (Rltb x 0) eqn:E; [apply Rltb_true in E; lra | reflexivity].
Qed.

Lemma xlog_fin (x : R) : 0 < x -> xlog (Fin x) = Fin (ln x).
Proof.
  intros H; unfold xlog.
  destruct (Rltb x 0) eqn:E; [apply Rltb_true in E; lra |].
  destruct (Reqb x 0) eqn:E0; [apply Reqb_true in E0; lra | reflexivity].
Qed.

Lemma xdiv_fin (x y : R) : y <> 0 -> xdiv (Fin x) (Fin y) = Fin (x / y).
Proof.
  intros H; unfold xdiv.
  destruct (Reqb y 0) eqn:E; [apply Reqb_true in E; contradiction | reflexivity].
Qed.

Lemma squares_sum_nonneg (x y : R) : 0 <= x * x + y * y.
Proof.
  pose proof (Rle_0_sqr x) as Hx; pose proof (Rle_0_sqr y) as Hy.
  unfold Rsqr in *; lra.
Qed.

(** The floor 0.001 of lines 536 and 550 keeps the distance positive. *)
Lemma floor_positive : 0 < Q2R (1 # 1000).
Proof. unfold Q2R; simpl; lra. Qed.

Lemma floored_distance_positive (x y : R) :
  0 < sqrt (x * x + y * y) + Q2R (1 # 1000).
Proof.
  pose proof (sqrt_pos (x * x + y * y)); pose proof floor_positive; lra.
Qed.

Lemma Q2R_one : Q2R 1 = 1.
Proof. apply (Q2R_inject_Z 1). Qed.

Ltac distance_facts :=
  match goal with
  | |- context [sqrt (?x * ?x + ?y * ?y)] =>
      pose proof (floored_distance_positive x y);
      pose proof (sqrt_pos (x * x + y * y))
  end.

Lemma attract_position (pi pj force : list xreal) :
  position pi -> position pj -> position force ->
  position (attract xlog pi pj force).
Proof.
  intros (x & y & ->) (a & b & ->) (fx & fy & ->).
  unfold attract; simpl.
  rewrite xsqrt_fin by apply squares_sum_nonneg; simpl.
  rewrite xlog_fin by (distance_facts; rewrite Q2R_one; lra); simpl.
  rewrite !xdiv_fin by (distance_facts; lra).
  unfold add_at, array_set; simpl; eexists; eexists; reflexivity.
Qed.

Lemma repel_position (pi pj force : list xreal) :
  position pi -> position pj -> position force ->
  position (repel pi pj force).
Proof.
  intros (x & y & ->) (a & b & ->) (fx & fy & ->).
  unfold repel; simpl.
  rewrite xsqrt_fin by apply squares_sum_nonneg; simpl.
  destruct (xlt _ _); [| eexists; eexists; reflexivity].
  rewrite xdiv_fin by (distance_facts; apply Rgt_not_eq, Rmult_lt_0_compat; lra).
  simpl.
  rewrite !xdiv_fin by (distance_facts; lra).
  unfold add_at, array_set; simpl; eexists; eexists; reflexivity.
Qed.

Lemma displace_position (pi force : list xreal) (decay : xreal) :
  position pi -> position force -> finite decay ->
  position (displace pi force decay).
Proof.
  intros (x & y & ->) (fx & fy & ->) Hd.
  apply finite_Fin in Hd; destruct Hd as [dc ->].
  unfold displace, add_at, array_set; simpl; eexists; eexists; reflexivity.
Qed.

Section Passes.

Variable random_values : nat -> xreal.
Hypothesis random_unit : forall s, unit_interval (random_values s).

Lemma attraction_force_position (positions : list (list xreal)) (pi : list xreal)
    (neighbors : list neighbor) (force : list xreal) :
  Forall position positions -> position pi ->
  Forall (fun nb => (j nb < length positions)%nat) neighbors ->
  position force ->
  exists force',
    attraction_force xlog positions pi neighbors force = Returns force'
    /\ position force'.
Proof.
  intros Hps Hpi Hnb Hf; unfold attraction_force.
  apply ofold_inv with (P := position); [| assumption].
  intros f nb Pf Hin.
  rewrite Forall_forall in Hnb; specialize (Hnb nb Hin).
  destruct (nth_error positions (j nb)) as [pj|] eqn:E;
    [| apply nth_error_None in E; lia].
  simpl; eexists; split; [reflexivity |].
  apply attract_position; auto.
  rewrite Forall_forall in Hps; eapply Hps, nth_error_In; eauto.
Qed.

Lemma repulsion_force_position (positions : list (list xreal)) (i : nat)
    (pi : list xreal) (sampleSize : nat) (force : list xreal) (s : nat) :
  Forall position positions -> (1 <= length positions)%nat ->
  position pi -> position force ->
  exists force' s',
    repulsion_force random_values positions (length positions) i pi sampleSize force s
    = Returns (force', s')
    /\ position force'.
Proof.
  intros Hps Hn Hpi Hf; unfold repulsion_force.
  apply mfold_inv with (P := position); [| assumption].
  intros f _ s0 Pf _.
  destruct (@random_index (random_values s0) (length positions) (random_unit s0) Hn)
    as (jn & Hj & Hlt).
  unfold bind at 1, Math_random; cbv beta iota; rewrite Hj.
  destruct (Nat.eqb i jn).
  - eexists; eexists; split; [reflexivity | assumption].
  - destruct (nth_error positions jn) as [pj|] eqn:E;
      [| apply nth_error_None in E; lia].
    unfold bind, lift; simpl.
    eexists; eexists; split; [reflexivity |].
    apply repel_position; auto.
    rewrite Forall_forall in Hps; eapply Hps, nth_error_In; eauto.
Qed.

Lemma decay_finite (iter : nat) :
  finite (sub (lit 1) (div (of_nat iter) (of_nat iterations))).
Proof.
  rewrite !of_nat_INR.
  assert (H : INR iterations <> 0) by (apply not_0_INR; discriminate).
  revert H; generalize (INR iterations); intros r H.
  simpl; rewrite xdiv_fin by assumption; exact I.
Qed.

(** One pass of the simulation keeps every position a pair of finite
    coordinates. *)
Lemma umap_pass_position (knn : list (list neighbor)) (positions : list (list xreal))
    (iter s : nat) :
  (1 <= length positions)%nat ->
  Forall position positions ->
  length knn = length positions ->
  Forall (Forall (fun nb => (j nb < length positions)%nat)) knn ->
  exists positions' s',
    umap_pass random_values xlog knn 2 (length positions) iterations positions iter s
    = Returns (positions', s')
    /\ Forall position positions'
    /\ length positions' = length positions.
Proof.
  intros Hn Hps Hknn Hin.
  assert (Hpos : forall i, In i (seq 0 (length positions)) ->
                           exists pi, nth_error positions i = Some pi /\ position pi).
  { intros i Hi; apply in_seq in Hi.
    destruct (nth_error positions i) as [pi|] eqn:E;
      [| apply nth_error_None in E; lia].
    exists pi; split; [reflexivity |].
    rewrite Forall_forall in Hps; eapply Hps, nth_error_In; eauto. }
  destruct (@omap_inv nat (list xreal) position
              (fun i =>
                 obind (defined (nth_error positions i)) (fun pi =>
                 obind (defined (nth_error knn i)) (fun neighbors =>
                 attraction_force xlog positions pi neighbors (repeat (lit 0) 2))))
              (seq 0 (length positions)))
    as (attracted & Hatt & Patt).
  { intros i Hi; destruct (Hpos i Hi) as (pi & Epi & Ppi); apply in_seq in Hi.
    destruct (nth_error knn i) as [neighbors|] eqn:Ek;
      [| apply nth_error_None in Ek; lia].
    rewrite Epi; simpl.
    apply attraction_force_position; auto.
    - rewrite Forall_forall in Hin; eapply Hin, nth_error_In; eauto.
    - exists (Q2R 0), (Q2R 0); reflexivity. }
  pose proof (omap_length _ _ Hatt) as Latt; rewrite length_seq in Latt.
  destruct (@mmap_inv nat (list xreal) position
              (fun i =>
                 bind (lift (defined (nth_error positions i))) (fun pi =>
                 bind (lift (defined (nth_error attracted i))) (fun force =>
                 repulsion_force random_values positions (length positions) i pi
                   (Nat.min 30 (length positions)) force)))
              (seq 0 (length positions))) with (s := s)
    as (forces & s' & Hfor & Pfor & Lfor).
  { intros i s0 Hi; destruct (Hpos i Hi) as (pi & Epi & Ppi); apply in_seq in Hi.
    destruct (nth_error attracted i) as [force|] eqn:Ef;
      [| apply nth_error_None in Ef; lia].
    rewrite Epi; unfold bind at 1, lift at 1; simpl.
    unfold bind at 1, lift at 1; simpl.
    apply repulsion_force_position; auto.
    rewrite Forall_forall in Patt; eapply Patt, nth_error_In; eauto. }
  rewrite length_seq in Lfor.
  destruct (@omap_inv nat (list xreal) position
              (fun i =>
                 obind (defined (nth_error positions i)) (fun pi =>
                 obind (defined (nth_error forces i)) (fun force =>
                 Returns (displace pi force
                            (sub (lit 1) (div (of_nat iter) (of_nat iterations)))))))
              (seq 0 (length positions)))
    as (positions' & Hdis & Pdis).
  { intros i Hi; destruct (Hpos i Hi) as (pi & Epi & Ppi); apply in_seq in Hi.
    destruct (nth_error forces i) as [force|] eqn:Ef;
      [| apply nth_error_None in Ef; lia].
    rewrite Epi; simpl; eexists; split; [reflexivity |].
    apply displace_position; auto; [| apply decay_finite].
    rewrite Forall_forall in Pfor; eapply Pfor, nth_error_In; eauto. }
  pose proof (omap_length _ _ Hdis) as Ldis; rewrite length_seq in Ldis.
  exists positions', s'; split; [| split; assumption].
  unfold umap_pass.
  eapply bind_returns; [apply lift_returns, Hatt |].
  eapply bind_returns; [exact Hfor |].
  apply lift_returns, Hdis.
Qed.

(** Lines 506: the initial position of one sample. *)
Lemma initial_position (s : nat) :
  exists p,
    mmap (fun _ : nat => bind (Math_random random_values)
                           (fun u => ret (mul (sub u (lit (1 # 2))) (lit 10))))
         (repeat 0%nat 2) s
    = Returns (p, S (S s))
    /\ position p.
Proof.
  pose proof (random_unit s) as H0; pose proof (random_unit (S s)) as H1.
  simpl; unfold bind, Math_random, ret.
  destruct (random_values s) as [x| | |]; simpl in H0; try contradiction.
  destruct (random_values (S s)) as [y| | |]; simpl in H1; try contradiction.
  simpl; eexists; split; [reflexivity |]; eexists; eexists; reflexivity.
Qed.

(** [umap] returns, with one position of two finite coordinates per sample. *)
Lemma umap_returns (embeddings : list (list xreal)) (nNeighbors s : nat) :
  (1 <= length embeddings)%nat ->
  exists positions s',
    umap random_values xlog embeddings 2 nNeighbors s = Returns (positions, s')
    /\ length positions = length embeddings
    /\ Forall position positions.
Proof.
  intros Hn.
  destruct (nth_error embeddings 0) as [e0|] eqn:E0;
    [| apply nth_error_None in E0; lia].
  destruct (@mmap_inv (list xreal) (list xreal) position
              (fun _ => mmap (fun _ : nat =>
                                bind (Math_random random_values)
                                  (fun u => ret (mul (sub u (lit (1 # 2))) (lit 10))))
                             (repeat 0%nat 2))
              embeddings) with (s := s)
    as (positions & s1 & Hinit & Pinit & Linit).
  { intros _ s0 _; destruct (initial_position s0) as (p & Hp & Pp); eauto. }
  set (knn := knn_of embeddings (length e0) nNeighbors).
  assert (Hknn : Forall (Forall (fun nb => (j nb < length embeddings)%nat)) knn).
  { apply Forall_forall; intros neighbors Hin.
    apply In_nth_error in Hin; destruct Hin as [i Hi].
    eapply knn_of_in_range; eauto. }
  destruct (@mfold_inv nat (list (list xreal))
              (fun ps => Forall position ps /\ length ps = length embeddings)
              (umap_pass random_values xlog knn 2 (length embeddings) iterations)
              (seq 0 iterations)) with (b := positions) (s := s1)
    as (final & s2 & Hfinal & Pfinal & Lfinal).
  { intros ps iter s0 [Pps Lps] _.
    destruct (@umap_pass_position knn ps iter s0) as (ps' & s' & Hps' & Pps' & Lps').
    - lia.
    - assumption.
    - unfold knn; rewrite knn_of_length; congruence.
    - now rewrite Lps.
    - rewrite Lps in Hps'; exists ps', s'; repeat split; auto; congruence. }
  { split; assumption. }
  exists final, s2; repeat split; auto.
  unfold umap.
  eapply bind_returns; [apply lift_returns; rewrite E0; reflexivity |].
  eapply bind_returns; [exact Hinit |].
  exact Hfinal.
Qed.

End Passes.

Local Close Scope R_scope.



(** C4, as the code has it. An empty embedding set makes [umap] throw: line
    504 reads [embeddings[0].length] (in every model of the numbers). With a
    single sample, whose neighbor list is empty, [umap] returns one position
    of two finite coordinates: nothing was divided by zero. *)
Theorem umap_degenerate_sizes :
  (forall (num : Type) (JSN : JSNumber num) (random_values : nat -> num)
          (Math_log : num -> num) (nComponents nNeighbors s : nat),
      umap random_values Math_log [] nComponents nNeighbors s = Throws)
  /\ (forall (random_values : nat -> xreal) (e : list xreal) (nNeighbors s : nat),
        (forall s, unit_interval (random_values s)) ->
        knn_of [e] (length e) nNeighbors = [[]]
        /\ exists x y s',
             umap random_values xlog [e] 2 nNeighbors s
             = Returns ([[Fin x; Fin y]], s')).
Proof.
  split; [reflexivity |].
  intros random_values e nNeighbors s Hr; split.
  - unfold knn_of, distance_matrix, neighbors_of; simpl.
    rewrite Nat.min_0_r; reflexivity.
  - destruct (@umap_returns random_values Hr [e] nNeighbors s)
      as (positions & s' & Hu & Hl & Hp); [simpl; lia |].
    destruct positions as [|p [|q rest]]; try discriminate.
    inversion Hp as [|? ? (x & y & ->) _]; subst.
    exists x, y, s'; exact Hu.
Qed.

Lemma umap_degenerate_sizes_witness :
  knn_of [[Fin 0]] 1 15 = [[]]
  /\ exists x y s',
       umap Samples.zero_draws xlog [[Fin 0]] 2 15 0
       = Returns ([[Fin x; Fin y]], s').
Proof.
  apply (proj2 umap_degenerate_sizes Samples.zero_draws [Fin 0] 15%nat 0%nat).
  intros s; simpl; lra.
Defined.

(** C4 fails for [N = 0]: [umap([])] does not return an empty list, it
    throws. *)
Lemma umap_empty_throws :
  umap Samples.zero_draws xlog [] 2 15 0 = Throws.
Proof. reflexivity. Qed.

End Spatializer.

(** ** Contract violations *)

Section DistanceFacts.

Context {num : Type} {JSN : JSNumber num}.



End DistanceFacts.

Module Contracts.

Import Exact ExactFacts.





End Contracts.

(** ** Objects as maps *)

Lemma key_eqb_eq (a b : key) : key_eqb a b = true <-> a = b.
Proof.
  destruct a as [n|s], b as [m|t]; simpl; split; intros H;
    try discriminate; try (inversion H; subst).
  - apply N.eqb_eq in H; now subst.
  - apply N.eqb_refl.
  - apply String.eqb_eq in H; now subst.
  - apply String.eqb_refl.
Qed.

Lemma key_eqb_refl (a : key) : key_eqb a a = true.
Proof. now apply key_eqb_eq. Qed.

Lemma key_eqb_neq (a b : key) : key_eqb a b = false <-> a <> b.
Proof.
  split; intros H.
  - intros E; apply key_eqb_eq in E; congruence.
  - destruct (key_eqb a b) eqn:E; [apply key_eqb_eq in E; contradiction | reflexivity].
Qed.

Lemma key_eqb_sym (a b : key) : key_eqb a b = key_eqb b a.
Proof.
  destruct (key_eqb a b) eqn:E.
  - apply key_eqb_eq in E; subst; symmetry; apply key_eqb_refl.
  - symmetry; apply key_eqb_neq; apply key_eqb_neq in E; congruence.
Qed.

Section ObjectFacts.

Variable V : Type.

Lemma own_obj_set (o : object V) (k k' : key) (v : V) :
  own (obj_set k v o) k' = if key_eqb k' k then Some v else own o k'.
Proof.
  induction o as [|[k0 v0] o IH]; simpl; [reflexivity |].
  destruct (key_eqb k k0) eqn:E.
  - apply key_eqb_eq in E; subst k0; simpl.
    now destruct (key_eqb k' k).
  - assert (G : own ((k0, v0) :: obj_set k v o) k'
                = if key_eqb k' k then Some v else own ((k0, v0) :: o) k').
    { simpl; rewrite IH.
      destruct (key_eqb k' k0) eqn:E0; [| reflexivity].
      apply key_eqb_eq in E0; subst k'.
      now rewrite key_eqb_sym, E. }
    revert G; clear; destruct k as [n|s], k0 as [m|t]; intros G; try exact G.
    + destruct (N.ltb n m); [reflexivity | exact G].
    + reflexivity.
Qed.

Lemma keys_obj_set (o : object V) (k : key) (v : V) :
  keys (obj_set k v o) = keys_after_set k (keys o).
Proof.
  induction o as [|[k0 v0] o IH]; simpl; [reflexivity |].
  destruct (key_eqb k k0) eqn:E.
  - apply key_eqb_eq in E; now subst.
  - destruct k as [n|s], k0 as [m|t]; simpl; try (f_equal; exact IH); try reflexivity.
    destruct (N.ltb n m); simpl; [reflexivity | f_equal; exact IH].
Qed.

Lemma In_keys_after_set (k k' : key) (ks : list key) :
  In k' (keys_after_set k ks) <-> k' = k \/ In k' ks.
Proof.
  induction ks as [|k0 ks IH]; simpl; [intuition congruence |].
  destruct (key_eqb k k0) eqn:E.
  - apply key_eqb_eq in E; subst; simpl; intuition congruence.
  - assert (G : In k' (k0 :: keys_after_set k ks) <-> k' = k \/ k0 = k' \/ In k' ks)
      by (simpl; rewrite IH; intuition congruence).
    revert G; clear; destruct k as [n|s], k0 as [m|t]; intros G; try exact G.
    + destruct (N.ltb n m); [simpl; intuition congruence | exact G].
    + simpl; intuition congruence.
Qed.

Lemma own_None (o : object V) (k : key) : own o k = None <-> ~ In k (keys o).
Proof.
  induction o as [|[k0 v0] o IH]; simpl; [intuition |].
  destruct (key_eqb k k0) eqn:E.
  - apply key_eqb_eq in E; subst; split; [discriminate | intuition].
  - apply key_eqb_neq in E; rewrite IH; intuition.
Qed.

Lemma own_Some_In (o : object V) (k : key) (v : V) :
  own o k = Some v -> In k (keys o).
Proof.
  induction o as [|[k0 v0] o IH]; simpl; [discriminate |].
  destruct (key_eqb k k0) eqn:E; [apply key_eqb_eq in E; now left | auto].
Qed.

Lemma In_own_Some (o : object V) (k : key) :
  In k (keys o) -> exists v, own o k = Some v.
Proof.
  intros H; destruct (own o k) as [v|] eqn:E; [eauto |].
  apply own_None in E; contradiction.
Qed.

End ObjectFacts.

(** ** Keys and numerals *)

Lemma to_uint_nonnil (n : N) : N.to_uint n <> Decimal.Nil.
Proof.
  destruct n as [|p]; simpl; [discriminate |].
  apply DecimalPos.Unsigned.to_uint_nonnil.
Qed.

Lemma uint_of_decimal (n : N) :
  NilEmpty.uint_of_string (decimal n) = Some (N.to_uint n).
Proof.
  unfold decimal, NilZero.string_of_uint.
  pose proof (to_uint_nonnil n) as H.
  destruct (N.to_uint n) eqn:E; try contradiction; rewrite <- E at 1;
    rewrite NilEmpty.usu; now rewrite E.
Qed.

Lemma decimal_inj (n m : N) : decimal n = decimal m -> n = m.
Proof.
  intros H; apply (f_equal NilEmpty.uint_of_string) in H.
  rewrite !uint_of_decimal in H; inversion H.
  now apply DecimalN.Unsigned.to_uint_inj.
Qed.

Lemma decimal_nonempty (n : N) : decimal n <> EmptyString.
Proof.
  intros H; apply (f_equal NilEmpty.uint_of_string) in H.
  rewrite uint_of_decimal in H; simpl in H; inversion H.
  now apply (to_uint_nonnil n).
Qed.

Lemma key_of_string_cases (s : string) :
  (exists n, key_of_string s = Index n /\ s = decimal n /\ (n < max_index)%N)
  \/ key_of_string s = Name s.
Proof.
  unfold key_of_string.
  destruct (NilEmpty.uint_of_string s) as [u|]; [| now right].
  destruct (negb (String.eqb s "")); simpl; [| now right].
  destruct (String.eqb (decimal (N.of_uint u)) s) eqn:E; simpl; [| now right].
  destruct (N.ltb (N.of_uint u) max_index) eqn:L; [| now right].
  left; exists (N.of_uint u); repeat split.
  - symmetry; now apply String.eqb_eq.
  - now apply N.ltb_lt.
Qed.

Lemma key_of_string_inj (s t : string) :
  key_of_string s = key_of_string t -> s = t.
Proof.
  destruct (key_of_string_cases s) as [(n & -> & -> & _)| ->],
           (key_of_string_cases t) as [(m & -> & -> & _)| ->];
    intros H; inversion H; subst; reflexivity.
Qed.

Lemma string_of_key_of_string (s : string) : string_of_key (key_of_string s) = s.
Proof.
  destruct (key_of_string_cases s) as [(n & -> & -> & _)| ->]; reflexivity.
Qed.

Lemma key_of_decimal (n : N) :
  key_of_string (decimal n)
  = if N.ltb n max_index then Index n else Name (decimal n).
Proof.
  unfold key_of_string; rewrite uint_of_decimal, DecimalN.Unsigned.of_to.
  rewrite String.eqb_refl.
  destruct (String.eqb (decimal n) "") eqn:E;
    [apply String.eqb_eq in E; now apply decimal_nonempty in E |].
  simpl; reflexivity.
Qed.

Lemma key_of_label_inj (a b : option nat) :
  key_of_label a = key_of_label b -> a = b.
Proof.
  assert (U : forall c, key_of_label (Some c) <> key_of_label None).
  { intros c H; simpl in H.
    change (Name "undefined") with (key_of_string "undefined") in H.
    apply key_of_string_inj, (f_equal NilEmpty.uint_of_string) in H.
    rewrite uint_of_decimal in H; discriminate. }
  destruct a as [c|], b as [c'|]; intros H; try reflexivity.
  - simpl in H; apply key_of_string_inj, decimal_inj, Nat2N.inj in H; now subst.
  - now apply U in H.
  - symmetry in H; now apply U in H.
Qed.

(** ** Grouping the texts *)

Lemma indexed_snoc (A : Type) (l : list A) (x : A) :
  indexed (l ++ [x]) = indexed l ++ [(length l, x)].
Proof.
  apply nth_error_ext; intros i; rewrite indexed_nth.
  destruct (Nat.lt_ge_cases i (length l)) as [Hi|Hi].
  - rewrite !nth_error_app1 by (rewrite ?indexed_length; lia).
    now rewrite indexed_nth.
  - rewrite !nth_error_app2 by (rewrite ?indexed_length; lia).
    rewrite indexed_length.
    destruct (i - length l) as [|m] eqn:E; simpl.
    + repeat f_equal; lia.
    + now destruct m.
Qed.

Lemma filter_index_snoc (A : Type) (p : nat -> bool) (l : list A) (x : A) :
  filter_index p (l ++ [x])
  = filter_index p l ++ (if p (length l) then [x] else []).
Proof.
  unfold filter_index; rewrite indexed_snoc, filter_app, map_app; simpl.
  now destruct (p (length l)).
Qed.

Lemma filter_index_ext (A : Type) (p q : nat -> bool) (l : list A) :
  (forall i, i < length l -> p i = q i) -> filter_index p l = filter_index q l.
Proof.
  intros H; unfold filter_index; f_equal; apply filter_ext_in.
  intros [i a] Hin; simpl; apply indexed_In in Hin.
  apply H, nth_error_Some; congruence.
Qed.

Lemma filter_index_nonempty (A : Type) (p : nat -> bool) (l : list A) :
  filter_index p l <> [] <-> exists i, i < length l /\ p i = true.
Proof.
  split.
  - intros H.
    destruct (filter_index p l) as [|a rest] eqn:E; [congruence |].
    assert (Hin : In a (filter_index p l)) by (rewrite E; now left).
    unfold filter_index in Hin; apply in_map_iff in Hin.
    destruct Hin as ([i b] & _ & Hin); apply filter_In in Hin.
    destruct Hin as [Hin Hp]; apply indexed_In in Hin.
    exists i; split; [apply nth_error_Some; congruence | exact Hp].
  - intros (i & Hi & Hp) E.
    destruct (nth_error l i) as [a|] eqn:Ea; [| apply nth_error_None in Ea; lia].
    assert (Hin : In a (filter_index p l)).
    { unfold filter_index; apply in_map_iff; exists (i, a); split; [reflexivity |].
      apply filter_In; split; [now apply indexed_In | exact Hp]. }
    now rewrite E in Hin.
Qed.

(** The property of [clusterTexts] under a key holds the texts of the
    samples whose label gives that key, in the order of the samples; there is
    no property for a key that no sample gives. *)
Lemma group_own (messages : list string) (labels : list nat) (k : key) :
  own (group messages labels) k
  = match filter_index (fun i => key_eqb (key_of_label (nth_error labels i)) k)
                       messages with
    | [] => None
    | texts => Some texts
    end.
Proof.
  unfold group; induction messages as [|x l IH] using rev_ind; [reflexivity |].
  rewrite indexed_snoc, fold_left_app, filter_index_snoc; simpl.
  rewrite own_obj_set, (key_eqb_sym k).
  destruct (key_eqb (key_of_label (nth_error labels (length l))) k) eqn:E.
  - apply key_eqb_eq in E; rewrite E, IH.
    destruct (filter_index _ l) as [|t ts]; reflexivity.
  - rewrite IH, app_nil_r; reflexivity.
Qed.

Lemma existsb_eqb_In (s : string) (l : list string) :
  existsb (String.eqb s) l = true <-> In s l.
Proof.
  rewrite existsb_exists; split.
  - intros (x & Hx & E); apply String.eqb_eq in E; now subst.
  - intros H; exists s; split; [assumption | apply String.eqb_refl].
Qed.

Lemma after_set_name (s : string) (indices : list N) (names : list string) :
  keys_after_set (Name s) (map Index indices ++ map Name names)
  = map Index indices ++ map Name (add_name s names).
Proof.
  induction indices as [|m rest IH]; simpl; [| now rewrite IH].
  unfold add_name; induction names as [|t names IHn]; simpl; [reflexivity |].
  destruct (String.eqb s t) eqn:E; simpl; [reflexivity |].
  rewrite IHn; destruct (existsb (String.eqb s) names); reflexivity.
Qed.

Lemma after_set_index (n : N) (indices : list N) (names : list string) :
  keys_after_set (Index n) (map Index indices ++ map Name names)
  = map Index (place_index n indices) ++ map Name names.
Proof.
  induction indices as [|m rest IH]; simpl.
  - destruct names; reflexivity.
  - destruct (N.eqb n m); [reflexivity |].
    destruct (N.ltb n m); [reflexivity | simpl; now rewrite IH].
Qed.

Lemma In_place_index (n x : N) (indices : list N) :
  In x (place_index n indices) <-> x = n \/ In x indices.
Proof.
  induction indices as [|m rest IH]; simpl; [intuition congruence |].
  destruct (N.eqb_spec n m) as [->|Hne]; [simpl; intuition congruence |].
  destruct (N.ltb n m); simpl; [intuition congruence | rewrite IH; intuition congruence].
Qed.

Lemma place_index_sorted (n : N) (indices : list N) :
  StronglySorted N.lt indices -> StronglySorted N.lt (place_index n indices).
Proof.
  induction indices as [|m rest IH]; simpl; intros H; [repeat constructor |].
  inversion H as [|? ? Hs Hall]; subst.
  destruct (N.eqb_spec n m) as [->|Hne]; [assumption |].
  destruct (N.ltb_spec n m) as [Hlt|Hge].
  - constructor; [assumption |].
    constructor; [assumption |].
    rewrite Forall_forall in *; intros x Hx; specialize (Hall x Hx); lia.
  - constructor; [now apply IH |].
    apply Forall_forall; intros x Hx; apply In_place_index in Hx.
    destruct Hx as [->|Hx]; [lia |].
    rewrite Forall_forall in Hall; now apply Hall.
Qed.

Lemma add_name_NoDup (s : string) (names : list string) :
  NoDup names -> NoDup (add_name s names).
Proof.
  intros H; unfold add_name.
  destruct (existsb (String.eqb s) names) eqn:E; [assumption |].
  apply NoDup_app; repeat split; auto.
  - repeat constructor; intuition.
  - intros x Hx [<-|[]].
    apply existsb_eqb_In in Hx; congruence.
Qed.

Lemma ordered_keys_after_set (k : key) (ks : list key) :
  ordered_keys ks -> ordered_keys (keys_after_set k ks).
Proof.
  intros (indices & names & -> & Hs & Hn); destruct k as [n|s].
  - rewrite after_set_index; exists (place_index n indices), names.
    repeat split; auto; now apply place_index_sorted.
  - rewrite after_set_name; exists indices, (add_name s names).
    repeat split; auto; now apply add_name_NoDup.
Qed.

Lemma ordered_keys_nil : ordered_keys [].
Proof. exists [], []; repeat split; constructor. Qed.

Lemma StronglySorted_lt_NoDup (l : list N) : StronglySorted N.lt l -> NoDup l.
Proof.
  induction 1 as [|a l Hs IH Hall]; constructor; [| assumption].
  intros Hin; rewrite Forall_forall in Hall; specialize (Hall a Hin); lia.
Qed.

Lemma ordered_keys_NoDup (ks : list key) : ordered_keys ks -> NoDup ks.
Proof.
  intros (indices & names & -> & Hs & Hn).
  apply NoDup_app; repeat split.
  - apply Injective_map_NoDup; [intros a b H; now inversion H |].
    now apply StronglySorted_lt_NoDup.
  - apply Injective_map_NoDup; [intros a b H; now inversion H | assumption].
  - intros x Hx Hy; apply in_map_iff in Hx, Hy.
    destruct Hx as (n & <- & _), Hy as (s & E & _); discriminate.
Qed.

Lemma group_ordered (messages : list string) (labels : list nat) :
  ordered_keys (keys (group messages labels)).
Proof.
  unfold group; generalize (indexed messages); intros l.
  assert (G : forall (acc : object (list string)),
             ordered_keys (keys acc) ->
             ordered_keys
               (keys (fold_left
                        (fun clusterTexts it =>
                           obj_set (key_of_label (nth_error labels (fst it)))
                             (match own clusterTexts
                                      (key_of_label (nth_error labels (fst it))) with
                              | Some texts => texts
                              | None => []
                              end ++ [snd it]) clusterTexts) l acc))).
  { induction l as [|it l IH]; simpl; intros acc H; [assumption |].
    apply IH; rewrite keys_obj_set; now apply ordered_keys_after_set. }
  apply G, ordered_keys_nil.
Qed.

(** [clusterLabels] has a property exactly under the keys of [clusterTexts]:
    the label made from the texts under that key. *)
Lemma labelClusters_own (rev : revision) (messages : list string)
    (labels : list nat) (k : key) :
  own (labelClusters rev messages labels) k
  = match own (group messages labels) k with
    | Some texts => Some (label_of rev k (top_words (count_words rev texts)))
    | None => None
    end.
Proof.
  unfold labelClusters.
  pose proof (ordered_keys_NoDup (group_ordered messages labels)) as Hnd.
  revert Hnd; generalize (group messages labels); intros g Hnd.
  assert (G : forall (acc : object string),
             own (fold_left
                    (fun clusterLabels ct =>
                       obj_set (fst ct)
                         (label_of rev (fst ct) (top_words (count_words rev (snd ct))))
                         clusterLabels) g acc) k
             = match own g k with
               | Some texts => Some (label_of rev k (top_words (count_words rev texts)))
               | None => own acc k
               end).
  { induction g as [|[k0 texts] g IH]; simpl; intros acc; [reflexivity |].
    inversion Hnd as [|? ? Hn Hd]; subst.
    rewrite (IH Hd), own_obj_set.
    destruct (key_eqb k k0) eqn:E.
    - apply key_eqb_eq in E; subst k0.
      now rewrite (proj2 (own_None g k) Hn).
    - reflexivity. }
  rewrite G; reflexivity.
Qed.

(** The texts under the key of a slot. *)
Lemma group_own_slot (messages : list string) (labels : list nat) (c : nat) :
  own (group messages labels) (key_of_label (Some c))
  = match member_texts messages labels c with
    | [] => None
    | texts => Some texts
    end.
Proof.
  rewrite group_own; unfold member_texts.
  rewrite (@filter_index_ext _ _ (fun i => match nth_error labels i with
                                           | Some l => Nat.eqb l c
                                           | None => false
                                           end)); [reflexivity |].
  intros i _.
  destruct (key_eqb (key_of_label (nth_error labels i)) (key_of_label (Some c))) eqn:E.
  - apply key_eqb_eq, key_of_label_inj in E; rewrite E; symmetry; apply Nat.eqb_refl.
  - apply key_eqb_neq in E.
    destruct (nth_error labels i) as [l|]; [| reflexivity].
    symmetry; apply Nat.eqb_neq; congruence.
Qed.

(** ** The Label Synthesizer *)

(** C10. [labelClusters] gives a label to exactly the cluster slots that at
    least one sample carries: the key of a slot is a key of the returned
    object if and only if some sample has that slot as its label, and a slot
    without sample has no property in the object (no positional label
    either). *)
Theorem labels_for_inhabited_slots (rev : revision) (messages : list string)
    (labels : list nat) (c : nat) :
  (In (key_of_label (Some c)) (keys (labelClusters rev messages labels))
   <-> exists i, i < length messages /\ nth_error labels i = Some c)
  /\ ((forall i, i < length messages -> nth_error labels i <> Some c) ->
      own (labelClusters rev messages labels) (key_of_label (Some c)) = None).
Proof.
  assert (E : own (labelClusters rev messages labels) (key_of_label (Some c)) = None
              <-> member_texts messages labels c = []).
  { rewrite labelClusters_own, group_own_slot.
    destruct (member_texts messages labels c); split; intros; congruence. }
  assert (F : member_texts messages labels c <> []
              <-> exists i, i < length messages /\ nth_error labels i = Some c).
  { unfold member_texts; rewrite filter_index_nonempty.
    split; intros (i & Hi & H); exists i; split; auto.
    - destruct (nth_error labels i) as [l|]; [| discriminate].
      apply Nat.eqb_eq in H; now subst.
    - rewrite H; apply Nat.eqb_refl. }
  split.
  - rewrite <- F; split.
    + intros Hin Hm; apply E in Hm; apply own_None in Hm; contradiction.
    + intros Hm.
      destruct (own (labelClusters rev messages labels) (key_of_label (Some c)))
        as [l|] eqn:Eo; [eapply own_Some_In; eauto |].
      now pose proof (proj1 E eq_refl).
  - intros Hnone; apply E.
    destruct (member_texts messages labels c) as [|t ts]; [reflexivity |].
    destruct (proj1 F ltac:(discriminate)) as (i & Hi & H); now apply Hnone in H.
Qed.

(** ** Counting the words *)

Lemma insert_map (A B : Type) (g : A -> B) (c : B -> B -> bool) (x : A) (l : list A) :
  insert c (g x) (map g l) = map g (insert (fun a b => c (g a) (g b)) x l).
Proof.
  induction l as [|y l IH]; simpl; [reflexivity |].
  destruct (c (g x) (g y)); simpl; [now rewrite IH | reflexivity].
Qed.

Lemma sort_map (A B : Type) (g : A -> B) (c : B -> B -> bool) (l : list A) :
  sort c (map g l) = map g (sort (fun a b => c (g a) (g b)) l).
Proof.
  induction l as [|x l IH]; simpl; [reflexivity |].
  now rewrite IH, insert_map.
Qed.

Lemma fold_left_concat (A B C : Type) (f : B -> A -> B) (g : C -> list A)
    (l : list C) (b : B) :
  fold_left (fun acc x => fold_left f (g x) acc) l b
  = fold_left f (concat (map g l)) b.
Proof.
  revert b; induction l as [|x l IH]; simpl; intros b; [reflexivity |].
  now rewrite fold_left_app, IH.
Qed.

Section CountFacts.

Import LabelRule.

(** Away from the word [constructor], line 643 counts. *)
Lemma count_word_bump (words : object tally) (word : string) :
  word <> "constructor"%string ->
  count_word words word = bump words (key_of_string word).
Proof.
  intros H; unfold count_word, bump.
  destruct (String.eqb_spec word "constructor"); [contradiction | reflexivity].
Qed.

Lemma count_words_bump (rev : revision) (texts : list string) :
  ~ In "constructor"%string (surviving rev texts) ->
  count_words rev texts
  = fold_left bump (map key_of_string (surviving rev texts)) [].
Proof.
  unfold count_words, surviving; rewrite fold_left_concat.
  generalize (concat (map (textWords rev) texts)) (@nil (key * tally)).
  induction l as [|w l IH]; simpl; intros acc H; [reflexivity |].
  rewrite count_word_bump by intuition congruence.
  apply IH; intuition.
Qed.

Lemma frequency_snoc (ks : list key) (k0 k : key) :
  frequency (ks ++ [k0]) k = frequency ks k + (if key_eqb k k0 then 1 else 0).
Proof.
  unfold frequency; rewrite filter_app, length_app; simpl.
  now destruct (key_eqb k k0).
Qed.

(** The value under a key is the number of its occurrences. *)
Lemma bump_own (ks : list key) (k : key) :
  own (fold_left bump ks []) k
  = match frequency ks k with
    | O => None
    | S n => Some (Count (S n))
    end.
Proof.
  induction ks as [|k0 ks IH] using rev_ind; [reflexivity |].
  rewrite fold_left_app, frequency_snoc; simpl.
  unfold bump at 1; rewrite own_obj_set.
  destruct (key_eqb k k0) eqn:E.
  - apply key_eqb_eq in E; subst k0; rewrite IH.
    destruct (frequency ks k); simpl; [reflexivity |].
    now rewrite Nat.add_1_r.
  - now rewrite IH, Nat.add_0_r.
Qed.

Lemma bump_ordered (ks : list key) : ordered_keys (keys (fold_left bump ks [])).
Proof.
  induction ks as [|k0 ks IH] using rev_ind; [apply ordered_keys_nil |].
  rewrite fold_left_app; simpl; unfold bump at 1.
  rewrite keys_obj_set; now apply ordered_keys_after_set.
Qed.

(** ** The order of the counted words *)

Lemma first_encountered_snoc (A : Type) (eqb : A -> A -> bool) (l : list A) (a : A) :
  first_encountered eqb (l ++ [a])
  = if existsb (eqb a) (first_encountered eqb l)
    then first_encountered eqb l
    else first_encountered eqb l ++ [a].
Proof. unfold first_encountered; now rewrite fold_left_app. Qed.

Lemma insert_place_index (x n : N) (indices : list N) :
  n <> x ->
  insert ascending x (place_index n indices)
  = place_index n (insert ascending x indices).
Proof.
  intros Hne; unfold ascending.
  induction indices as [|y rest IH]; simpl.
  - destruct (N.ltb_spec n x), (N.eqb_spec n x), (N.ltb_spec n x);
      try reflexivity; try contradiction; lia.
  - destruct (N.eqb_spec n y) as [->|Hny]; simpl.
    + destruct (N.ltb_spec y x); simpl.
      * now rewrite N.eqb_refl.
      * destruct (N.eqb_spec y x); [contradiction |].
        destruct (N.ltb_spec y x); [lia |].
        now rewrite N.eqb_refl.
    + destruct (N.ltb_spec n y) as [Hlt|Hge]; simpl.
      * destruct (N.ltb_spec n x), (N.ltb_spec y x); simpl;
          destruct (N.eqb_spec n y), (N.ltb_spec n y), (N.eqb_spec n x),
                   (N.ltb_spec n x); try reflexivity; try contradiction; try lia.
      * destruct (N.ltb_spec y x); simpl.
        -- destruct (N.eqb_spec n y), (N.ltb_spec n y); try contradiction; try lia.
           now rewrite IH.
        -- destruct (N.eqb_spec n x), (N.ltb_spec n x), (N.eqb_spec n y),
                    (N.ltb_spec n y); try reflexivity; try contradiction; lia.
Qed.

Lemma sort_snoc_index (n : N) (l : list N) :
  ~ In n l -> sort ascending (l ++ [n]) = place_index n (sort ascending l).
Proof.
  induction l as [|x l IH]; simpl; intros H; [reflexivity |].
  rewrite IH by intuition.
  apply insert_place_index; intuition.
Qed.

Lemma sort_ascending_sorted (l : list N) : StronglySorted N.le (sort ascending l).
Proof.
  apply Sorted_StronglySorted; [intros a b c; apply N.le_trans |].
  apply sort_sorted with (P := fun _ => True).
  - intros x y _ _ H; unfold ascending in H; apply N.ltb_lt in H; lia.
  - intros x y _ _ H; unfold ascending in H; apply N.ltb_ge in H; lia.
  - apply Forall_forall; auto.
Qed.

Lemma place_index_present (n : N) (indices : list N) :
  StronglySorted N.le indices -> In n indices -> place_index n indices = indices.
Proof.
  induction 1 as [|m rest Hs IH Hall]; simpl; intros Hin; [contradiction |].
  destruct (N.eqb_spec n m) as [->|Hne]; [reflexivity |].
  destruct Hin as [->|Hin]; [contradiction |].
  rewrite Forall_forall in Hall; pose proof (Hall n Hin).
  destruct (N.ltb_spec n m); [lia |].
  now rewrite IH.
Qed.

Lemma existsb_Neqb_In (n : N) (l : list N) : existsb (N.eqb n) l = true <-> In n l.
Proof.
  rewrite existsb_exists; split.
  - intros (x & Hx & E); apply N.eqb_eq in E; now subst.
  - intros H; exists n; split; [assumption | apply N.eqb_refl].
Qed.

Lemma indices_snoc (ks : list key) (k : key) :
  indices (ks ++ [k]) = indices ks ++ match k with Index n => [n] | Name _ => [] end.
Proof. unfold indices; rewrite flat_map_app; simpl; now rewrite app_nil_r. Qed.

Lemma names_snoc (ks : list key) (k : key) :
  names (ks ++ [k]) = names ks ++ match k with Index _ => [] | Name s => [s] end.
Proof. unfold names; rewrite flat_map_app; simpl; now rewrite app_nil_r. Qed.

(** Writing one more word keeps the keys in [property_order]. *)
Lemma property_order_snoc (ks : list key) (k : key) :
  keys_after_set k (property_order ks) = property_order (ks ++ [k]).
Proof.
  unfold property_order; rewrite indices_snoc, names_snoc.
  destruct k as [n|s].
  - rewrite after_set_index, app_nil_r, first_encountered_snoc; do 2 f_equal.
    destruct (existsb (N.eqb n) (first_encountered N.eqb (indices ks))) eqn:E.
    + apply place_index_present; [apply sort_ascending_sorted |].
      apply sort_In; now apply existsb_Neqb_In.
    + symmetry; apply sort_snoc_index.
      intros Hin; apply existsb_Neqb_In in Hin; congruence.
  - rewrite after_set_name, app_nil_r, first_encountered_snoc; reflexivity.
Qed.

Lemma bump_keys (ks : list key) : keys (fold_left bump ks []) = property_order ks.
Proof.
  induction ks as [|k0 ks IH] using rev_ind; [reflexivity |].
  rewrite fold_left_app; simpl; unfold bump at 1.
  now rewrite keys_obj_set, IH, property_order_snoc.
Qed.

(** An object is its keys with their values. *)
Lemma object_by_keys (V : Type) (o : object V) (g : key -> V) :
  NoDup (keys o) ->
  (forall k, In k (keys o) -> own o k = Some (g k)) ->
  o = map (fun k => (k, g k)) (keys o).
Proof.
  induction o as [|[k0 v0] o IH]; simpl; intros Hnd H; [reflexivity |].
  inversion Hnd as [|? ? Hn Hd]; subst.
  pose proof (H k0 (or_introl eq_refl)) as H0; rewrite key_eqb_refl in H0.
  inversion H0; subst; f_equal.
  apply IH; [assumption |].
  intros k Hk; specialize (H k (or_intror Hk)).
  destruct (key_eqb k k0) eqn:E; [| assumption].
  apply key_eqb_eq in E; subst; contradiction.
Qed.

(** The counter object after all the words: the words in [property_order],
    each with its frequency. *)
Lemma bump_all (ks : list key) :
  fold_left bump ks []
  = map (fun k => (k, Count (frequency ks k))) (property_order ks).
Proof.
  rewrite <- bump_keys; apply object_by_keys.
  - apply ordered_keys_NoDup, bump_ordered.
  - intros k Hk; apply In_own_Some in Hk; destruct Hk as [v Hv].
    rewrite bump_own in Hv |- *.
    destruct (frequency ks k); [discriminate | reflexivity].
Qed.

End CountFacts.

(** ** The label of a group *)

Section LabelFacts.

Import LabelRule.

Variable rev : revision.

(** Line 646 on the counter object of a group without the word
    [constructor]: the three first words by frequency. *)
Lemma top_words_ranked (texts : list string) :
  ~ In "constructor"%string (surviving rev texts) ->
  top_words (count_words rev texts)
  = map string_of_key
        (firstn 3 (by_frequency (map key_of_string (surviving rev texts))
                     (property_order (map key_of_string (surviving rev texts))))).
Proof.
  intros H; rewrite (count_words_bump rev texts H), bump_all.
  unfold top_words, by_frequency; rewrite sort_map, firstn_map, map_map.
  reflexivity.
Qed.

(** Lines 648-654 read the two first of the three words only. *)
Lemma label_of_first (cluster : key) (ranked : list key) :
  label_of rev cluster (map string_of_key (firstn 3 ranked))
  = label rev cluster ranked.
Proof. destruct ranked as [|w1 [|w2 [|w3 rest]]]; reflexivity. Qed.

Lemma first_encountered_map (A B : Type) (eqbA : A -> A -> bool)
    (eqbB : B -> B -> bool) (f : A -> B) (l : list A) :
  (forall a b, eqbB (f a) (f b) = eqbA a b) ->
  first_encountered eqbB (map f l) = map f (first_encountered eqbA l).
Proof.
  intros H; induction l as [|a l IH] using rev_ind; [reflexivity |].
  rewrite map_app; simpl; rewrite !first_encountered_snoc, IH.
  replace (existsb (eqbB (f a)) (map f (first_encountered eqbA l)))
    with (existsb (eqbA a) (first_encountered eqbA l)).
  - destruct (existsb _ _); [reflexivity | now rewrite map_app].
  - generalize (first_encountered eqbA l); intros seen.
    induction seen as [|b seen IHs]; simpl; [reflexivity | now rewrite H, IHs].
Qed.

(** Without array indices among the words, the order of the properties is
    the order in which the words were first encountered. *)
Lemma property_order_names (ks : list key) :
  Forall (fun k => exists s, k = Name s) ks ->
  property_order ks = first_encountered key_eqb ks.
Proof.
  intros H.
  assert (E : ks = map Name (names ks) /\ indices ks = []).
  { induction H as [|k ks (s & ->) _ [IH1 IH2]]; [split; reflexivity |].
    unfold names, indices in *; simpl; split; [now f_equal | assumption]. }
  destruct E as [E1 E2]; unfold property_order; rewrite E2; simpl.
  rewrite E1 at 2; symmetry; apply first_encountered_map; reflexivity.
Qed.

End LabelFacts.

(** ** The words of a text *)

Lemma all_chars_app (test : ascii -> bool) (s t : string) :
  all_chars test (s ++ t) = all_chars test s && all_chars test t.
Proof.
  induction s as [|c s IH]; simpl; [reflexivity |].
  now rewrite IH, andb_assoc.
Qed.

Lemma replace_other_chars (s : string) :
  all_chars (fun c => is_alnum c || is_space c) (replace_other s) = true.
Proof.
  unfold replace_other; induction s as [|c s IH]; simpl; [reflexivity |].
  rewrite IH, andb_true_r.
  destruct (is_alnum c || is_space c) eqn:E; [exact E | reflexivity].
Qed.

Lemma split_from_chars (s piece : string) (in_run : bool) :
  all_chars is_alnum piece = true ->
  all_chars (fun c => is_alnum c || is_space c) s = true ->
  Forall (fun w => all_chars is_alnum w = true) (split_from piece in_run s).
Proof.
  revert piece in_run; induction s as [|c s IH]; simpl; intros piece in_run Hp Hs.
  - now constructor.
  - apply andb_true_iff in Hs; destruct Hs as [Hc Hs].
    destruct (is_space c) eqn:E.
    + destruct in_run; [now apply IH |].
      constructor; [assumption | now apply IH].
    + apply IH; [| assumption].
      rewrite all_chars_app, Hp; simpl.
      rewrite orb_false_r in Hc; now rewrite Hc.
Qed.

(** A word that survives lines 641-642 is made of [a-z0-9], is longer than
    two characters and is no stopword. *)
Lemma textWords_spec (rev : revision) (text : string) :
  Forall (fun w => 2 < String.length w
                   /\ ~ In w (stopwords rev)
                   /\ all_chars is_alnum w = true)
         (textWords rev text).
Proof.
  unfold textWords; apply Forall_forall; intros w Hw.
  apply filter_In in Hw; destruct Hw as [Hin Hf].
  apply andb_true_iff in Hf; destruct Hf as [Hlen Hstop].
  split; [now apply Nat.ltb_lt |]; split.
  - intros Hs; apply negb_true_iff in Hstop.
    assert (existsb (String.eqb w) (stopwords rev) = true)
      by (apply existsb_eqb_In; assumption).
    congruence.
  - pose proof (@split_from_chars (replace_other (toLowerCase text)) EmptyString
                  false eq_refl (replace_other_chars _)) as H.
    rewrite Forall_forall in H; now apply H.
Qed.

Lemma fallback_slot (rev : revision) (c : nat) :
  fallback rev (key_of_label (Some c))
  = (fallback_word rev ++ " " ++ decimal (N.of_nat c + 1))%string.
Proof.
  unfold fallback; simpl; rewrite key_of_decimal.
  destruct (N.ltb (N.of_nat c) max_index); [reflexivity |].
  rewrite uint_of_decimal, DecimalN.Unsigned.of_to.
  destruct (String.eqb (decimal (N.of_nat c)) "") eqn:E; [| reflexivity].
  apply String.eqb_eq in E; now apply decimal_nonempty in E.
Qed.

(** C6, as the code has it. For a cluster slot with at least one member
    text, [labelClusters] lower-cases the texts, replaces every character
    outside [a-z0-9] and white space by a space, splits at white space and
    drops the words of length <= 2 and the stopwords. If the word
    [constructor] is not among the surviving words, it counts them and
    labels the slot by the two most frequent words, capitalised and joined
    by " & "; by the only word, capitalised (and suffixed " Topics" in
    part_001); or by the positional label [Topic N+1] ([Cluster N+1]) of
    slot [N] when no word survives. Words of equal frequency keep the order
    in which the counter object lists its properties: the words that are
    array indices first, in ascending numeric order, then the other words
    as first encountered; this is the first-encountered order when no
    surviving word is an array index. *)
Theorem label_of_group (rev : revision) (messages : list string)
    (labels : list nat) (c : nat) :
  member_texts messages labels c <> [] ->
  ~ In "constructor"%string
       (LabelRule.surviving rev (member_texts messages labels c)) ->
  Forall (fun w => 2 < String.length w
                   /\ ~ In w (stopwords rev)
                   /\ all_chars is_alnum w = true)
         (LabelRule.surviving rev (member_texts messages labels c))
  /\ own (labelClusters rev messages labels) (key_of_label (Some c))
     = Some (LabelRule.label_of_words rev (key_of_label (Some c))
               (map key_of_string
                  (LabelRule.surviving rev (member_texts messages labels c))))
  /\ (LabelRule.surviving rev (member_texts messages labels c) = [] ->
      own (labelClusters rev messages labels) (key_of_label (Some c))
      = Some (fallback_word rev ++ " " ++ decimal (N.of_nat c + 1))%string)
  /\ (Forall (fun w => exists s, key_of_string w = Name s)
             (LabelRule.surviving rev (member_texts messages labels c)) ->
      LabelRule.label_of_words rev (key_of_label (Some c))
        (map key_of_string
           (LabelRule.surviving rev (member_texts messages labels c)))
      = LabelRule.claimed_label rev (key_of_label (Some c))
          (map key_of_string
             (LabelRule.surviving rev (member_texts messages labels c)))).
Proof.
  intros Hne Hcons.
  assert (Hown : own (labelClusters rev messages labels) (key_of_label (Some c))
                 = Some (LabelRule.label_of_words rev (key_of_label (Some c))
                           (map key_of_string
                              (LabelRule.surviving rev
                                 (member_texts messages labels c))))).
  { rewrite labelClusters_own, group_own_slot.
    destruct (member_texts messages labels c) as [|t ts] eqn:E; [congruence |].
    rewrite (top_words_ranked rev (t :: ts) Hcons), label_of_first; reflexivity. }
  split; [| split; [exact Hown | split]].
  - unfold LabelRule.surviving; apply Forall_forall; intros w Hw.
    apply in_concat in Hw; destruct Hw as (ws & Hws & Hw).
    apply in_map_iff in Hws; destruct Hws as (text & <- & _).
    pose proof (textWords_spec rev text) as H.
    rewrite Forall_forall in H; now apply H.
  - intros Hnil; rewrite Hown, Hnil; f_equal.
    exact (fallback_slot rev c).
  - intros Hnames; unfold LabelRule.label_of_words, LabelRule.claimed_label.
    rewrite property_order_names; [reflexivity |].
    apply Forall_forall; intros k Hk; apply in_map_iff in Hk.
    destruct Hk as (w & <- & Hw).
    rewrite Forall_forall in Hnames; now apply Hnames.
Qed.

Lemma label_of_group_witness :
  own (labelClusters app_js Samples.texts [0; 0; 0]) (key_of_label (Some 0))
  = Some (LabelRule.label_of_words app_js (key_of_label (Some 0))
            (map key_of_string
               (LabelRule.surviving app_js
                  (member_texts Samples.texts [0; 0; 0] 0)))).
Proof.
  apply (@label_of_group app_js Samples.texts [0; 0; 0] 0).
  - vm_compute; discriminate.
  - vm_compute; intuition discriminate.
Defined.

(** C6 fails where a surviving word is an array index: in the text
    "zebra 100" both words occur once and "zebra" is encountered first, so
    that the rule of the specification gives "Zebra & 100", but the counter
    object lists the property "100" first and the label is "100 & Zebra". *)
Lemma label_ties_follow_property_order :
  own (labelClusters app_js Samples.numeral_text [0]) (key_of_label (Some 0))
  = Some "100 & Zebra"%string
  /\ LabelRule.claimed_label app_js (key_of_label (Some 0))
       (map key_of_string
          (LabelRule.surviving app_js (member_texts Samples.numeral_text [0] 0)))
     = "Zebra & 100"%string.
Proof. split; vm_compute; reflexivity. Qed.

(** The word [constructor] is not counted: in "alpha constructor
    constructor" it occurs twice and "alpha" once, and the label is
    "Alpha & Constructor". *)
Remark constructor_is_not_counted :
  labelClusters app_js Samples.constructor_text [0]
  = [(Index 0, "Alpha & Constructor"%string)]
  /\ LabelRule.frequency
       (map key_of_string
          (LabelRule.surviving app_js (member_texts Samples.constructor_text [0] 0)))
       (Name "constructor")
     = 2.
Proof. split; vm_compute; reflexivity. Qed.

(** * Properties of the code around the numeric core *)

(** ** [truncateText] *)

Lemma length_append (s t : string) :
  String.length (s ++ t) = String.length s + String.length t.
Proof. induction s as [|c s IH]; simpl; [reflexivity | now rewrite IH]. Qed.

Lemma length_substring (n : nat) (s : string) :
  String.length (substring 0 n s) = Nat.min n (String.length s).
Proof.
  revert s; induction n as [|n IH]; intros [|c s]; simpl; try reflexivity.
  now rewrite IH.
Qed.

Lemma substring_append (n : nat) (s t : string) :
  n <= String.length s -> substring 0 n (s ++ t) = substring 0 n s.
Proof.
  revert s; induction n as [|n IH]; intros [|c s]; simpl; intros H;
    try reflexivity; try lia.
  - now destruct t.
  - rewrite IH by lia; reflexivity.
Qed.

Lemma substring_substring (n : nat) (s : string) :
  substring 0 n (substring 0 n s) = substring 0 n s.
Proof.
  revert s; induction n as [|n IH]; intros [|c s]; simpl; try reflexivity.
  now rewrite IH.
Qed.

(** X1. [truncateText] returns at most [maxLength + 3] code units, at most
    two more than the text has; the result starts as the text does; and
    truncating the result again changes nothing. *)
Theorem truncateText_bounded (text : string) (maxLength : nat) :
  String.length (truncateText text maxLength) <= maxLength + 3
  /\ String.length (truncateText text maxLength) <= String.length text + 2
  /\ substring 0 maxLength (truncateText text maxLength)
     = substring 0 maxLength text
  /\ truncateText (truncateText text maxLength) maxLength
     = truncateText text maxLength.
Proof.
  assert (L : String.length text <= maxLength ->
              forall t, t = text -> truncateText t maxLength = text).
  { intros H t ->; unfold truncateText.
    destruct (Nat.leb_spec (String.length text) maxLength); [reflexivity | lia]. }
  destruct (Nat.leb_spec (String.length text) maxLength) as [H|H].
  - rewrite !(L H _ eq_refl); repeat split; lia.
  - assert (E : truncateText text maxLength
                = (substring 0 maxLength text ++ "...")%string).
    { unfold truncateText.
      destruct (Nat.leb_spec (String.length text) maxLength); [lia | reflexivity]. }
    assert (N : String.length (substring 0 maxLength text ++ "...")
                = maxLength + 3).
    { rewrite length_append, length_substring; simpl; lia. }
    assert (S : substring 0 maxLength (substring 0 maxLength text ++ "...")
                = substring 0 maxLength text).
    { rewrite substring_append by (rewrite length_substring; lia).
      apply substring_substring. }
    rewrite E, N; repeat split; try lia; [exact S |].
    unfold truncateText; rewrite N.
    destruct (Nat.leb_spec (maxLength + 3) maxLength); [lia |].
    now rewrite S.
Qed.

(** ** Objects filled key by key *)

Lemma keys_fold_obj_set (A V : Type) (kf : A -> key) (vf : object V -> A -> V)
    (l : list A) :
  keys (fold_left (fun o x => obj_set (kf x) (vf o x) o) l [])
  = LabelRule.property_order (map kf l).
Proof.
  induction l as [|x l IH] using rev_ind; [reflexivity |].
  rewrite fold_left_app, map_app; simpl.
  now rewrite keys_obj_set, IH, property_order_snoc.
Qed.

Lemma In_property_order (ks : list key) (k : key) :
  In k (LabelRule.property_order ks) <-> In k ks.
Proof.
  induction ks as [|k0 ks IH] using rev_ind; [reflexivity |].
  rewrite <- property_order_snoc, In_keys_after_set, IH, in_app_iff; simpl.
  intuition.
Qed.

Lemma property_order_NoDup (ks : list key) : NoDup (LabelRule.property_order ks).
Proof. rewrite <- bump_keys; apply ordered_keys_NoDup, bump_ordered. Qed.

Lemma first_encountered_NoDup (A : Type) (eqb : A -> A -> bool) (l : list A) :
  (forall a b, eqb a b = true -> a = b) ->
  NoDup l -> LabelRule.first_encountered eqb l = l.
Proof.
  intros Heqb; induction l as [|a l IH] using rev_ind; intros Hnd; [reflexivity |].
  apply NoDup_remove in Hnd; rewrite app_nil_r in Hnd; destruct Hnd as [Hnd Hn].
  rewrite first_encountered_snoc, IH by assumption.
  destruct (existsb (eqb a) l) eqn:E; [| reflexivity].
  apply existsb_exists in E; destruct E as (b & Hb & E).
  apply Heqb in E; subst; contradiction.
Qed.

Lemma sort_ascending_id (l : list N) :
  StronglySorted N.lt l -> sort LabelRule.ascending l = l.
Proof.
  induction 1 as [|x l Hs IH Hx]; [reflexivity |].
  change (sort LabelRule.ascending (x :: l))
    with (insert LabelRule.ascending x (sort LabelRule.ascending l)).
  rewrite IH; destruct l as [|y l]; [reflexivity |]; simpl.
  inversion Hx as [|? ? Hxy _]; subst.
  unfold LabelRule.ascending; destruct (N.ltb_spec y x); [lia | reflexivity].
Qed.

Lemma indices_parts (indices : list N) (names : list string) :
  LabelRule.indices (map Index indices ++ map Name names) = indices.
Proof.
  unfold LabelRule.indices; rewrite flat_map_app.
  replace (flat_map _ (map Name names)) with (@nil N)
    by (induction names; simpl; auto).
  rewrite app_nil_r; induction indices as [|n l IH]; simpl; [reflexivity |].
  now f_equal.
Qed.

Lemma names_parts (indices : list N) (names : list string) :
  LabelRule.names (map Index indices ++ map Name names) = names.
Proof.
  unfold LabelRule.names; rewrite flat_map_app.
  replace (flat_map _ (map Index indices)) with (@nil string)
    by (induction indices; simpl; auto).
  induction names as [|n l IH]; simpl; [reflexivity |].
  now f_equal.
Qed.

(** Keys that are in the order of an object already stay as they are. *)
Lemma property_order_ordered (ks : list key) :
  ordered_keys ks -> LabelRule.property_order ks = ks.
Proof.
  intros (indices & names & -> & Hi & Hn).
  unfold LabelRule.property_order; rewrite indices_parts, names_parts.
  rewrite (first_encountered_NoDup N.eqb), sort_ascending_id,
    (first_encountered_NoDup String.eqb); auto.
  - intros a b; apply String.eqb_eq.
  - intros a b; apply N.eqb_eq.
  - now apply StronglySorted_lt_NoDup.
Qed.

(** [clusterLabels] has the keys of [clusterTexts], in the same order. *)
Lemma keys_labelClusters (rev : revision) (messages : list string)
    (labels : list nat) :
  keys (labelClusters rev messages labels) = keys (group messages labels).
Proof.
  unfold labelClusters.
  rewrite (keys_fold_obj_set (@fst key (list string))
             (fun _ ct => label_of rev (fst ct) (top_words (count_words rev (snd ct))))).
  apply property_order_ordered, group_ordered.
Qed.

Lemma map_nth_error_seq (A B : Type) (g : option A -> B) (l : list A) :
  map (fun i => g (nth_error l i)) (seq 0 (length l)) = map (fun x => g (Some x)) l.
Proof.
  induction l as [|a l IH]; [reflexivity |].
  simpl; f_equal; rewrite <- seq_shift, map_map; exact IH.
Qed.

Lemma keys_group (messages : list string) (labels : list nat) :
  length messages = length labels ->
  keys (group messages labels)
  = LabelRule.property_order (Pipeline.label_keys labels).
Proof.
  intros Hlen; unfold group.
  rewrite (keys_fold_obj_set
             (fun it : nat * string => key_of_label (nth_error labels (fst it)))
             (fun o it =>
                (match own o (key_of_label (nth_error labels (fst it))) with
                 | Some texts => texts
                 | None => []
                 end ++ [snd it])%list)).
  f_equal; rewrite <- (map_map fst (fun i => key_of_label (nth_error labels i))).
  rewrite map_fst_indexed, Hlen; apply map_nth_error_seq.
Qed.

(** ** The cluster list of [processConversations] *)

Section ClusterList.

Import LabelRule Pipeline.

(** Line 696 counts: the value under a key is the number of the samples that
    carry the label. *)
Lemma count_label_own (labels : list nat) (k : key) :
  own (fold_left count_label labels []) k
  = match frequency (label_keys labels) k with
    | O => None
    | S n => Some (S n)
    end.
Proof.
  induction labels as [|l labels IH] using rev_ind; [reflexivity |].
  unfold label_keys in *; rewrite fold_left_app, map_app.
  cbn [fold_left map]; unfold count_label at 1.
  rewrite own_obj_set, frequency_snoc.
  destruct (key_eqb k (key_of_label (Some l))) eqn:E.
  - apply key_eqb_eq in E; subst k; rewrite IH.
    destruct (frequency _ _) as [|n]; [reflexivity |].
    now rewrite Nat.add_1_r.
  - now rewrite Nat.add_0_r.
Qed.

Lemma count_label_keys (labels : list nat) :
  keys (fold_left count_label labels []) = property_order (label_keys labels).
Proof.
  apply (keys_fold_obj_set (fun l => key_of_label (Some l))
           (fun o l => match own o (key_of_label (Some l)) with
                       | Some n => S n
                       | None => 1
                       end)).
Qed.

Lemma frequency_label (labels : list nat) (c : nat) :
  frequency (label_keys labels) (key_of_label (Some c))
  = count_occ Nat.eq_dec labels c.
Proof.
  unfold frequency, label_keys; induction labels as [|l labels IH]; [reflexivity |].
  cbn [map filter count_occ]; destruct (Nat.eq_dec l c) as [->|Hne].
  - rewrite key_eqb_refl; cbn [length]; now rewrite IH.
  - destruct (key_eqb _ _) eqn:E; [| exact IH].
    apply key_eqb_eq, key_of_label_inj in E; congruence.
Qed.

Lemma parseInt_label (c : nat) :
  parseInt (key_of_label (Some c)) = Some (N.of_nat c).
Proof.
  unfold key_of_label; rewrite key_of_decimal.
  destruct (N.ltb _ _); [reflexivity |]; simpl.
  destruct (String.eqb_spec (decimal (N.of_nat c)) "") as [E|_];
    [now apply decimal_nonempty in E |].
  rewrite uint_of_decimal; simpl; f_equal; apply DecimalN.Unsigned.of_to.
Qed.

(** Every key occurs once among the keys of the object that counted it. *)
Lemma sum_indicator (L : list key) (k : key) :
  NoDup L -> In k L ->
  list_sum (map (fun k' => if key_eqb k' k then 1 else 0) L) = 1.
Proof.
  induction 1 as [|k0 L Hn Hd IH]; simpl; [contradiction |].
  intros [->|Hin].
  - rewrite key_eqb_refl; f_equal.
    clear IH Hd; induction L as [|k1 L IH]; [reflexivity |]; simpl.
    destruct (key_eqb k1 k) eqn:E;
      [apply key_eqb_eq in E; subst; simpl in Hn; tauto |].
    apply IH; simpl in Hn; tauto.
  - destruct (key_eqb k0 k) eqn:E;
      [apply key_eqb_eq in E; subst; contradiction |].
    now apply IH.
Qed.

Lemma list_sum_add (A : Type) (f g : A -> nat) (l : list A) :
  list_sum (map (fun a => f a + g a) l) = list_sum (map f l) + list_sum (map g l).
Proof. induction l as [|a l IH]; simpl; [reflexivity | rewrite IH; lia]. Qed.

Lemma sum_frequency (ks L : list key) :
  NoDup L -> (forall k, In k ks -> In k L) ->
  list_sum (map (frequency ks) L) = length ks.
Proof.
  intros Hnd; induction ks as [|k ks IH]; intros Hin.
  - induction L as [|k0 L IHL]; [reflexivity |]; simpl.
    apply IHL; [now inversion Hnd | intros k []].
  - rewrite (map_ext (frequency (k :: ks))
               (fun k' => (if key_eqb k' k then 1 else 0) + frequency ks k')).
    + rewrite list_sum_add, sum_indicator, IH; simpl; auto.
      * intros k' Hk'; apply Hin; now right.
      * apply Hin; now left.
    + intros k'; unfold frequency; simpl.
      now destruct (key_eqb k' k).
Qed.

Lemma list_sum_perm (l l' : list nat) :
  Permutation l l' -> list_sum l = list_sum l'.
Proof. induction 1; simpl; lia. Qed.

Lemma NoDup_map_on (A B : Type) (f : A -> B) (l : list A) :
  (forall x y, In x l -> In y l -> f x = f y -> x = y) ->
  NoDup l -> NoDup (map f l).
Proof.
  intros Hinj; induction 1 as [|x l Hn Hd IH]; simpl; constructor.
  - intros Hin; apply in_map_iff in Hin; destruct Hin as (y & Hy & Hin).
    apply Hinj in Hy; simpl; auto; subst; contradiction.
  - apply IH; intros; apply Hinj; simpl; auto.
Qed.

Lemma In_own (V : Type) (o : object V) (k : key) (v : V) :
  NoDup (keys o) -> In (k, v) o -> own o k = Some v.
Proof.
  induction o as [|[k0 v0] o IH]; simpl; [contradiction |].
  intros Hnd [E|Hin]; inversion Hnd as [|? ? Hn Hd]; subst.
  - inversion E; subst; now rewrite key_eqb_refl.
  - destruct (key_eqb k k0) eqn:E; [| now apply IH].
    apply key_eqb_eq in E; subst; contradict Hn.
    change k0 with (fst (k0, v)); now apply in_map.
Qed.

Lemma count_label_lookup (labels : list nat) (k : key) :
  match own (fold_left count_label labels []) k with
  | Some n => n
  | None => 0
  end = frequency (label_keys labels) k.
Proof. rewrite count_label_own; now destruct (frequency _ _). Qed.

(** An entry of [clusterLabels], when every message has its label. *)
Lemma clusterLabels_entry (rev : revision) (messages : list string)
    (labels : list nat) (k : key) (lbl : string) :
  length messages = length labels ->
  In (k, lbl) (labelClusters rev messages labels) ->
  exists c, In c labels
            /\ k = key_of_label (Some c)
            /\ own (labelClusters rev messages labels) k = Some lbl.
Proof.
  intros Hlen Hin.
  assert (Hk : In k (keys (labelClusters rev messages labels))).
  { change k with (fst (k, lbl)); now apply in_map. }
  pose proof Hk as Hk'.
  rewrite keys_labelClusters, keys_group, In_property_order in Hk' by assumption.
  apply in_map_iff in Hk'; destruct Hk' as (c & <- & Hc).
  exists c; repeat split; [assumption |].
  apply In_own; [| assumption].
  rewrite keys_labelClusters, keys_group by assumption.
  apply property_order_NoDup.
Qed.

(** X2. When every message has its label, [state.clusters] has one entry for
    every cluster slot that some message carries and no other entry: the
    entry of slot [c] has the id [c], the label [clusterLabels[c]] and as its
    count the number of messages that carry [c], which is at least 1. *)
Theorem clusters_of_entries (rev : revision) (messages : list string)
    (labels : list nat) :
  length messages = length labels ->
  NoDup (map id (clusters_of (labelClusters rev messages labels) labels))
  /\ (forall c,
        In c labels
        <-> exists e,
              In e (clusters_of (labelClusters rev messages labels) labels)
              /\ id e = Some (N.of_nat c))
  /\ Forall (fun e =>
               exists c,
                 In c labels
                 /\ id e = Some (N.of_nat c)
                 /\ own (labelClusters rev messages labels) (key_of_label (Some c))
                    = Some (label e)
                 /\ count e = count_occ Nat.eq_dec labels c
                 /\ 1 <= count e)
            (clusters_of (labelClusters rev messages labels) labels).
Proof.
  intros Hlen; unfold clusters_of.
  set (CL := labelClusters rev messages labels).
  set (entry := fun e : key * string =>
                  {| id := parseInt (fst e); label := snd e;
                     count := match own (fold_left count_label labels []) (fst e) with
                              | Some n => n
                              | None => 0
                              end |}).
  set (cmp := fun a b : cluster => count a <? count b).
  assert (Hkeys : keys CL = property_order (label_keys labels)).
  { unfold CL; now rewrite keys_labelClusters, keys_group. }
  assert (Hentry : forall e, In e (sort cmp (map entry CL)) ->
            exists c, In c labels
                      /\ id e = Some (N.of_nat c)
                      /\ own CL (key_of_label (Some c)) = Some (label e)
                      /\ count e = count_occ Nat.eq_dec labels c
                      /\ 1 <= count e).
  { intros e He; apply (proj1 (sort_In _ _ _)) in He.
    apply in_map_iff in He; destruct He as ([k lbl] & <- & Hin).
    destruct (clusterLabels_entry rev messages labels k lbl Hlen Hin)
      as (c & Hc & -> & Hown).
    exists c; unfold entry; cbn [id label count fst snd].
    rewrite count_label_lookup, frequency_label, parseInt_label.
    repeat split; auto.
    apply (count_occ_In Nat.eq_dec) in Hc; lia. }
  split; [| split].
  - apply (Permutation_NoDup (l := map id (map entry CL)));
      [apply Permutation_map, Permutation_sym, sort_perm |].
    rewrite map_map; unfold entry; cbn [id].
    rewrite <- (map_map fst parseInt); fold (keys CL); rewrite Hkeys.
    apply NoDup_map_on; [| apply property_order_NoDup].
    intros x y Hx Hy E; apply In_property_order, in_map_iff in Hx, Hy.
    destruct Hx as (cx & <- & _), Hy as (cy & <- & _).
    rewrite !parseInt_label in E; inversion E as [E'].
    apply Nat2N.inj in E'; now subst.
  - intros c; split.
    + intros Hc.
      assert (Hk : In (key_of_label (Some c)) (keys CL)).
      { rewrite Hkeys, In_property_order; unfold label_keys.
        now apply (in_map (fun l => key_of_label (Some l))). }
      apply in_map_iff in Hk; destruct Hk as ([k lbl] & Ek & Hin); simpl in Ek; subst k.
      exists (entry (key_of_label (Some c), lbl)); split.
      * apply sort_In, in_map, Hin.
      * unfold entry; cbn [id fst]; apply parseInt_label.
    + intros (e & He & Hid); destruct (Hentry e He) as (c' & Hc' & Hid' & _).
      rewrite Hid in Hid'; inversion Hid' as [E]; apply Nat2N.inj in E; now subst.
  - apply Forall_forall, Hentry.
Qed.

(** X3. [state.clusters] is in the order of descending counts, and when
    every message has its label the counts add up to the number of
    messages. *)
Theorem clusters_of_counts (rev : revision) (messages : list string)
    (labels : list nat) :
  length messages = length labels ->
  Sorted (fun a b => count b <= count a)
         (clusters_of (labelClusters rev messages labels) labels)
  /\ list_sum (map count (clusters_of (labelClusters rev messages labels) labels))
     = length messages.
Proof.
  intros Hlen; unfold clusters_of; split.
  - apply sort_sorted with (P := fun _ => True).
    + intros x y _ _ H; apply Nat.ltb_lt in H; lia.
    + intros x y _ _ H; apply Nat.ltb_ge in H; lia.
    + apply Forall_forall; auto.
  - rewrite (list_sum_perm (Permutation_map count (sort_perm _ _))).
    rewrite map_map; cbn [count].
    rewrite <- (map_map fst (fun k => match own (fold_left count_label labels []) k with
                                      | Some n => n
                                      | None => 0
                                      end)).
    fold (keys (labelClusters rev messages labels)).
    rewrite keys_labelClusters, keys_group by assumption.
    rewrite (map_ext _ _ (count_label_lookup labels)).
    rewrite sum_frequency.
    + unfold label_keys; now rewrite length_map.
    + apply property_order_NoDup.
    + intros k; apply In_property_order.
Qed.

End ClusterList.

Lemma clusters_of_entries_witness :
  NoDup (map Pipeline.id
           (Pipeline.clusters_of
              (labelClusters app_js Examples.prompts Examples.prompt_labels)
              Examples.prompt_labels))
  /\ (forall c,
        In c Examples.prompt_labels
        <-> exists e,
              In e (Pipeline.clusters_of
                      (labelClusters app_js Examples.prompts Examples.prompt_labels)
                      Examples.prompt_labels)
              /\ Pipeline.id e = Some (N.of_nat c))
  /\ Forall (fun e =>
               exists c,
                 In c Examples.prompt_labels
                 /\ Pipeline.id e = Some (N.of_nat c)
                 /\ own (labelClusters app_js Examples.prompts Examples.prompt_labels)
                        (key_of_label (Some c))
                    = Some (Pipeline.label e)
                 /\ Pipeline.count e = count_occ Nat.eq_dec Examples.prompt_labels c
                 /\ 1 <= Pipeline.count e)
            (Pipeline.clusters_of
               (labelClusters app_js Examples.prompts Examples.prompt_labels)
               Examples.prompt_labels).
Proof.
  apply (clusters_of_entries app_js Examples.prompts Examples.prompt_labels).
  reflexivity.
Defined.

Lemma clusters_of_counts_witness :
  Sorted (fun a b => Pipeline.count b <= Pipeline.count a)
         (Pipeline.clusters_of
            (labelClusters app_js Examples.prompts Examples.prompt_labels)
            Examples.prompt_labels)
  /\ list_sum (map Pipeline.count
                 (Pipeline.clusters_of
                    (labelClusters app_js Examples.prompts Examples.prompt_labels)
                    Examples.prompt_labels))
     = length Examples.prompts.
Proof.
  apply (clusters_of_counts app_js Examples.prompts Examples.prompt_labels).
  reflexivity.
Defined.

(** ** The colours of the clusters *)

(** X13. The cluster slots that [processConversations] asks [kmeans] for
    have colours, and no two of them the same one: there are at most 12
    slots and 15 different colours. *)
Theorem color_of_distinct (n a b : nat) :
  a < Pipeline.numClusters n ->
  b < Pipeline.numClusters n ->
  a <> b ->
  exists ca cb,
    Pipeline.color_of a = Some ca
    /\ Pipeline.color_of b = Some cb
    /\ ca <> cb.
Proof.
  intros Ha Hb Hab.
  assert (HK : Pipeline.numClusters n <= 12).
  { unfold Pipeline.numClusters, minClusters, maxClusters; lia. }
  assert (Hnd : NoDup Pipeline.colors).
  { apply (NoDup_map_inv (fun s => s)).
    rewrite map_id; repeat constructor; simpl;
      intuition (try discriminate). }
  assert (Hlen : length Pipeline.colors = 15) by reflexivity.
  unfold Pipeline.color_of; rewrite Hlen, !Nat.mod_small by lia.
  destruct (nth_error Pipeline.colors a) as [ca|] eqn:Ea;
    [| apply nth_error_None in Ea; lia].
  destruct (nth_error Pipeline.colors b) as [cb|] eqn:Eb;
    [| apply nth_error_None in Eb; lia].
  exists ca, cb; repeat split; intros E; subst cb.
  apply Hab; rewrite <- Eb in Ea.
  apply (proj1 (NoDup_nth_error Pipeline.colors) Hnd) in Ea; [assumption | lia].
Qed.

Lemma color_of_distinct_witness :
  exists ca cb,
    Pipeline.color_of 0 = Some ca /\ Pipeline.color_of 3 = Some cb /\ ca <> cb.
Proof.
  apply (@color_of_distinct 5 0 3); [| | discriminate];
    apply Nat.ltb_lt; reflexivity.
Defined.

(** ** The stages of [processConversations] over exact arithmetic *)

Module PipelineRuns.

Import Exact ExactFacts Pipeline.


(** In binary64 too, [Math.floor(n / 15)] is the integer quotient, for every
    number of messages that [parseExport] lets through. *)
Lemma floor_quotient_binary64 (n : nat) :
  n <= maxMessages ->
  Math_floor_index (JSNumber := Float64.float_number)
    (div (of_nat n) (of_nat messagesPerCluster))
  = Some (n / messagesPerCluster).
Proof.
  intros Hn.
  assert (H : forallb (fun n =>
                match Math_floor_index (JSNumber := Float64.float_number)
                        (div (of_nat n) (of_nat messagesPerCluster)) with
                | Some q => Nat.eqb q (n / messagesPerCluster)
                | None => false
                end) (seq 0 (S maxMessages)) = true) by (vm_compute; reflexivity).
  rewrite forallb_forall in H; specialize (H n).
  destruct (Math_floor_index _) as [q|].
  - f_equal; apply Nat.eqb_eq, H, in_seq; lia.
  - discriminate H; apply in_seq; lia.
Qed.



End PipelineRuns.

(** ** [euclideanDistance] over exact arithmetic *)


Module DistanceFacts.

Import Exact ExactFacts Distance.

Local Open Scope R_scope.








End DistanceFacts.

(** ** [trim] *)

Lemma trimStart_length (s : string) :
  String.length (trimStart s) <= String.length s.
Proof.
  induction s as [|c s IH]; simpl; [lia |].
  destruct (is_space c); simpl; lia.
Qed.

Lemma trimStart_fixed (s : string) : trimStart (trimStart s) = trimStart s.
Proof.
  induction s as [|c s IH]; simpl; [reflexivity |].
  destruct (is_space c) eqn:E; [assumption |].
  simpl; now rewrite E.
Qed.

Lemma trimEnd_fixed (s : string) : trimEnd (trimEnd s) = trimEnd s.
Proof.
  induction s as [|c s IH]; simpl; [reflexivity |].
  destruct (trimEnd s) as [|d t] eqn:E.
  - destruct (is_space c) eqn:Ec; simpl; [reflexivity | now rewrite Ec].
  - change (trimEnd (String c (String d t)))
      with (match trimEnd (String d t) with
            | EmptyString => if is_space c then EmptyString else String c EmptyString
            | String _ _ as t' => String c t'
            end).
    now rewrite IH.
Qed.

(** Cutting the end leaves a start without white space as it is. *)
Lemma trimStart_trimEnd (s : string) :
  trimStart s = s -> trimStart (trimEnd s) = trimEnd s.
Proof.
  destruct s as [|c s]; [reflexivity |]; simpl; intros H.
  destruct (is_space c) eqn:Ec.
  - pose proof (trimStart_length s) as L; rewrite H in L; simpl in L; lia.
  - destruct (trimEnd s); simpl; now rewrite Ec.
Qed.

Lemma trim_fixed (s : string) : trim (trim s) = trim s.
Proof.
  unfold trim; rewrite trimStart_trimEnd by apply trimStart_fixed.
  apply trimEnd_fixed.
Qed.

(** ** The parsers of the exports *)

Lemma ofold_preserves (A B : Type) (P : B -> Prop) (f : B -> A -> outcome B)
    (l : list A) :
  (forall b a b', P b -> f b a = Returns b' -> P b') ->
  forall b b', P b -> ofold f l b = Returns b' -> P b'.
Proof.
  intros Hf; induction l as [|a l IH]; simpl; intros b b' Pb H.
  - now inversion H; subst.
  - destruct (f b a) as [b1| |] eqn:E; simpl in H; try discriminate.
    eapply IH; [eapply Hf |]; eauto.
Qed.

Section ParserFacts.

Import Conversations.

Context {num : Type} {JSN : JSNumber num}.

Variable Date_getTime : json num -> outcome num.
Variable ToNumber : json num -> outcome num.

(** Takes apart the run of a parser that returned. *)
Ltac crack H :=
  cbv beta iota zeta delta [obind] in H;
  repeat match type of H with
         | context [match ?x with _ => _ end] =>
             destruct x eqn:?; cbv beta iota zeta in H; try discriminate H
         end.

Ltac settle :=
  match goal with
  | H : Returns _ = Returns _ |- _ => inversion H; subst; clear H
  end;
  first
    [ assumption
    | apply Forall_app; split; [assumption |];
      apply Forall_cons; [| apply Forall_nil];
      unfold parsed; cbn [text source];
      match goal with
      | E : (minMessageLength <=? _) = true |- _ => apply Nat.leb_le in E
      end;
      repeat split; auto using trim_fixed ].

Lemma scan_node_parsed (title createTime : json num)
    (messages messages' : list (message num)) (node : json num) :
  Forall parsed messages ->
  scan_node title createTime messages node = Returns messages' ->
  Forall parsed messages'.
Proof. intros HP H; unfold scan_node in H; crack H; settle. Qed.

Lemma read_message_parsed (title : json num)
    (messages messages' : list (message num)) (msg : json num) :
  Forall parsed messages ->
  read_message Date_getTime title messages msg = Returns messages' ->
  Forall parsed messages'.
Proof. intros HP H; unfold read_message in H; crack H; settle. Qed.

Lemma parseChatGPTExport_parsed (data : json num) (messages : list (message num)) :
  parseChatGPTExport data = Returns messages -> Forall parsed messages.
Proof.
  unfold parseChatGPTExport; intros H.
  refine (@ofold_preserves _ _ (Forall parsed) _ _ _ _ _ (Forall_nil _) H).
  clear H; intros b conversation b' Pb H; unfold scan_conversation in H.
  destruct (get conversation "title") as [title| |]; try discriminate H.
  destruct (get conversation "create_time") as [createTime| |]; try discriminate H.
  destruct (get conversation "mapping") as [mapping| |]; try discriminate H.
  cbv beta iota delta [obind] in H.
  refine (@ofold_preserves _ _ (Forall parsed) _ _ _ _ _ Pb H).
  intros; eapply scan_node_parsed; eauto.
Qed.

Lemma parseClaudeExport_parsed (data : json num) (messages : list (message num)) :
  parseClaudeExport Date_getTime data = Returns messages -> Forall parsed messages.
Proof.
  unfold parseClaudeExport; intros H.
  destruct (match data with JArray items => Returns items | _ => _ end)
    as [conversations| |]; try discriminate H.
  cbv beta iota delta [obind] in H.
  refine (@ofold_preserves _ _ (Forall parsed) _ _ _ _ _ (Forall_nil _) H).
  clear H; intros b conversation b' Pb H; unfold read_conversation in H.
  destruct (get conversation "name") as [name| |]; try discriminate H.
  destruct (get conversation "title") as [title| |]; try discriminate H.
  destruct (get conversation "chat_messages") as [chat_messages| |];
    try discriminate H.
  cbv beta iota delta [obind] in H.
  destruct (elements _) as [chatMessages| |]; try discriminate H.
  refine (@ofold_preserves _ _ (Forall parsed) _ _ _ _ _ Pb H).
  intros; eapply read_message_parsed; eauto.
Qed.

End ParserFacts.

(** ** The sample of more than 500 messages *)

Lemma filter_index_seq (A : Type) (p : nat -> bool) (l : list A) :
  map Some (filter_index p l) = map (nth_error l) (filter p (seq 0 (length l))).
Proof.
  induction l as [|x l IH] using rev_ind; [reflexivity |].
  rewrite filter_index_snoc, length_app, Nat.add_1_r, seq_S, filter_app,
    !map_app, IH; simpl.
  f_equal.
  - apply map_ext_in; intros i Hi; apply filter_In in Hi; destruct Hi as [Hi _].
    apply in_seq in Hi; symmetry; apply nth_error_app1; lia.
  - destruct (p (length l)); [| reflexivity]; simpl.
    now rewrite nth_error_app2, Nat.sub_diag by lia.
Qed.

(** The multiples of [step] below [n]. *)
Lemma filter_multiples (step n : nat) :
  0 < step ->
  filter (fun i => i mod step =? 0) (seq 0 n)
  = map (fun q => q * step) (seq 0 ((n + step - 1) / step)).
Proof.
  intros Hstep; induction n as [|n IH].
  - rewrite Nat.div_small by lia; reflexivity.
  - pose proof (Nat.div_mod_eq n step) as E.
    pose proof (Nat.mod_upper_bound n step ltac:(lia)) as B.
    assert (C : (n + step - 1) / step
                = if n mod step =? 0 then n / step else S (n / step)).
    { destruct (Nat.eqb_spec (n mod step) 0) as [Z|NZ]; symmetry.
      - apply (Nat.div_unique _ _ _ (step - 1)); lia.
      - apply (Nat.div_unique _ _ _ (n mod step - 1)); lia. }
    assert (D : (S n + step - 1) / step = S (n / step)).
    { symmetry; destruct (Nat.eqb_spec (n mod step) 0) as [Z|NZ].
      - apply (Nat.div_unique _ _ _ 0); lia.
      - apply (Nat.div_unique _ _ _ (n mod step)); lia. }
    rewrite seq_S, filter_app, IH, C, D; cbn [filter Nat.add].
    destruct (Nat.eqb_spec (n mod step) 0) as [Z|NZ].
    + rewrite seq_S, map_app; cbn [map Nat.add]; f_equal; f_equal; lia.
    + now rewrite app_nil_r.
Qed.

Lemma multiples_enough (n : nat) :
  maxMessages < n ->
  maxMessages <= (n + n / maxMessages - 1) / (n / maxMessages).
Proof.
  unfold maxMessages; intros H.
  assert (Hs : 0 < n / 500) by (apply Nat.div_str_pos; lia).
  apply Nat.div_le_lower_bound; [lia |].
  pose proof (Nat.Div0.mul_div_le n 500); lia.
Qed.

Lemma In_sample (A : Type) (messages : list A) (x : A) :
  In x (sample messages) -> In x messages.
Proof.
  unfold sample; destruct (maxMessages <? length messages); [| auto].
  intros H; apply In_firstn in H; unfold filter_index in H.
  apply in_map_iff in H; destruct H as ([i y] & <- & H).
  apply filter_In in H; destruct H as [H _].
  apply indexed_In, nth_error_In in H; exact H.
Qed.

Lemma sample_length (A : Type) (messages : list A) :
  length (sample messages) = Nat.min (length messages) maxMessages.
Proof.
  unfold sample; destruct (Nat.ltb_spec maxMessages (length messages)) as [H|H];
    [| lia].
  rewrite length_firstn.
  rewrite <- (length_map Some), filter_index_seq, length_map.
  assert (Hs : 0 < length messages / maxMessages)
    by (apply Nat.div_str_pos; unfold maxMessages in *; lia).
  rewrite filter_multiples, length_map, length_seq by assumption.
  pose proof (multiples_enough H); lia.
Qed.

(** X5. Of more than 500 messages [parseExport] keeps exactly 500: the
    messages at the positions 0, [step], 2 [step], ... of the list in the order
    of the timestamps, with [step = floor(length / 500)]; all of these
    positions exist. *)
Theorem sample_positions (A : Type) (messages : list A) (i : nat) :
  maxMessages < length messages ->
  i < maxMessages ->
  length (sample messages) = maxMessages
  /\ nth_error (sample messages) i
     = nth_error messages (i * (length messages / maxMessages))
  /\ i * (length messages / maxMessages) < length messages.
Proof.
  intros Hn Hi; split; [rewrite sample_length; lia |].
  assert (Hs : 0 < length messages / maxMessages)
    by (apply Nat.div_str_pos; unfold maxMessages in *; lia).
  assert (Hpos : i * (length messages / maxMessages) < length messages).
  { pose proof (Nat.Div0.mul_div_le (length messages) maxMessages).
    unfold maxMessages in *; nia. }
  split; [| assumption].
  pose proof (sample_length messages) as L.
  unfold sample in *; destruct (Nat.ltb_spec maxMessages (length messages)); [| lia].
  cbv zeta in *; rewrite nth_error_firstn.
  destruct (Nat.ltb_spec i maxMessages); [| lia].
  set (X := filter_index _ messages) in *.
  assert (E : nth_error (map Some X) i
              = Some (nth_error messages (i * (length messages / maxMessages)))).
  { unfold X; rewrite filter_index_seq, filter_multiples by assumption.
    rewrite map_map.
    rewrite (nth_error_map (fun q => nth_error messages (q * _))).
    rewrite nth_error_seq.
    pose proof (multiples_enough Hn).
    destruct (Nat.ltb_spec i ((length messages + length messages / maxMessages - 1)
                              / (length messages / maxMessages))); [| lia].
    reflexivity. }
  rewrite nth_error_map in E.
  destruct (nth_error X i); cbn [option_map] in E; [| discriminate E].
  now inversion E.
Qed.

Lemma sample_positions_witness :
  length (sample Examples.long_timeline) = maxMessages
  /\ nth_error (sample Examples.long_timeline) 499
     = nth_error Examples.long_timeline
         (499 * (length Examples.long_timeline / maxMessages))
  /\ 499 * (length Examples.long_timeline / maxMessages)
     < length Examples.long_timeline.
Proof.
  apply (@sample_positions nat Examples.long_timeline 499).
  - apply Nat.ltb_lt; vm_compute; reflexivity.
  - apply Nat.ltb_lt; vm_compute; reflexivity.
Defined.

(** X6. Of more than 500 but fewer than 1000 messages [parseExport] keeps
    the first 500 in the order of the timestamps: the step is 1, and every
    later message is dropped. *)
Theorem sample_keeps_oldest (A : Type) (messages : list A) :
  maxMessages < length messages < 2 * maxMessages ->
  sample messages = firstn maxMessages messages.
Proof.
  intros [Hlo Hhi]; unfold sample.
  destruct (Nat.ltb_spec maxMessages (length messages)); [| lia].
  cbv zeta; f_equal.
  rewrite <- (Nat.div_unique (length messages) maxMessages 1
                (length messages - maxMessages))
    by (unfold maxMessages in *; lia).
  unfold filter_index; rewrite filter_all; [apply map_snd_indexed |].
  intros x _; now rewrite Nat.mod_1_r.
Qed.

Lemma sample_keeps_oldest_witness :
  sample Examples.timeline = firstn maxMessages Examples.timeline.
Proof.
  apply (@sample_keeps_oldest nat Examples.timeline).
  split; apply Nat.ltb_lt; vm_compute; reflexivity.
Defined.

Section ExportFacts.

Import Conversations.

Context {num : Type} {JSN : JSNumber num}.

Variable Date_getTime : json num -> outcome num.
Variable ToNumber : json num -> outcome num.

Lemma sort_by_timestamp_In (messages sorted : list (message num)) (m : message num) :
  sort_by_timestamp ToNumber messages = Returns sorted ->
  In m sorted -> In m messages.
Proof.
  unfold sort_by_timestamp; destruct messages as [|a [|b l]]; intros H Hin;
    try (inversion H; subst; exact Hin).
  destruct (omap (stamp ToNumber) (a :: b :: l)) as [stamps| |];
    try discriminate H.
  cbv beta iota delta [obind] in H; inversion H; subst; clear H.
  apply in_map_iff in Hin; destruct Hin as ([x m'] & E & Hin); simpl in E; subst m'.
  apply (proj1 (sort_In _ _ _)) in Hin.
  eapply in_combine_r; eauto.
Qed.

(** X7. Every message that [parseExport] returns has a text of at least 15
    code units without white space at its ends, and the source [ChatGPT] or
    [Claude]; and there are at most 500 of them. *)
Theorem parseExport_messages (data : json num) (messages : list (message num)) :
  parseExport Date_getTime ToNumber data = Returns messages ->
  length messages <= maxMessages /\ Forall parsed messages.
Proof.
  unfold parseExport; intros H.
  destruct (first_has data "mapping") as [chatgpt| |]; try discriminate H.
  cbv beta iota delta [obind] in H.
  match type of H with
  | match ?parse with _ => _ end = _ =>
      destruct parse as [found| |] eqn:Hparse; try discriminate H
  end.
  assert (Hfound : Forall parsed found).
  { destruct chatgpt; [eapply parseChatGPTExport_parsed; eauto |].
    destruct (first_has data "chat_messages") as [claude| |];
      try discriminate Hparse.
    destruct claude; [eapply parseClaudeExport_parsed; eauto |].
    destruct (parseChatGPTExport data) as [from_chatgpt| |] eqn:E1;
      try discriminate Hparse.
    destruct (parseClaudeExport Date_getTime data) as [from_claude| |] eqn:E2;
      try discriminate Hparse.
    inversion Hparse; subst; apply Forall_app; split;
      [eapply parseChatGPTExport_parsed | eapply parseClaudeExport_parsed]; eauto. }
  destruct (sort_by_timestamp ToNumber found) as [sorted| |] eqn:Hsort;
    try discriminate H.
  inversion H; subst; clear H; split.
  - rewrite sample_length; lia.
  - apply Forall_forall; intros m Hm.
    apply In_sample in Hm; eapply sort_by_timestamp_In in Hm; eauto.
    rewrite Forall_forall in Hfound; now apply Hfound.
Qed.

End ExportFacts.

Lemma parseExport_messages_witness :
  length Examples.chat_messages <= maxMessages
  /\ Forall Conversations.parsed Examples.chat_messages.
Proof.
  apply (@parseExport_messages _ Float64.float_number Examples.no_conversion
           Examples.no_conversion Examples.chat_export Examples.chat_messages).
  vm_compute; reflexivity.
Defined.

(** ** The edges of [parseExport] *)

Section ExportEdges.

Import Conversations.

Context {num : Type} {JSN : JSNumber num}.

Variable Date_getTime : json num -> outcome num.
Variable ToNumber : json num -> outcome num.

(** X8. [parseExport] throws on [null] and on an array that starts with
    [null]; it returns no message for the empty array and for every other
    value that is no array and has no true property [conversations]. *)
Theorem parseExport_edges :
  parseExport Date_getTime ToNumber JNull = Throws
  /\ (forall rest, parseExport Date_getTime ToNumber (JArray (JNull :: rest)) = Throws)
  /\ parseExport Date_getTime ToNumber (JArray []) = Returns []
  /\ (forall data,
        (forall items, data <> JArray items) ->
        data <> JNull ->
        truthy (get_optional (Some data) "conversations") = false ->
        parseExport Date_getTime ToNumber data = Returns []).
Proof.
  repeat split; try reflexivity.
  intros data Harray Hnull Hconv.
  destruct data as [|b|x|s|items|properties];
    try reflexivity; try congruence; try (now elim (Harray items)).
  unfold parseExport, parseClaudeExport;
    cbn [first_has parseChatGPTExport ofold obind get].
  cbn [get_optional] in Hconv.
  unfold or_else; rewrite Hconv.
  destruct (own properties (key_of_string "conversations")); reflexivity.
Qed.

End ExportEdges.

Lemma parseExport_edges_witness :
  Conversations.parseExport Examples.no_conversion Examples.no_conversion
    (Conversations.JObject
       [(Name "title"%string,
         Conversations.JString "no conversations here"%string)])
  = Returns [].
Proof.
  apply (proj2 (proj2 (proj2
           (@parseExport_edges _ Float64.float_number Examples.no_conversion
              Examples.no_conversion)))).
  - discriminate.
  - discriminate.
  - reflexivity.
Defined.

(** ** The order of the messages *)

Lemma omap_returns_map (A B : Type) (f : A -> outcome B) (g : A -> B) (l : list A) :
  (forall a, In a l -> f a = Returns (g a)) -> omap f l = Returns (map g l).
Proof.
  induction l as [|a l IH]; intros H; [reflexivity |]; simpl.
  rewrite H by (now left).
  rewrite IH by (intros; apply H; now right).
  reflexivity.
Qed.

Lemma combine_map_fst (A B : Type) (g : A -> B) (l : list A) :
  combine (map g l) l = map (fun a => (g a, a)) l.
Proof. induction l as [|a l IH]; simpl; [reflexivity | now rewrite IH]. Qed.

Lemma Sorted_map_snd (A B : Type) (R : B -> B -> Prop) (l : list (A * B)) :
  Sorted (fun p q => R (snd p) (snd q)) l -> Sorted R (map snd l).
Proof.
  induction 1 as [|p l Hs IH Hd]; simpl; constructor; [assumption |].
  destruct Hd; simpl; constructor; assumption.
Qed.

Module ExportOrder.

Import Exact ExactFacts Conversations.

Local Open Scope R_scope.

Lemma stamp_seconds (ToNumber : json xreal -> outcome xreal) (m : message xreal) :
  timed m -> stamp ToNumber m = Returns (Fin (seconds m)).
Proof.
  intros [x Hx]; unfold stamp, seconds, or_else, truthy; rewrite Hx.
  cbn [lt lit xreal_number xlt]; rewrite Q2R_zero.
  destruct (Rltb x 0) eqn:E1; [reflexivity |].
  destruct (Rltb 0 x) eqn:E2; [reflexivity |]; simpl.
  apply Rltb_false in E1, E2; do 2 f_equal; lra.
Qed.

(** X9. Where every message has a finite number as its timestamp (exact
    arithmetic), the sort of line 465 returns the same messages in the order
    of non-decreasing timestamps. *)
Theorem sort_by_timestamp_sorted (ToNumber : json xreal -> outcome xreal)
    (messages : list (message xreal)) :
  Forall timed messages ->
  exists sorted,
    sort_by_timestamp ToNumber messages = Returns sorted
    /\ Permutation sorted messages
    /\ Sorted (fun a b => seconds a <= seconds b) sorted.
Proof.
  intros Ht.
  destruct messages as [|a [|b l]];
    [exists []; repeat constructor | exists [a]; repeat constructor |].
  set (ms := a :: b :: l) in *.
  unfold sort_by_timestamp; fold ms.
  rewrite (@omap_returns_map _ _ (stamp ToNumber) (fun m => Fin (seconds m)))
    by (intros m Hm; apply stamp_seconds; rewrite Forall_forall in Ht; auto).
  cbv beta iota delta [obind]; rewrite combine_map_fst.
  eexists; split; [reflexivity |]; split.
  - rewrite (Permutation_map snd (sort_perm _ _)), map_map; simpl.
    now rewrite map_id.
  - apply Sorted_map_snd.
    apply sort_sorted with (P := fun p => fst p = Fin (seconds (snd p))).
    + intros [x mx] [y my] Px Py; simpl in *; subst; simpl.
      rewrite Q2R_zero, Rltb_true; lra.
    + intros [x mx] [y my] Px Py; simpl in *; subst; simpl.
      rewrite Q2R_zero, Rltb_false; lra.
    + apply Forall_forall; intros p Hp; apply in_map_iff in Hp.
      destruct Hp as (m & <- & _); reflexivity.
Qed.

Lemma sort_by_timestamp_sorted_witness :
  exists sorted,
    sort_by_timestamp Examples.exact_conversion Examples.unordered = Returns sorted
    /\ Permutation sorted Examples.unordered
    /\ Sorted (fun a b => seconds a <= seconds b) sorted.
Proof.
  apply (sort_by_timestamp_sorted Examples.exact_conversion).
  repeat constructor; eexists; reflexivity.
Defined.

End ExportOrder.

(** ** The patterns of the behavioral analysis *)

Section PatternFacts.

Import Patterns.

Local Open Scope string_scope.

(** Every pattern of the source is read. *)
Lemma patterns_read :
  Forall (fun source => regex_of source <> Nothing)
         (map snd questionPatterns ++ map snd intentPatterns
          ++ [technical; conceptual; specific]).
Proof. repeat constructor; vm_compute; discriminate. Qed.






Lemma first_match_rank (patterns : list (string * string)) (text : string) :
  first_match patterns text
  = nth (rank patterns text) (map fst patterns) "General".
Proof.
  unfold first_match; induction patterns as [|e ps IH]; simpl; [reflexivity |].
  destruct (test (regex_of (snd e)) text); [reflexivity | exact IH].
Qed.





(** *** A text inside a longer one *)

Lemma matches_start_app (r : regex) (s after : string) :
  matches_start r s = true -> matches_start r (s ++ after) = true.
Proof.
  revert r; induction s as [|c s IH]; intros r.
  - cbn [matches_start append]; rewrite orb_false_r; intros H.
    destruct after; cbn [matches_start]; now rewrite H.
  - change (String c s ++ after) with (String c (s ++ after)).
    cbn [matches_start]; intros H; apply orb_true_iff in H; apply orb_true_iff.
    destruct H as [H|H]; [now left | right; now apply IH].
Qed.

Lemma test_app_after (r : regex) (s after : string) :
  test r s = true -> test r (s ++ after) = true.
Proof.
  induction s as [|c s IH].
  - cbn [test append]; rewrite orb_false_r; intros H.
    apply (matches_start_app r EmptyString after) in H.
    destruct after; cbn [test append] in *; now rewrite H.
  - change (String c s ++ after) with (String c (s ++ after)).
    cbn [test]; intros H; apply orb_true_iff in H; apply orb_true_iff.
    destruct H as [H|H]; [left | right; now apply IH].
    apply (matches_start_app r (String c s)), H.
Qed.

Lemma test_app_before (r : regex) (before s : string) :
  test r s = true -> test r (before ++ s) = true.
Proof.
  intros H; induction before as [|c before IH]; [exact H |].
  change (String c before ++ s) with (String c (before ++ s)).
  cbn [test]; rewrite IH; apply orb_true_r.
Qed.

Lemma test_inside (r : regex) (before s after : string) :
  test r s = true -> test r (before ++ s ++ after) = true.
Proof. intros H; now apply test_app_before, test_app_after. Qed.


Lemma toLowerCase_app (s t : string) :
  toLowerCase (s ++ t) = toLowerCase s ++ toLowerCase t.
Proof.
  unfold toLowerCase; induction s as [|c s IH]; simpl; [reflexivity |].
  now rewrite IH.
Qed.


(** *** The complexity of a text inside a longer one *)

Lemma split_from_pieces (s piece piece' : string) (in_run : bool) :
  length (split_from piece in_run s) = length (split_from piece' in_run s).
Proof.
  revert piece piece' in_run; induction s as [|c s IH]; intros; simpl;
    [reflexivity |].
  destruct (is_space c), in_run; simpl; auto.
Qed.

Lemma split_from_positive (s piece : string) (in_run : bool) :
  1 <= length (split_from piece in_run s).
Proof.
  revert piece in_run; induction s as [|c s IH]; intros; simpl; [lia |].
  destruct (is_space c), in_run; simpl; auto; lia.
Qed.

(** Behind white space there is one piece less at most, and no piece
    more. *)
Lemma split_from_run (s piece : string) :
  length (split_from piece true s) <= length (split_from piece false s)
  /\ length (split_from piece false s) <= S (length (split_from piece true s)).
Proof.
  destruct s as [|c s]; simpl; [lia |].
  destruct (is_space c); simpl; [| lia].
  rewrite (split_from_pieces s EmptyString piece); lia.
Qed.

Lemma split_from_app_after (s after piece : string) (in_run : bool) :
  length (split_from piece in_run s)
  <= length (split_from piece in_run (s ++ after)).
Proof.
  revert piece in_run; induction s as [|c s IH]; intros; simpl.
  - apply split_from_positive.
  - destruct (is_space c), in_run; simpl; auto.
    apply le_n_S, IH.
Qed.

Lemma split_spaces_app_before (before s : string) :
  length (split_spaces s) <= length (split_spaces (before ++ s)).
Proof.
  unfold split_spaces; generalize EmptyString at 2 as piece.
  induction before as [|c before IH]; intros piece; simpl.
  - rewrite (split_from_pieces s piece EmptyString); lia.
  - destruct (is_space c); [| apply IH].
    simpl; specialize (IH EmptyString).
    pose proof (split_from_run (before ++ s) EmptyString); lia.
Qed.

Lemma split_spaces_inside (before s after : string) :
  length (split_spaces s) <= length (split_spaces (before ++ s ++ after)).
Proof.
  etransitivity; [| apply split_spaces_app_before].
  apply split_from_app_after.
Qed.

Lemma questionMarks_app (s t : string) :
  questionMarks (s ++ t) = questionMarks s + questionMarks t.
Proof. induction s as [|c s IH]; simpl; [reflexivity | rewrite IH; lia]. Qed.

Lemma score_inside (before text after : string) :
  score text <= score (before ++ text ++ after).
Proof.
  unfold score; cbv zeta.
  pose proof (split_spaces_inside before text after) as W.
  pose proof (test_inside (regex_of technical) before text after) as T.
  pose proof (test_inside (regex_of conceptual) before text after) as C.
  pose proof (test_inside (regex_of specific) before text after) as S.
  rewrite !questionMarks_app.
  repeat apply Nat.add_le_mono.
  - destruct (Nat.ltb_spec 50 (length (split_spaces text)));
      destruct (Nat.ltb_spec 50 (length (split_spaces (before ++ text ++ after))));
      destruct (Nat.ltb_spec 20 (length (split_spaces text)));
      destruct (Nat.ltb_spec 20 (length (split_spaces (before ++ text ++ after))));
      lia.
  - destruct (test (regex_of technical) text); [now rewrite T | lia].
  - destruct (test (regex_of conceptual) text); [now rewrite C | lia].
  - destruct (test (regex_of specific) text); [now rewrite S | lia].
  - destruct (Nat.ltb_spec 1 (questionMarks text));
      destruct (Nat.ltb_spec 1 (questionMarks before + (questionMarks text
                                                       + questionMarks after)));
      lia.
Qed.

(** X12. The complexity of a text is at most 5, and text put before or
    after a prompt never lowers its complexity. *)
Theorem analyzeComplexity_inside (before text after : string) :
  analyzeComplexity text <= 5
  /\ analyzeComplexity text <= analyzeComplexity (before ++ text ++ after).
Proof.
  unfold analyzeComplexity.
  pose proof (score_inside before text after); lia.
Qed.

End PatternFacts.

(** ** The dominant type of a cluster *)

(** The head of a sorted list: the first of the greatest elements. *)
Lemma sort_first_greatest (A : Type) (f : A -> nat) (l : list A) :
  l <> [] ->
  exists h rest earlier later,
    sort (fun a b => f a <? f b) l = h :: rest
    /\ l = earlier ++ h :: later
    /\ Forall (fun x => f x < f h) earlier
    /\ Forall (fun x => f x <= f h) later.
Proof.
  induction l as [|x l IH]; [congruence |]; intros _.
  change (sort (fun a b => f a <? f b) (x :: l))
    with (insert (fun a b => f a <? f b) x (sort (fun a b => f a <? f b) l)).
  destruct l as [|y l].
  - exists x, [], [], []; simpl; repeat split; constructor.
  - destruct IH as (h & rest & earlier & later & Hs & Hl & He & Hla); [discriminate |].
    rewrite Hs; cbn [insert].
    destruct (Nat.ltb_spec (f x) (f h)) as [Hlt|Hge].
    + exists h, (insert (fun a b => f a <? f b) x rest), (x :: earlier), later.
      rewrite Hl; repeat split; auto.
    + exists x, (h :: rest), [], (y :: l).
      repeat split; auto.
      rewrite Hl; apply Forall_app; split.
      * eapply Forall_impl; [| exact He]; simpl; intros; lia.
      * constructor; [lia |].
        eapply Forall_impl; [| exact Hla]; simpl; intros; lia.
Qed.

Lemma sort_ext (A : Type) (c c' : A -> A -> bool) (l : list A) :
  (forall a b, c a b = c' a b) -> sort c l = sort c' l.
Proof.
  intros H; induction l as [|x l IH]; [reflexivity |].
  change (insert c x (sort c l) = insert c' x (sort c' l)); rewrite IH.
  generalize (sort c' l) as r; clear IH.
  induction r as [|y r IHr]; cbn [insert]; [reflexivity |].
  rewrite H; destruct (c' x y); [now rewrite IHr | reflexivity].
Qed.

Lemma In_first_encountered (l : list string) (x : string) :
  In x (LabelRule.first_encountered String.eqb l) <-> In x l.
Proof.
  induction l as [|a l IH] using rev_ind; [reflexivity |].
  rewrite first_encountered_snoc, in_app_iff; simpl.
  destruct (existsb _ _) eqn:E.
  - rewrite IH; split; [tauto |]; intros [H|[<-|[]]]; [assumption |].
    apply existsb_exists in E; destruct E as (b & Hb & E).
    apply String.eqb_eq in E; subst b; now apply IH.
  - rewrite in_app_iff, IH; simpl; tauto.
Qed.

Section DominantFacts.

Import Patterns Insights.

Local Open Scope string_scope.
Local Open Scope nat_scope.

Lemma frequency_name (names : list string) (t : string) :
  LabelRule.frequency (map key_of_string names) (key_of_string t)
  = count_occ string_dec names t.
Proof.
  unfold LabelRule.frequency; induction names as [|s names IH]; [reflexivity |].
  cbn [map filter count_occ]; destruct (string_dec s t) as [->|Hne].
  - rewrite key_eqb_refl; cbn [length]; now rewrite IH.
  - destruct (key_eqb _ _) eqn:E; [| exact IH].
    apply key_eqb_eq, key_of_string_inj in E; congruence.
Qed.

(** The dominant one of names that are no array indices and not empty. *)
Lemma dominant_names (names : list string) :
  names <> [] ->
  Forall (fun s => key_of_string s = Name s /\ s <> "") names ->
  first_most_frequent names (dominant (count_names names)).
Proof.
  intros Hne Hplain; unfold dominant, count_names.
  rewrite bump_all, property_order_names, sort_map.
  2:{ apply Forall_forall; intros k Hk; apply in_map_iff in Hk.
      destruct Hk as (s & <- & Hs); rewrite Forall_forall in Hplain.
      exists s; now apply Hplain. }
  rewrite (@first_encountered_map _ _ String.eqb key_eqb key_of_string), sort_map.
  2:{ intros a b; destruct (String.eqb_spec a b) as [->|Hab];
        [apply key_eqb_refl |].
      apply key_eqb_neq; intros E; now apply key_of_string_inj in E. }
  destruct (@sort_first_greatest _ (fun t => count_occ string_dec names t)
              (LabelRule.first_encountered String.eqb names))
    as (h & rest & earlier & later & Hs & Hl & He & Hla).
  { destruct names as [|s names]; [congruence |]; intros E.
    assert (Hin : In s (LabelRule.first_encountered String.eqb (s :: names)))
      by (apply In_first_encountered; now left).
    rewrite E in Hin; exact Hin. }
  rewrite (sort_ext (fun a b => LabelRule.frequency (map key_of_string names)
                                   (key_of_string a)
                                 <? LabelRule.frequency (map key_of_string names)
                                      (key_of_string b))
             (fun a b => count_occ string_dec names a <? count_occ string_dec names b))
    by (intros; now rewrite !frequency_name).
  rewrite Hs; cbn [map fst]; rewrite string_of_key_of_string.
  assert (Hh : In h names)
    by (apply In_first_encountered; rewrite Hl; apply in_elt).
  rewrite Forall_forall in Hplain; destruct (Hplain h Hh) as [_ Hnonempty].
  destruct (String.eqb_spec h ""); [contradiction |].
  exists earlier, later; auto.
Qed.

Lemma first_match_plain (patterns : list (string * string)) (text : string) :
  Forall (fun s => key_of_string s = Name s /\ s <> "")
         (map fst patterns ++ ["General"]) ->
  key_of_string (first_match patterns text) = Name (first_match patterns text)
  /\ first_match patterns text <> "".
Proof.
  intros H; rewrite Forall_forall in H; apply H.
  rewrite first_match_rank, in_app_iff.
  destruct (nth_in_or_default (rank patterns text) (map fst patterns) "General")
    as [Hin | ->]; [now left | right; now left].
Qed.

(** X14. The dominant question type of a cluster that has a message is the most frequent of
    the question types of its messages, and of the most frequent ones the
    type of the earliest message; and so is its dominant intent. *)
Theorem dominant_types (texts : list string) :
  texts <> [] ->
  first_most_frequent (map analyzeQuestionType texts) (dominantQType texts)
  /\ first_most_frequent (map detectIntent texts) (dominantIntent texts).
Proof.
  intros Hne; split; apply dominant_names;
    try (destruct texts; [congruence | discriminate]);
    apply Forall_forall; intros s Hs; apply in_map_iff in Hs;
    destruct Hs as (text & <- & _).
  - apply first_match_plain.
    repeat constructor; try reflexivity; discriminate.
  - unfold detectIntent; cbv zeta; apply first_match_plain.
    repeat constructor; try reflexivity; discriminate.
Qed.

End DominantFacts.

Lemma dominant_types_witness :
  Insights.first_most_frequent
    (map Patterns.analyzeQuestionType Examples.prompts)
    (Insights.dominantQType Examples.prompts)
  /\ Insights.first_most_frequent
       (map Patterns.detectIntent Examples.prompts)
       (Insights.dominantIntent Examples.prompts).
Proof.
  apply (@dominant_types Examples.prompts); discriminate.
Defined.

(** ** The points of the scatter plot *)

Section PointsFacts.

Import Points.

Context {num : Type}.

(** X16. With one position of two coordinates and one label for every
    message, line 702 makes one point of every message without throwing, and
    no point has an undefined coordinate, cluster or cluster label: the label
    is the one [labelClusters] gave to the cluster of the message. *)
Theorem points_of_defined (rev : revision)
    (messages : list (Conversations.message num))
    (coords2d : list (list num)) (labels : list nat) :
  length coords2d = length messages ->
  Forall (fun position => length position = 2) coords2d ->
  length labels = length messages ->
  exists points,
    points_of messages coords2d labels
      (labelClusters rev (map (@Conversations.text num) messages) labels)
    = Returns points
    /\ length points = length messages
    /\ Forall (fun p =>
                 exists vx vy c lbl,
                   x p = Some vx /\ y p = Some vy
                   /\ cluster p = Some c
                   /\ nth_error labels (id p) = Some c
                   /\ clusterLabel p = Some lbl
                   /\ own (labelClusters rev (map (@Conversations.text num) messages)
                             labels)
                          (key_of_label (Some c))
                      = Some lbl)
              points.
Proof.
  intros Hc H2 Hl; unfold points_of.
  match goal with
  | |- exists points, omap ?f ?l = _ /\ _ =>
      destruct (@omap_inv _ _
                  (fun p =>
                     exists vx vy c lbl,
                       x p = Some vx /\ y p = Some vy
                       /\ cluster p = Some c
                       /\ nth_error labels (id p) = Some c
                       /\ clusterLabel p = Some lbl
                       /\ own (labelClusters rev
                                 (map (@Conversations.text num) messages) labels)
                              (key_of_label (Some c))
                          = Some lbl) f l) as (points & Hp & HP)
  end.
  - intros [i msg] Hin; apply indexed_In in Hin; cbn [fst snd].
    assert (Hi : i < length messages) by (apply nth_error_Some; congruence).
    destruct (nth_error coords2d i) as [position|] eqn:Ep;
      [| apply nth_error_None in Ep; lia].
    destruct (nth_error labels i) as [c|] eqn:Ec;
      [| apply nth_error_None in Ec; lia].
    assert (Lp : length position = 2)
      by (rewrite Forall_forall in H2; eapply H2, nth_error_In; eauto).
    destruct position as [|vx [|vy [|? ?]]]; try discriminate Lp.
    assert (Hown : exists lbl,
               own (labelClusters rev (map (@Conversations.text num) messages) labels)
                   (key_of_label (Some c)) = Some lbl).
    { rewrite labelClusters_own, group_own_slot.
      destruct (member_texts _ labels c) as [|t ts] eqn:Em; [| eauto].
      exfalso; revert Em; apply filter_index_nonempty.
      exists i; rewrite length_map, Ec, Nat.eqb_refl; auto. }
    destruct Hown as [lbl Hown].
    eexists; split; [reflexivity |].
    exists vx, vy, c, lbl; cbn; rewrite Ec; auto 10.
  - exists points; split; [assumption |]; split; [| assumption].
    rewrite (omap_length _ _ Hp); apply indexed_length.
Qed.

End PointsFacts.

Lemma points_of_defined_witness :
  exists points,
    Points.points_of Examples.chat_messages Examples.chat_positions
      Examples.chat_labels
      (labelClusters app_js
         (map (@Conversations.text PrimFloat.float) Examples.chat_messages)
         Examples.chat_labels)
    = Returns points
    /\ length points = length Examples.chat_messages
    /\ Forall (fun p =>
                 exists vx vy c lbl,
                   Points.x p = Some vx /\ Points.y p = Some vy
                   /\ Points.cluster p = Some c
                   /\ nth_error Examples.chat_labels (Points.id p) = Some c
                   /\ Points.clusterLabel p = Some lbl
                   /\ own (labelClusters app_js
                             (map (@Conversations.text PrimFloat.float)
                                Examples.chat_messages)
                             Examples.chat_labels)
                          (key_of_label (Some c))
                      = Some lbl)
              points.
Proof.
  apply (@points_of_defined _ app_js Examples.chat_messages
           Examples.chat_positions Examples.chat_labels).
  - reflexivity.
  - repeat constructor.
  - reflexivity.
Defined.
